(** * python-redis-cache: a shallow embedding of [redis_cache/__init__.py]

    The development follows the source file top to bottom:

    - the Redis server the library talks to (string values with an optional
      expiry, sorted sets, the commands the library issues), as far as the
      library depends on it;
    - the Lua script registered by [get_cache_lua_fn];
    - the generator [chunks];
    - [RedisCache] ([mget], [_get_batch_call_result]) and [CacheDecorator]
      ([get_key], [__call__] with its closure [inner], [invalidate],
      [invalidate_all]).

    Python state (the connection, the log, the dictionaries passed to
    [mget], the calls made to the decorated functions) is threaded through a
    state-and-exception monad. *)

From Stdlib Require Import ZArith Ascii.
From stdpp Require Import gmap strings list sorting pretty functions.

Local Open Scope Z_scope.

(** ** Exceptions and the state-and-exception monad *)

Inductive error :=
  | WRONGTYPE          (* Redis: operation against a key holding the wrong kind of value *)
  | WrongArity         (* Redis: wrong number of arguments for a command *)
  | ConnectionError    (* redis-py: the server could not be reached *)
  | DataError          (* redis-py: a value that cannot be sent (None) *)
  | TypeError          (* Python: missing argument, object not iterable *)
  | IndexError         (* Python: list index out of range *)
  | KeyError.          (* Python: missing dictionary key *)

Inductive outcome (A : Type) :=
  | Ok (a : A)
  | Raise (e : error).
Arguments Ok {A} a.
Arguments Raise {A} e.

Definition eff (S A : Type) : Type := S → outcome A * S.

Definition eff_ret {S A} (a : A) : eff S A := λ s, (Ok a, s).

Definition eff_bind {S A B} (f : A → eff S B) (m : eff S A) : eff S B :=
  λ s, match m s with
       | (Ok a, s') => f a s'
       | (Raise e, s') => (Raise e, s')
       end.

Definition raise {S A} (e : error) : eff S A := λ s, (Raise e, s).
Definition get_state {S} : eff S S := λ s, (Ok s, s).
Definition put_state {S} (s : S) : eff S unit := λ _, (Ok tt, s).

Declare Scope eff_scope.
Delimit Scope eff_scope with eff.
Notation "x ← y ; z" := (eff_bind (λ x, z) y)
  (at level 20, y at level 100, z at level 200, only parsing) : eff_scope.
Notation "' x ← y ; z" := (eff_bind (λ x, z) y)
  (at level 20, x pattern, y at level 100, z at level 200, only parsing) : eff_scope.
Abbreviation ret := eff_ret.
Local Open Scope eff_scope.

(** ** The Redis server *)

(** A key holds a string, possibly with the instant at which it expires, or
    a sorted set: a finite map from members to scores. The server keeps an
    expiry in whole milliseconds, while its clock is read in microseconds
    (as [TIME] reports it). A sorted set is ordered by score and, among equal
    scores, by member (byte-wise), which is the order [ZPOPMIN] follows.

    Scores are numbers with at most six decimals here, and are kept exactly,
    as an integer count of millionths. *)
Inductive rvalue :=
  | RString (v : string) (expire_at : option Z)
  | RZset (z : gmap string Z).

Record server := Server {
  db : gmap string rvalue;
  clock : Z  (* microseconds since the epoch *)
}.

Definition set_db (d : gmap string rvalue) (s : server) : server :=
  {| db := d; clock := clock s |}.
Definition set_clock (t : Z) (s : server) : server :=
  {| db := db s; clock := t |}.

(** Expired keys are invisible to every command. A key is expired when the
    clock, read in whole milliseconds, is past its expiry; during the
    millisecond of the expiry itself the key is still there. *)
Definition live (now : Z) (v : rvalue) : bool :=
  match v with
  | RString _ (Some e) => bool_decide (now `div` 1000 ≤ e)
  | _ => true
  end.

Definition lookup_key (k : string) (s : server) : option rvalue :=
  match db s !! k with
  | Some v => if live (clock s) v then Some v else None
  | None => None
  end.

(** Redis never keeps an empty sorted set: the key goes with its last member. *)
Definition store_zset (k : string) (z : gmap string Z) (d : gmap string rvalue)
  : gmap string rvalue :=
  if decide (z = ∅) then delete k d else <[k := RZset z]> d.

(** The sorted set a key holds: [Some ∅] for a missing key, [None] for a key
    of the wrong type. *)
Definition zset_at (k : string) (s : server) : option (gmap string Z) :=
  match lookup_key k s with
  | None => Some ∅
  | Some (RZset z) => Some z
  | Some (RString _ _) => None
  end.

Definition zset_le (a b : string * Z) : Prop :=
  a.2 < b.2 ∨ (a.2 = b.2 ∧ String.le a.1 b.1).

#[global] Instance zset_le_dec : RelDecision zset_le.
Proof. intros a b. unfold zset_le. apply _. Defined.

(** The entries of a sorted set, lowest first. *)
Definition zset_entries (z : gmap string Z) : list (string * Z) :=
  merge_sort zset_le (map_to_list z).

Definition redis_SET (k v : string) : eff server string :=
  λ s, (Ok "OK", set_db (<[k := RString v None]> (db s)) s).

(** [SETEX key seconds value], for a number of seconds that the server
    accepts as a time to live: a positive integer below 2^53 (which the
    script passes on exactly) for which the expiry, in milliseconds, is below
    2^63. The expiry is the current millisecond plus the time to live. What
    the server answers outside this range (an error, nothing written) is not
    described. *)
Definition redis_SETEX (k : string) (seconds : Z) (v : string) : eff server string :=
  λ s, (Ok "OK",
        set_db (<[k := RString v (Some (clock s `div` 1000 + seconds * 1000))]> (db s)) s).

Definition redis_GET (k : string) : eff server (option string) :=
  λ s, match lookup_key k s with
       | None => (Ok None, s)
       | Some (RString v _) => (Ok (Some v), s)
       | Some (RZset _) => (Raise WRONGTYPE, s)
       end.

(** [MGET] answers nil for a key that is missing or does not hold a string. *)
Definition redis_MGET (ks : list string) : eff server (list (option string)) :=
  λ s, (Ok ((λ k, match lookup_key k s with
                  | Some (RString v _) => Some v
                  | _ => None
                  end) <$> ks), s).

(** [TIME] answers the seconds and the microseconds elapsed in the current
    second, as two integers. *)
Definition redis_TIME : eff server (Z * Z) :=
  λ s, (Ok (clock s `div` 1000000, clock s `mod` 1000000), s).

Definition redis_ZADD (k : string) (score : Z) (member : string) : eff server Z :=
  λ s, match zset_at k s with
       | None => (Raise WRONGTYPE, s)
       | Some z =>
           (Ok (if z !! member is Some _ then 0 else 1),
            set_db (store_zset k (<[member := score]> z) (db s)) s)
       end.

(** [ZCOUNT key -inf +inf] *)
Definition redis_ZCOUNT (k : string) : eff server Z :=
  λ s, match zset_at k s with
       | None => (Raise WRONGTYPE, s)
       | Some z => (Ok (Z.of_nat (size z)), s)
       end.

(** [ZPOPMIN key count] removes the [count] lowest entries and answers them
    as a flat array: member, score, member, score, ... *)
Definition redis_ZPOPMIN (k : string) (count : Z) : eff server (list string) :=
  λ s, match zset_at k s with
       | None => (Raise WRONGTYPE, s)
       | Some z =>
           let popped := take (Z.to_nat count) (zset_entries z) in
           let z' := foldr (λ e, delete e.1) z popped in
           (Ok (popped ≫= λ e, [e.1; pretty e.2]),
            set_db (store_zset k z' (db s)) s)
       end.

Definition redis_ZREM (k : string) (members : list string) : eff server Z :=
  λ s, match members with
       | [] => (Raise WrongArity, s)
       | _ =>
         match zset_at k s with
         | None => (Raise WRONGTYPE, s)
         | Some z =>
             let z' := foldr delete z members in
             (Ok (Z.of_nat (size z) - Z.of_nat (size z')),
              set_db (store_zset k z' (db s)) s)
         end
       end.

Definition redis_DEL (ks : list string) : eff server Z :=
  λ s, match ks with
       | [] => (Raise WrongArity, s)
       | _ =>
         (Ok (Z.of_nat (length (filter (λ k, is_Some (lookup_key k s)) ks))),
          set_db (foldr delete (db s) ks) s)
       end.

(** Glob patterns, as [SCAN ... MATCH pattern] interprets them: [*] matches
    any run of characters, [?] one character, [[...]] a class of characters
    (ranges [a-z], negation with a leading [^]), and a backslash takes the
    next character literally. *)
Inductive glob_token :=
  | GStar
  | GAny
  | GLit (c : ascii)
  | GClass (negated : bool) (ranges : list (ascii * ascii)).

Fixpoint glob_class (p : list ascii) : list (ascii * ascii) * list ascii :=
  match p with
  | [] => ([], [])
  | "\"%char :: c :: rest =>
      let '(rs, r) := glob_class rest in ((c, c) :: rs, r)
  | "]"%char :: rest => ([], rest)
  | a :: "-"%char :: b :: rest =>
      let '(rs, r) := glob_class rest in ((a, b) :: rs, r)
  | c :: rest =>
      let '(rs, r) := glob_class rest in ((c, c) :: rs, r)
  end.

Fixpoint glob_tokens (fuel : nat) (p : list ascii) : list glob_token :=
  match fuel with
  | O => []
  | S fuel =>
    match p with
    | [] => []
    | "*"%char :: rest => GStar :: glob_tokens fuel rest
    | "?"%char :: rest => GAny :: glob_tokens fuel rest
    | "["%char :: "^"%char :: rest =>
        let '(rs, r) := glob_class rest in GClass true rs :: glob_tokens fuel r
    | "["%char :: rest =>
        let '(rs, r) := glob_class rest in GClass false rs :: glob_tokens fuel r
    | "\"%char :: c :: rest => GLit c :: glob_tokens fuel rest
    | c :: rest => GLit c :: glob_tokens fuel rest
    end
  end.

Definition ascii_le (a b : ascii) : bool :=
  (Ascii.N_of_ascii a <=? Ascii.N_of_ascii b)%N.

Definition in_range (c : ascii) (r : ascii * ascii) : bool :=
  (ascii_le r.1 c && ascii_le c r.2) || (ascii_le r.2 c && ascii_le c r.1).

Fixpoint glob_match (ts : list glob_token) (s : list ascii) {struct ts} : bool :=
  match ts with
  | [] => bool_decide (s = [])
  | GStar :: ts' =>
      (fix star (s : list ascii) : bool :=
         glob_match ts' s ||
         match s with
         | [] => false
         | _ :: s' => star s'
         end) s
  | GAny :: ts' =>
      match s with
      | [] => false
      | _ :: s' => glob_match ts' s'
      end
  | GLit c :: ts' =>
      match s with
      | [] => false
      | c' :: s' => bool_decide (c = c') && glob_match ts' s'
      end
  | GClass negated rs :: ts' =>
      match s with
      | [] => false
      | c' :: s' =>
          bool_decide (existsb (in_range c') rs ≠ negated) && glob_match ts' s'
      end
  end.

Definition stringmatch (pattern key : string) : bool :=
  let p := String.list_ascii_of_string pattern in
  glob_match (glob_tokens (length p) p) (String.list_ascii_of_string key).

(** A complete [SCAN] iteration with [MATCH pattern]: the live keys that
    match. The cursor protocol is not modelled, only what a full iteration
    yields. *)
Definition redis_SCAN (pattern : string) : eff server (list string) :=
  λ s, (Ok (filter (λ k, is_Some (lookup_key k s) ∧ stringmatch pattern k)
                   (map_to_list (db s)).*1), s).

(** ** [get_cache_lua_fn]: the script *)

(** [tonumber(time_parts[1] .. '.' .. time_parts[2])]: the number whose
    decimal numeral is the text of the seconds, a point, and the text of the
    microseconds. The microseconds are an integer printed as it is, without
    leading zeros, so its text has between one and six digits. The result is
    in millionths. *)
Definition lua_time_number (sec usec : Z) : Z :=
  sec * 1000000 + usec * 10 ^ (6 - Z.of_nat (String.length (pretty usec))).

(** [for i = 1, #t, 2 do r[#r+1] = t[i] end] *)
Fixpoint odd_items {A} (t : list A) : list A :=
  match t with
  | [] => []
  | [x] => [x]
  | x :: _ :: rest => x :: odd_items rest
  end.

(** The script body, with [KEYS[1]], [KEYS[2]], [ARGV[1]], [ARGV[2]] and
    [ARGV[3]] as its arguments. An error raised by [redis.call] ends the
    script; what it wrote before stays written. *)
Definition cache_lua_fn (KEYS1 KEYS2 ARGV1 : string) (ARGV2 ARGV3 : Z)
  : eff server string :=
  let ttl := ARGV2 in
  value ← (if bool_decide (ttl > 0)
           then redis_SETEX KEYS1 ttl ARGV1
           else redis_SET KEYS1 ARGV1);
  let limit := ARGV3 in
  if bool_decide (limit > 0) then
    time_parts ← redis_TIME;
    let time := lua_time_number time_parts.1 time_parts.2 in
    _ ← redis_ZADD KEYS2 time KEYS1;
    count ← redis_ZCOUNT KEYS2;
    let over := count - limit in
    if bool_decide (over > 0) then
      stale_keys_and_scores ← redis_ZPOPMIN KEYS2 over;
      let stale_keys := odd_items stale_keys_and_scores in
      _ ← redis_ZREM KEYS2 stale_keys;
      _ ← redis_DEL stale_keys;
      ret value
    else ret value
  else ret value.

(** ** [chunks] *)

(** One round of the [for _ in range(n)] loop: up to [n] calls of [next]. *)
Fixpoint next_elements {A} (n : nat) (it : list A) : list A * list A :=
  match n, it with
  | S n', x :: it' =>
      let '(elements, rest) := next_elements n' it' in (x :: elements, rest)
  | _, _ => ([], it)
  end.

(** The chunks yielded by the generator, in order. Every round that yields
    takes at least one element from the iterator, so the length of the
    iterable bounds the number of rounds of the [while True] loop. *)
Fixpoint chunks_rounds {A} (rounds : nat) (it : list A) (n : nat) : list (list A) :=
  match rounds with
  | O => []
  | S rounds' =>
      let '(elements, rest) := next_elements n it in
      match elements with
      | [] => []
      | _ => elements :: chunks_rounds rounds' rest n
      end
  end.

Definition chunks {A} (iterable : list A) (n : nat) : list (list A) :=
  chunks_rounds (S (length iterable)) iterable n.

(** ** Python values *)

#[warnings="-register-all"]
Inductive pyobj :=
  | PyNone
  | PyInt (n : Z)
  | PyStr (s : string)
  | PyList (xs : list pyobj)
  | PyDict (kv : list (string * pyobj)).

(** What a serializer returns: [str] or [bytes]. Both are byte strings here
    (a [str] stands for its UTF-8 encoding, which is what the client sends). *)
Inductive pydata :=
  | Str (s : string)
  | Bytes (b : string).

Definition wire (d : pydata) : string :=
  match d with Str s => s | Bytes b => b end.

(** Positional arguments, and keyword arguments: a dictionary, with its
    items in the order of their insertion, the order in which [json.dumps]
    writes them. Python takes two dictionaries with the same items for
    equal whatever the order: as lists they are permutations of each
    other. *)
Definition args_t : Type := list pyobj.
Definition kwargs_t : Type := list (string * pyobj).

(** A Python function: its [__module__], its [__name__] and what it
    computes from positional and keyword arguments. *)
Record pyfunction := PyFunction {
  fn_module : string;
  fn_name : string;
  fn_body : args_t → kwargs_t → pyobj
}.

(** Iterating over a value, as [zip] does. *)
Definition py_iter (o : pyobj) : option (list pyobj) :=
  match o with
  | PyList xs => Some xs
  | PyDict kv => Some (PyStr <$> kv.*1)
  | PyStr s => Some ((λ c, PyStr (String c EmptyString)) <$> String.list_ascii_of_string s)
  | _ => None
  end.

(** ** [base64.b64encode] *)

Definition b64_alphabet : list ascii :=
  String.list_ascii_of_string
    "ABCDEFGHIJKLMNOPQRSTUVWXYZabcdefghijklmnopqrstuvwxyz0123456789+/".

Definition b64_digit (n : N) : ascii :=
  nth (N.to_nat n) b64_alphabet "="%char.

Fixpoint b64_groups (bs : list ascii) : list ascii :=
  match bs with
  | [] => []
  | [a] =>
      let x := N_of_ascii a in
      [b64_digit (N.shiftr x 2);
       b64_digit (N.shiftl (N.land x 3) 4);
       "="%char; "="%char]
  | [a; b] =>
      let x := N_of_ascii a in
      let y := N_of_ascii b in
      [b64_digit (N.shiftr x 2);
       b64_digit (N.lor (N.shiftl (N.land x 3) 4) (N.shiftr y 4));
       b64_digit (N.shiftl (N.land y 15) 2);
       "="%char]
  | a :: b :: c :: rest =>
      let x := N_of_ascii a in
      let y := N_of_ascii b in
      let z := N_of_ascii c in
      b64_digit (N.shiftr x 2)
      :: b64_digit (N.lor (N.shiftl (N.land x 3) 4) (N.shiftr y 4))
      :: b64_digit (N.lor (N.shiftl (N.land y 15) 2) (N.shiftr z 6))
      :: b64_digit (N.land z 63)
      :: b64_groups rest
  end.

Definition b64encode (b : string) : string :=
  String.string_of_list_ascii (b64_groups (String.list_ascii_of_string b)).

(** ** The Python side: connection, log, calls, objects *)

(** A call of a decorated function's underlying computation. *)
Record invocation := Invocation {
  inv_module : string;
  inv_name : string;
  inv_args : args_t;
  inv_kwargs : kwargs_t
}.

(** The dictionaries handed to [mget]: [{'fn': ..., 'args': ..., 'kwargs':
    ...}], to which [mget] adds ['call_idx']. ['fn'] is a decorated function,
    named by its identity. *)
Record fn_and_args := FnAndArgs {
  d_fn : nat;
  d_args : option args_t;
  d_kwargs : option kwargs_t;
  d_call_idx : option nat
}.

(** The commands the library sends, and their replies. *)
Inductive command :=
  | GET (k : string)
  | MGET (ks : list string)
  | SCAN (pattern : string)
  | DEL (ks : list string)
  | ZREM (k : string) (members : list string)
  | EVALSHA (KEYS1 KEYS2 ARGV1 : string) (ARGV2 ARGV3 : Z).

#[warnings="-register-all"]
Inductive reply :=
  | Nil
  | Bulk (s : string)
  | Integer (n : Z)
  | Status (s : string)
  | Array (rs : list reply).

Definition bulk (r : option string) : reply :=
  match r with Some v => Bulk v | None => Nil end.

Definition run_command (c : command) : eff server reply :=
  match c with
  | GET k => r ← redis_GET k; ret (bulk r)
  | MGET ks => rs ← redis_MGET ks; ret (Array (bulk <$> rs))
  | SCAN pattern => ks ← redis_SCAN pattern; ret (Array (Bulk <$> ks))
  | DEL ks => n ← redis_DEL ks; ret (Integer n)
  | ZREM k ms => n ← redis_ZREM k ms; ret (Integer n)
  | EVALSHA k1 k2 v ttl limit => s ← cache_lua_fn k1 k2 v ttl limit; ret (Status s)
  end.

(** The queued commands of a pipeline run one after the other as one
    transaction; a command that fails does not stop the following ones, and
    the first error is raised once all have run. *)
Fixpoint run_transaction (cs : list command) : eff server (list reply) :=
  match cs with
  | [] => ret []
  | c :: cs' =>
      λ s, match run_command c s with
           | (Ok r, s') =>
               match run_transaction cs' s' with
               | (Ok rs, s'') => (Ok (r :: rs), s'')
               | (Raise e, s'') => (Raise e, s'')
               end
           | (Raise e, s') => (Raise e, (run_transaction cs' s').2)
           end
  end.

(** - [redis]: the server;
    - [link]: whether each of the coming exchanges with the server gets
      through ([false]: the server cannot be reached); an exhausted list
      means every further exchange gets through;
    - [served]: the requests of the library that got through, oldest first,
      each with the commands it carried (what the client sends of its own
      to have a script loaded on the server is not recorded);
    - [log]: the records emitted through [logger], level and message;
    - [calls]: the underlying computations invoked so far, oldest first;
    - [heap]: the dictionaries, by address. *)
Record world := World {
  redis : server;
  link : list bool;
  served : list (list command);
  log : list (string * string);
  calls : list invocation;
  heap : nat → fn_and_args
}.

Definition set_redis (r : server) (w : world) : world :=
  {| redis := r; link := link w; served := served w; log := log w;
     calls := calls w; heap := heap w |}.
Definition set_link (l : list bool) (w : world) : world :=
  {| redis := redis w; link := l; served := served w; log := log w;
     calls := calls w; heap := heap w |}.
Definition set_served (x : list (list command)) (w : world) : world :=
  {| redis := redis w; link := link w; served := x; log := log w;
     calls := calls w; heap := heap w |}.
Definition set_log (l : list (string * string)) (w : world) : world :=
  {| redis := redis w; link := link w; served := served w; log := l;
     calls := calls w; heap := heap w |}.
Definition set_calls (c : list invocation) (w : world) : world :=
  {| redis := redis w; link := link w; served := served w; log := log w;
     calls := c; heap := heap w |}.
Definition set_heap (h : nat → fn_and_args) (w : world) : world :=
  {| redis := redis w; link := link w; served := served w; log := log w;
     calls := calls w; heap := h |}.

(** One exchange with the server, carrying [cs]. *)
Definition exchange (cs : list command) : eff world unit :=
  λ w, match link w with
       | [] => (Ok tt, set_served (served w ++ [cs]) w)
       | true :: l => (Ok tt, set_served (served w ++ [cs]) (set_link l w))
       | false :: l => (Raise ConnectionError, set_link l w)
       end.

(** What the server does with the commands [cs] is [c]. *)
Definition on_server {A} (cs : list command) (c : eff server A) : eff world A :=
  _ ← exchange cs;
  λ w, let '(r, s) := c (redis w) in (r, set_redis s w).

Definition logger_warning (msg : string) : eff world unit :=
  λ w, (Ok tt, set_log (log w ++ [("WARNING", msg)]) w).

(** A call [fn(...)] with the given positional and keyword arguments. *)
Definition call (fn : pyfunction) (args : args_t) (kwargs : kwargs_t) : eff world pyobj :=
  λ w, (Ok (fn_body fn args kwargs),
        set_calls (calls w ++ [Invocation (fn_module fn) (fn_name fn) args kwargs]) w).

(** [pipeline.execute()]: the queued commands go to the server as one
    request; nothing is sent when nothing was queued. For a pipeline with
    script calls the client first makes sure that the server has the script
    ([SCRIPT EXISTS], [SCRIPT LOAD]); these exchanges of the client are left
    out, they change nothing in the keys of the store. *)
Definition pipeline_execute (cs : list command) : eff world (list reply) :=
  match cs with
  | [] => ret []
  | _ => on_server cs (run_transaction cs)
  end.

(** [client.get], [client.mget], [client.delete], [client.scan_iter]. The
    Python method [mget] has a required first parameter: called with no key
    it fails before anything is sent. *)
Definition client_get (k : string) : eff world (option string) :=
  on_server [GET k] (redis_GET k).

Definition client_mget (ks : list string) : eff world (list (option string)) :=
  match ks with
  | [] => raise TypeError
  | _ => on_server [MGET ks] (redis_MGET ks)
  end.

Definition client_delete (ks : list string) : eff world Z :=
  on_server [DEL ks] (redis_DEL ks).

Definition client_scan_iter (pattern : string) : eff world (list string) :=
  on_server [SCAN pattern] (redis_SCAN pattern).

(** [get_cache_lua_fn(client)(keys=[k1, k2], args=[v, ttl, limit])]: the
    registered script, run on the server. The registration is kept on the
    client object and made once; it has no part in what the script does, and
    neither has the loading of the script by the client ([EVALSHA] again
    after [SCRIPT LOAD] when the server does not know the script), which is
    left out. *)
Definition get_cache_lua_fn (KEYS1 : string) (KEYS2 : option string)
    (ARGV1 : pydata) (ARGV2 ARGV3 : Z) : eff world string :=
  match KEYS2 with
  | None => raise DataError
  | Some k2 =>
      on_server [EVALSHA KEYS1 k2 (wire ARGV1) ARGV2 ARGV3]
                (cache_lua_fn KEYS1 k2 (wire ARGV1) ARGV2 ARGV3)
  end.

(** ** [RedisCache] and [CacheDecorator] *)

Record RedisCache := {
  rc_prefix : string;
  rc_serializer : pyobj → pydata;
  rc_deserializer : string → pyobj;
  rc_key_serializer : option (args_t → kwargs_t → pydata)
}.

Record CacheDecorator := {
  prefix : string;
  serializer : pyobj → pydata;
  deserializer : string → pyobj;
  key_serializer : option (args_t → kwargs_t → pydata);
  ttl : Z;
  limit : Z;
  namespace : option string;
  keys_key : option string;
  support_batch_call : bool;
  original_fn : option pyfunction
}.

(** [RedisCache.cache], which is [CacheDecorator.__init__] on the cache's
    own settings. *)
Definition cache (self : RedisCache) (ttl limit : Z) (namespace : option string)
    (support_batch_call : bool) : CacheDecorator :=
  {| prefix := rc_prefix self;
     serializer := rc_serializer self;
     deserializer := rc_deserializer self;
     key_serializer := rc_key_serializer self;
     ttl := ttl;
     limit := limit;
     namespace := namespace;
     keys_key := None;
     support_batch_call := support_batch_call;
     original_fn := None |}.

(** How an f-string renders an optional string. *)
Definition py_format (s : option string) : string :=
  match s with Some s => s | None => "None" end.

(** [args] and [kwargs] reach the serializer as the two-element list
    [[args, kwargs]]. *)
Definition get_key (self : CacheDecorator) (args : args_t) (kwargs : kwargs_t) : string :=
  let serialized_data :=
    match key_serializer self with
    | Some key_serializer => key_serializer args kwargs
    | None => serializer self (PyList [PyList args; PyDict kwargs])
    end in
  let serialized_data :=
    match serialized_data with
    | Str s => s
    | Bytes b => b64encode b
    end in
  prefix self +:+ ":" +:+ py_format (namespace self) +:+ ":" +:+ serialized_data.

(** [CacheDecorator.__call__]: the decorator object once it has been applied
    to [fn]. A namespace that is [None] or empty gives way to the function's
    qualified name. *)
Definition __call__ (self : CacheDecorator) (fn : pyfunction) : CacheDecorator :=
  let ns :=
    match namespace self with
    | Some ns => if decide (ns = "") then fn_module fn +:+ "." +:+ fn_name fn else ns
    | None => fn_module fn +:+ "." +:+ fn_name fn
    end in
  {| prefix := prefix self;
     serializer := serializer self;
     deserializer := deserializer self;
     key_serializer := key_serializer self;
     ttl := ttl self;
     limit := limit self;
     namespace := Some ns;
     keys_key := Some (prefix self +:+ ":" +:+ ns +:+ ":keys");
     support_batch_call := support_batch_call self;
     original_fn := Some fn |}.

(** [not result] for what [client.get] returns: [None] or a byte string. *)
Definition falsy (result : option string) : bool :=
  match result with
  | None => true
  | Some v => bool_decide (v = "")
  end.

(** The closure [inner] that [__call__] returns, for the decorator [self]
    and the function [fn] it captures. *)
Definition inner (self : CacheDecorator) (fn : pyfunction)
    (args : args_t) (kwargs : kwargs_t) : eff world pyobj :=
  if support_batch_call self then
    _ ← logger_warning
          "To use caching for batch-mode decorated functions, use RedisCache.mget()";
    call fn args kwargs
  else
    let key := get_key self args kwargs in
    result ← client_get key;
    if falsy result then
      result ← call fn args kwargs;
      let result_serialized := serializer self result in
      _ ← get_cache_lua_fn key (keys_key self) result_serialized (ttl self) (limit self);
      ret result
    else
      ret (deserializer self (default "" result)).

Definition invalidate (self : CacheDecorator) (args : args_t) (kwargs : kwargs_t)
  : eff world unit :=
  let key := get_key self args kwargs in
  match keys_key self with
  | None => raise DataError
  | Some keys_key =>
      _ ← pipeline_execute [DEL [key]; ZREM keys_key [key]];
      ret tt
  end.

Fixpoint delete_each (chunks_gen : list (list string)) : eff world unit :=
  match chunks_gen with
  | [] => ret tt
  | keys :: rest => _ ← client_delete keys; delete_each rest
  end.

Definition invalidate_all (self : CacheDecorator) : eff world unit :=
  scanned ← client_scan_iter
    (prefix self +:+ ":" +:+ py_format (namespace self) +:+ ":*");
  delete_each (chunks scanned 500).

(** *** [RedisCache.mget]

    [fns_with_args] is the tuple of dictionaries, each given by its address
    in the heap: the same dictionary may be passed more than once. [fns]
    gives the decorator object ([fn.instance]) of each decorated function. *)

(** The first loop: [setdefault] on both entries, and the key. *)
Fixpoint mget_keys (fns : nat → CacheDecorator) (fns_with_args : list nat)
  : eff world (list string) :=
  match fns_with_args with
  | [] => ret []
  | l :: rest =>
      w ← get_state;
      let d := heap w l in
      let args := default [] (d_args d) in
      let kwargs := default [] (d_kwargs d) in
      _ ← put_state
            (set_heap (<[l := FnAndArgs (d_fn d) (Some args) (Some kwargs) (d_call_idx d)]>
                         (heap w)) w);
      keys ← mget_keys fns rest;
      ret (get_key (fns (d_fn d)) args kwargs :: keys)
  end.

(** [args_by_fn[fn].append(x)] on a [defaultdict(list)], which keeps its
    keys in the order of their first insertion. *)
Fixpoint group_append (fn : nat) (x : nat) (args_by_fn : list (nat * list nat))
  : list (nat * list nat) :=
  match args_by_fn with
  | [] => [(fn, [x])]
  | (f, xs) :: rest =>
      if decide (f = fn) then (f, xs ++ [x]) :: rest
      else (f, xs) :: group_append fn x rest
  end.

(** The loop over [enumerate(results)], from index [i] on. Its state is
    [deserialized_results], [cache_miss_detected] and [args_by_fn]. *)
Fixpoint mget_classify (self : RedisCache) (fns_with_args : list nat) (i : nat)
    (results : list (option string))
    (st : gmap nat pyobj * bool * list (nat * list nat))
  : eff world (gmap nat pyobj * bool * list (nat * list nat)) :=
  match results with
  | [] => ret st
  | result :: rest =>
      let '(deserialized_results, cache_miss_detected, args_by_fn) := st in
      match result with
      | None =>
          match fns_with_args !! i with
          | None => raise IndexError
          | Some l =>
              w ← get_state;
              let d := heap w l in
              _ ← put_state
                    (set_heap (<[l := FnAndArgs (d_fn d) (d_args d) (d_kwargs d) (Some i)]>
                                 (heap w)) w);
              mget_classify self fns_with_args (S i) rest
                (deserialized_results, true, group_append (d_fn d) l args_by_fn)
          end
      | Some result =>
          mget_classify self fns_with_args (S i) rest
            (<[i := rc_deserializer self result]> deserialized_results,
             cache_miss_detected, args_by_fn)
      end
  end.

(** [[original_fn( *d['args'], **d['kwargs']) for d in args_batch]] *)
Fixpoint call_each (original_fn : pyfunction) (args_batch : list nat)
  : eff world (list pyobj) :=
  match args_batch with
  | [] => ret []
  | l :: rest =>
      w ← get_state;
      match d_args (heap w l), d_kwargs (heap w l) with
      | Some args, Some kwargs =>
          r ← call original_fn args kwargs;
          rs ← call_each original_fn rest;
          ret (r :: rs)
      | _, _ => raise KeyError
      end
  end.

(** [[(d['args'] or d['kwargs']) for d in args_batch]]: ['kwargs'] is read
    only when ['args'] is empty. *)
Fixpoint call_vector (args_batch : list nat) : eff world (list pyobj) :=
  match args_batch with
  | [] => ret []
  | l :: rest =>
      w ← get_state;
      match d_args (heap w l) with
      | None => raise KeyError
      | Some [] =>
          match d_kwargs (heap w l) with
          | None => raise KeyError
          | Some kwargs => vs ← call_vector rest; ret (PyDict kwargs :: vs)
          end
      | Some args => vs ← call_vector rest; ret (PyList args :: vs)
      end
  end.

Definition _get_batch_call_result (fns : nat → CacheDecorator) (fn : nat)
    (args_batch : list nat) : eff world pyobj :=
  match original_fn (fns fn) with
  | None => raise TypeError
  | Some original_fn =>
      if support_batch_call (fns fn) then
        call_vector ← call_vector args_batch;
        call original_fn [PyList call_vector] []
      else
        batch_result ← call_each original_fn args_batch;
        ret (PyList batch_result)
  end.

(** The loop over [zip(args_batch, batch_result)]; [zip] stops with the
    shorter of the two. Its state is the pipeline and
    [deserialized_results]. *)
Fixpoint mget_store (self : RedisCache) (fns : nat → CacheDecorator) (fn : nat)
    (keys : list string) (pairs : list (nat * pyobj))
    (st : list command * gmap nat pyobj)
  : eff world (list command * gmap nat pyobj) :=
  match pairs with
  | [] => ret st
  | (l, result) :: rest =>
      let '(pipeline, deserialized_results) := st in
      w ← get_state;
      match d_call_idx (heap w l) with
      | None => raise KeyError
      | Some call_idx =>
          let result_serialized := rc_serializer self result in
          match keys !! call_idx, keys_key (fns fn) with
          | None, _ => raise IndexError
          | _, None => raise DataError
          | Some key, Some keys_key =>
              mget_store self fns fn keys rest
                (pipeline ++ [EVALSHA key keys_key (wire result_serialized)
                                      (ttl (fns fn)) (limit (fns fn))],
                 <[call_idx := result]> deserialized_results)
          end
      end
  end.

(** The loop over [args_by_fn.items()]. *)
Fixpoint mget_recompute (self : RedisCache) (fns : nat → CacheDecorator)
    (keys : list string) (args_by_fn : list (nat * list nat))
    (st : list command * gmap nat pyobj)
  : eff world (list command * gmap nat pyobj) :=
  match args_by_fn with
  | [] => ret st
  | (fn, args_batch) :: rest =>
      batch_result ← _get_batch_call_result fns fn args_batch;
      match py_iter batch_result with
      | None => raise TypeError
      | Some items =>
          st ← mget_store self fns fn keys (zip args_batch items) st;
          mget_recompute self fns keys rest st
      end
  end.

(** [[deserialized_results[key] for key in sorted(deserialized_results.keys())]] *)
Definition sorted_values (deserialized_results : gmap nat pyobj) : list pyobj :=
  omap (λ key, deserialized_results !! key)
       (merge_sort Nat.le (map_to_list deserialized_results).*1).

Definition mget (self : RedisCache) (fns : nat → CacheDecorator)
    (fns_with_args : list nat) : eff world (list pyobj) :=
  keys ← mget_keys fns fns_with_args;
  results ← client_mget keys;
  '(deserialized_results, cache_miss_detected, args_by_fn) ←
    mget_classify self fns_with_args 0 results (∅, false, []);
  if (cache_miss_detected : bool) then
    '(pipeline, deserialized_results) ←
      mget_recompute self fns keys args_by_fn ([], deserialized_results);
    _ ← pipeline_execute pipeline;
    ret (sorted_values deserialized_results)
  else
    ret (sorted_values deserialized_results).

(** ** Observations on the store, and sequences of operations *)

(** The members of a namespace index with their scores: empty when the key
    is missing or does not hold a sorted set. *)
Definition index (keys_key : string) (s : server) : gmap string Z :=
  match lookup_key keys_key s with
  | Some (RZset z) => z
  | _ => ∅
  end.

(** The cached value a key holds, if any: what [GET] finds. *)
Definition cached (k : string) (s : server) : option string :=
  match lookup_key k s with
  | Some (RString v _) => Some v
  | _ => None
  end.

(** One atomic set-and-trim insertion into a namespace, issued when the
    server clock shows [t]; the new state, whatever the script answered. *)
Definition insert_at (keys_key : string) (ttl limit : Z) (s : server)
    (op : Z * string * string) : server :=
  let '(t, k, v) := op in
  (cache_lua_fn k keys_key v ttl limit (set_clock t s)).2.

Definition insertions (keys_key : string) (ttl limit : Z) (s : server)
    (ops : list (Z * string * string)) : server :=
  foldl (insert_at keys_key ttl limit) s ops.

(** Every member of the index has a value that does not expire. *)
Definition index_backed (keys_key : string) (s : server) : Prop :=
  ∀ m, m ∈ dom (index keys_key s) → ∃ v, db s !! m = Some (RString v None).

(** The world as the environment leaves it when the server clock shows [t]. *)
Definition at_time (t : Z) (w : world) : world :=
  set_redis (set_clock t (redis w)) w.

(** The next exchange with the server gets through. *)
Definition reachable (w : world) : Prop := head (link w) ≠ Some false.

Definition empty_server : server := Server ∅ 0.

Definition empty_world : world :=
  World empty_server [] [] [] [] (λ _, FnAndArgs 0 None None None).

(** The state in which the script leaves the value key: [SETEX] or [SET]. *)
Definition written (k v : string) (ttl : Z) (s : server) : server :=
  set_db (<[k := RString v (if bool_decide (ttl > 0)
                            then Some (clock s `div` 1000 + ttl * 1000) else None)]> (db s)) s.

(** The score the script computes from [TIME]. *)
Definition now_score (s : server) : Z :=
  lua_time_number (clock s `div` 1000000) (clock s `mod` 1000000).

(** The world after an exchange carrying [cs] got through, and after the
    computation [fn] was invoked. *)
Definition exchanged (cs : list command) (w : world) : world :=
  set_served (served w ++ [cs]) (set_link (tail (link w)) w).

Definition invoked (fn : pyfunction) (args : args_t) (kwargs : kwargs_t) (w : world) : world :=
  set_calls (calls w ++ [Invocation (fn_module fn) (fn_name fn) args kwargs]) w.

(** Every coming exchange gets through. *)
Definition online (w : world) : Prop := Forall (λ b, b = true) (link w).

(** A text without the characters that are special in a glob pattern. *)
Definition glob_free (s : string) : Prop :=
  Forall (λ c, c ∉ ["*"; "?"; "["; "\"]%char) (String.list_ascii_of_string s).

(** ** Sample configurations *)

Definition dquote : string := String "034"%char EmptyString.

(** [json.dumps] on the values above, with Python's default separators. *)
Fixpoint dumps (o : pyobj) : string :=
  match o with
  | PyNone => "null"
  | PyInt n => pretty n
  | PyStr s => dquote +:+ s +:+ dquote
  | PyList xs =>
      "[" +:+
      (fix items (l : list pyobj) : string :=
         match l with
         | [] => ""
         | [x] => dumps x
         | x :: l' => dumps x +:+ ", " +:+ items l'
         end) xs +:+ "]"
  | PyDict kv =>
      "{" +:+
      (fix items (l : list (string * pyobj)) : string :=
         match l with
         | [] => ""
         | [(k, x)] => dquote +:+ k +:+ dquote +:+ ": " +:+ dumps x
         | (k, x) :: l' => dquote +:+ k +:+ dquote +:+ ": " +:+ dumps x +:+ ", " +:+ items l'
         end) kv +:+ "}"
  end.

(** A cache whose values are text kept as it is, and whose keys are the
    JSON text of the arguments. *)
Definition text_cache : RedisCache :=
  {| rc_prefix := "rc";
     rc_serializer := λ o, match o with PyStr s => Str s | _ => Str (dumps o) end;
     rc_deserializer := PyStr;
     rc_key_serializer := None |}.

(** [app.shout(s)] returns [s + '!']. *)
Definition shout : pyfunction :=
  {| fn_module := "app";
     fn_name := "shout";
     fn_body := λ args _, match args with
                          | [PyStr s] => PyStr (s +:+ "!")
                          | _ => PyNone
                          end |}.

(** [app.middle_name(user)] returns the empty string for everyone. *)
Definition middle_name : pyfunction :=
  {| fn_module := "app";
     fn_name := "middle_name";
     fn_body := λ _ _, PyStr "" |}.

Definition cached_shout : CacheDecorator :=
  __call__ (cache text_cache 0 0 None false) shout.

Definition cached_middle_name : CacheDecorator :=
  __call__ (cache text_cache 0 0 None false) middle_name.

(** A store that is reached once and then not again. *)
Definition one_exchange_world : world := set_link [true; false] empty_world.

(** ** What [mget] is expected to return *)

(** The arguments of the call a dictionary describes, with the defaults
    [setdefault] fills in, and the key derived for it. *)
Definition call_args (h : nat → fn_and_args) (l : nat) : args_t :=
  default [] (d_args (h l)).
Definition call_kwargs (h : nat → fn_and_args) (l : nat) : kwargs_t :=
  default [] (d_kwargs (h l)).
Definition call_key (fns : nat → CacheDecorator) (h : nat → fn_and_args) (l : nat) : string :=
  get_key (fns (d_fn (h l))) (call_args h l) (call_kwargs h l).

(** The pending calls of function [f] that the store does not answer, in
    the order of the request. *)
Definition miss_group (fns : nat → CacheDecorator) (w : world)
    (fns_with_args : list nat) (f : nat) : list nat :=
  filter (λ l, cached (call_key fns (heap w) l) (redis w) = None ∧ d_fn (heap w l) = f)
         fns_with_args.

(** The results of recomputing the calls [ls] of function [f]: one call of
    the batch function on the vector of arguments, or one call per item. *)
Definition recomputed (fns : nat → CacheDecorator) (h : nat → fn_and_args)
    (f : nat) (ls : list nat) : option (list pyobj) :=
  match original_fn (fns f) with
  | None => None
  | Some fn =>
      if support_batch_call (fns f) then
        py_iter (fn_body fn
                   [PyList ((λ l, match call_args h l with
                                  | [] => PyDict (call_kwargs h l)
                                  | args => PyList args
                                  end) <$> ls)] [])
      else Some ((λ l, fn_body fn (call_args h l) (call_kwargs h l)) <$> ls)
  end.

(** The result for the pending call at address [l]: the deserialized cached
    value on a hit; on a miss, the result that the recomputation of its miss
    group pairs with it, if it returns that many. *)
Definition expected (self : RedisCache) (fns : nat → CacheDecorator) (w : world)
    (fns_with_args : list nat) (l : nat) : option pyobj :=
  match cached (call_key fns (heap w) l) (redis w) with
  | Some v => Some (rc_deserializer self v)
  | None =>
      let f := d_fn (heap w l) in
      let group := miss_group fns w fns_with_args f in
      match recomputed fns (heap w) f group with
      | Some items => (list_to_map (zip group items) : gmap nat pyobj) !! l
      | None => None
      end
  end.

(** The errors that come from the store. *)
Definition store_error (e : error) : Prop :=
  e = ConnectionError ∨ e = WRONGTYPE ∨ e = WrongArity.

(** A batch function that answers for the first of its argument sets only:
    [app.first_only(vector)] returns [vector[:1]]. *)
Definition first_only : pyfunction :=
  {| fn_module := "app";
     fn_name := "first_only";
     fn_body := λ args _, match args with
                          | [PyList (x :: _)] => PyList [x]
                          | _ => PyList []
                          end |}.

Definition cached_first_only : CacheDecorator :=
  __call__ (cache text_cache 0 0 None true) first_only.

(** The dictionary [{'fn': fn, 'args': [arg]}]. *)
Definition pending (fn : nat) (arg : string) : fn_and_args :=
  FnAndArgs fn (Some [PyStr arg]) None None.

(** Two dictionaries, at the addresses 0 and 1, for the arguments ['a'] and
    ['b'] of the one decorated function, and an empty store. *)
Definition two_calls_world : world :=
  set_heap (λ l, match l with O => pending 0 "a" | _ => pending 0 "b" end) empty_world.

(** A cache whose keys are the positional arguments joined by colons. *)
Fixpoint path_of (args : args_t) : string :=
  match args with
  | [] => ""
  | [PyStr s] => s
  | PyStr s :: rest => s +:+ ":" +:+ path_of rest
  | _ :: rest => path_of rest
  end.

Definition path_cache : RedisCache :=
  {| rc_prefix := "rc";
     rc_serializer := rc_serializer text_cache;
     rc_deserializer := PyStr;
     rc_key_serializer := Some (λ args _, Str (path_of args)) |}.

(** [app.population( *path)] is 2100000 everywhere. *)
Definition population : pyfunction :=
  {| fn_module := "app";
     fn_name := "population";
     fn_body := λ _ _, PyInt 2100000 |}.

(** Two functions cached under the namespaces [geo] and [geo:fr]. *)
Definition cached_geo : CacheDecorator :=
  __call__ (cache path_cache 0 0 (Some "geo") false) population.

Definition cached_geo_fr : CacheDecorator :=
  __call__ (cache path_cache 0 0 (Some "geo:fr") false) population.

(** [population] cached under [geo:fr] with at most two entries. *)
Definition cached_geo_fr_2 : CacheDecorator :=
  __call__ (cache path_cache 0 2 (Some "geo:fr") false) population.

(** [shout] cached with at most two entries. *)
Definition cached_shout_2 : CacheDecorator :=
  __call__ (cache text_cache 0 2 None false) shout.

(** ** Notions for stating the properties *)

Abbreviation chars := String.list_ascii_of_string.

(** The part of a key that names the namespace: [prefix:namespace:]. *)
Definition namespace_tag (self : CacheDecorator) : string :=
  prefix self +:+ ":" +:+ py_format (namespace self) +:+ ":".

(** A character of a base64 text. *)
Definition b64_char (c : ascii) : Prop := c ∈ b64_alphabet ∨ c = "="%char.

(** [m] raises no error but those that satisfy [P]. *)
Definition raises_only {S A} (P : error → Prop) (m : eff S A) : Prop :=
  ∀ s e, (m s).1 = Raise e → P e.

(** [g] holds the calls [M] grouped by function, each group in the order of
    [M], the functions in the order of their first call. *)
Definition grouped (fn : nat → nat) (M : list nat) (g : list (nat * list nat)) : Prop :=
  NoDup g.*1 ∧
  (∀ f ls, (f, ls) ∈ g → ls = filter (λ l, fn l = f) M ∧ ls ≠ []) ∧
  (∀ l, l ∈ M → fn l ∈ g.*1).

(** [h'] describes the same calls as [h], with at least the entries [h] has. *)
Definition settled (h h' : nat → fn_and_args) : Prop :=
  ∀ l, d_fn (h' l) = d_fn (h l) ∧
       call_args h' l = call_args h l ∧
       call_kwargs h' l = call_kwargs h l ∧
       (is_Some (d_args (h l)) → is_Some (d_args (h' l))) ∧
       (is_Some (d_kwargs (h l)) → is_Some (d_kwargs (h' l))).

(** The entries ['args'] and ['kwargs'] of the dictionaries [ls] are set. *)
Definition ready (h : nat → fn_and_args) (ls : list nat) : Prop :=
  ∀ l, l ∈ ls → is_Some (d_args (h l)) ∧ is_Some (d_kwargs (h l)).

(** The state of the loop over [enumerate(results)], as functions of the
    results. *)
Fixpoint hits (self : RedisCache) (i : nat) (rs : list (option string))
    (m : gmap nat pyobj) : gmap nat pyobj :=
  match rs with
  | [] => m
  | None :: rs => hits self (S i) rs m
  | Some v :: rs => hits self (S i) rs (<[i := rc_deserializer self v]> m)
  end.

(** The dictionaries at the positions of the misses. *)
Fixpoint misses (post : list nat) (rs : list (option string)) : list nat :=
  match post, rs with
  | l :: post, None :: rs => l :: misses post rs
  | _ :: post, Some _ :: rs => misses post rs
  | _, _ => []
  end.

(** [deserialized_results[call_idx] = result], with [ix] for the entry
    ['call_idx'] of each dictionary. *)
Definition store_result (ix : nat → nat) (m : gmap nat pyobj) (p : nat * pyobj)
  : gmap nat pyobj := <[ix p.1 := p.2]> m.

(** The results each miss group receives, paired with the calls. *)
Definition writes (fns : nat → CacheDecorator) (h : nat → fn_and_args)
    (gs : list (nat * list nat)) : list (nat * pyobj) :=
  gs ≫= λ g, zip g.2 (default [] (recomputed fns h g.1 g.2)).

(** The batch is answered: every decorated function that has a miss was
    applied to a function, and what recomputing a miss group returns can
    be iterated over. *)
Definition answerable (fns : nat → CacheDecorator) (locs : list nat) (w : world)
  : Prop :=
  ∀ l, l ∈ locs → cached (call_key fns (heap w) l) (redis w) = None →
    is_Some (original_fn (fns (d_fn (heap w l)))) ∧
    is_Some (keys_key (fns (d_fn (heap w l)))) ∧
    is_Some (recomputed fns (heap w) (d_fn (heap w l))
               (miss_group fns w locs (d_fn (heap w l)))).

(** ** Further notions *)

(** The score the script gives an insertion made when the clock shows [t]. *)
Definition score_at (t : Z) : Z :=
  lua_time_number (t `div` 1000000) (t `mod` 1000000).

(** The members that a sequence of insertions adds to the index, with their
    scores. *)
Definition scored (ops : list (Z * string * string)) : list (string * Z) :=
  (λ op, (op.1.2, score_at op.1.1)) <$> ops.

(** The last [n] elements of a list. *)
Definition last_n {A} (n : nat) (l : list A) : list A := drop (length l - n) l.

(** The millisecond at which a value written at [t] expires. *)
Definition expiry (ttl t : Z) : option Z :=
  if bool_decide (ttl > 0) then Some (t `div` 1000 + ttl * 1000) else None.

(** What the key is derived from: the output of the key serializer, or of
    the serializer on [[args, kwargs]]; and its text in the key. *)
Definition key_data (self : CacheDecorator) (args : args_t) (kwargs : kwargs_t) : pydata :=
  match key_serializer self with
  | Some key_serializer => key_serializer args kwargs
  | None => serializer self (PyList [PyList args; PyDict kwargs])
  end.

Definition encoded (d : pydata) : string :=
  match d with
  | Str s => s
  | Bytes b => b64encode b
  end.

(** The numbers of the bytes. *)
Definition byte_values : list N := N.of_nat <$> seq 0 256.

(** The list that a batch-capable function receives for the dictionaries
    [ls]: for each one its ['args'], or its ['kwargs'] when the former are
    empty. *)
Definition argument_vector (h : nat → fn_and_args) (ls : list nat) : list pyobj :=
  (λ l, match call_args h l with
        | [] => PyDict (call_kwargs h l)
        | args => PyList args
        end) <$> ls.

(** The invocations that recomputing the miss group [g] makes. *)
Definition group_invocations (fns : nat → CacheDecorator) (h : nat → fn_and_args)
    (g : nat * list nat) : list invocation :=
  match original_fn (fns g.1) with
  | None => []
  | Some fn =>
      if support_batch_call (fns g.1)
      then [Invocation (fn_module fn) (fn_name fn) [PyList (argument_vector h g.2)] []]
      else (λ l, Invocation (fn_module fn) (fn_name fn) (call_args h l) (call_kwargs h l))
             <$> g.2
  end.

(** The script calls that [mget] queues for the miss group [g]: one for
    each call that [zip] pairs with a result, for the key of the call, with
    the serialized result and the settings of the function. *)
Definition group_script_calls (self : RedisCache) (fns : nat → CacheDecorator)
    (h : nat → fn_and_args) (g : nat * list nat) : list command :=
  (λ p, EVALSHA (call_key fns h p.1) (default "" (keys_key (fns g.1)))
                (wire (rc_serializer self p.2)) (ttl (fns g.1)) (limit (fns g.1)))
    <$> zip g.2 (default [] (recomputed fns h g.1 g.2)).

(** The misses of a batch grouped by function, as [args_by_fn] holds them:
    the functions in the order of their first miss, each with its misses in
    the order of the request. *)
Definition miss_groups (fns : nat → CacheDecorator) (w : world) (locs : list nat)
  : list (nat * list nat) :=
  foldl (λ g l, group_append (d_fn (heap w l)) l g) []
        (filter (λ l, cached (call_key fns (heap w) l) (redis w) = None) locs).

(** The time to live is one that the server accepts when the script runs:
    when positive (the script calls [SETEX] only then), it is below 2^53 and
    the expiry it gives, in milliseconds, is below 2^63. *)
Definition accepted_ttl (ttl : Z) (s : server) : Prop :=
  ttl > 0 → ttl < 2 ^ 53 ∧ clock s `div` 1000 + ttl * 1000 < 2 ^ 63.

(** The value of a base64 digit: its position in the alphabet. *)
Fixpoint position (c : ascii) (l : list ascii) : option N :=
  match l with
  | [] => None
  | x :: l' => if decide (x = c) then Some 0%N else N.succ <$> position c l'
  end.

Definition b64_value (c : ascii) : option N := position c b64_alphabet.

(** Base64 decoding (RFC 4648) of a padded text: every four digits give
    three bytes, and a last group that ends in one or two [=] gives two
    bytes or one. Any other text has no decoding. *)
Fixpoint b64_bytes (cs : list ascii) : option (list ascii) :=
  match cs with
  | [] => Some []
  | c1 :: c2 :: c3 :: c4 :: rest =>
      match b64_value c1, b64_value c2 with
      | Some p, Some q =>
          let a := ascii_of_N (N.lor (N.shiftl p 2) (N.shiftr q 4)) in
          if decide (c4 = "="%char) then
            match rest with
            | [] =>
                if decide (c3 = "="%char) then Some [a]
                else
                  match b64_value c3 with
                  | Some r =>
                      Some [a; ascii_of_N (N.lor (N.shiftl (N.land q 15) 4) (N.shiftr r 2))]
                  | None => None
                  end
            | _ => None
            end
          else
            match b64_value c3, b64_value c4, b64_bytes rest with
            | Some r, Some s, Some bs =>
                Some (a :: ascii_of_N (N.lor (N.shiftl (N.land q 15) 4) (N.shiftr r 2))
                        :: ascii_of_N (N.lor (N.shiftl (N.land r 3) 6) s) :: bs)
            | _, _, _ => None
            end
      | _, _ => None
      end
  | _ => None
  end.

Definition b64decode (text : string) : option string :=
  String.string_of_list_ascii <$> b64_bytes (chars text).

(** A script call for a namespace without a limit. *)
Definition unlimited_write (c : command) : Prop :=
  match c with
  | EVALSHA _ _ _ _ L => ¬ L > 0
  | _ => False
  end.

(** The key and the value of a script call. *)
Definition written_entry (c : command) : option (string * string) :=
  match c with
  | EVALSHA k _ v _ _ => Some (k, v)
  | _ => None
  end.

(** * Properties *)

Lemma index_store_zset idx z s :
  index idx (set_db (store_zset idx z (db s)) s) = z.
Proof.
  unfold index, lookup_key, store_zset, set_db; simpl.
  destruct (decide (z = ∅)) as [->|Hz].
  - by rewrite lookup_delete_eq.
  - by rewrite lookup_insert_eq.
Qed.

Lemma zset_at_index idx s z : zset_at idx s = Some z → index idx s = z.
Proof.
  unfold zset_at, index. destruct (lookup_key idx s) as [[]|]; naive_solver.
Qed.

Lemma zset_at_None_index idx s : zset_at idx s = None → index idx s = ∅.
Proof.
  unfold zset_at, index. destruct (lookup_key idx s) as [[]|]; naive_solver.
Qed.

Lemma zset_at_store_zset idx z s :
  zset_at idx (set_db (store_zset idx z (db s)) s) = Some z.
Proof.
  unfold zset_at, lookup_key, store_zset, set_db; simpl.
  destruct (decide (z = ∅)) as [->|Hz].
  - by rewrite lookup_delete_eq.
  - by rewrite lookup_insert_eq.
Qed.

Lemma lookup_foldr_delete {A} (m : gmap string A) (ks : list string) k :
  foldr delete m ks !! k = if decide (k ∈ ks) then None else m !! k.
Proof.
  induction ks as [|k' ks IH]; cbn [foldr].
  - case_decide; [set_solver|done].
  - destruct (decide (k' = k)) as [->|Hne].
    + rewrite lookup_delete_eq. clear IH. case_decide; [done|set_solver].
    + rewrite lookup_delete_ne by done. rewrite IH.
      clear IH. repeat case_decide; try done; set_solver.
Qed.

Lemma foldr_delete_entries {A} (m : gmap string A) (l : list (string * Z)) :
  foldr (λ e, delete e.1) m l = foldr delete m l.*1.
Proof. induction l as [|e l IH]; simpl; by rewrite ?IH. Qed.

Lemma size_foldr_delete_le {A} (m : gmap string A) (ks : list string) :
  (size (foldr delete m ks) ≤ size m)%nat.
Proof.
  apply map_subseteq_size. apply map_subseteq_spec. intros k x.
  rewrite lookup_foldr_delete. by case_decide.
Qed.

Lemma size_foldr_delete {A} (m : gmap string A) (ks : list string) :
  NoDup ks → (∀ k, k ∈ ks → is_Some (m !! k)) →
  size (foldr delete m ks) = (size m - length ks)%nat.
Proof.
  induction ks as [|k ks IH]; simpl; intros Hnd Hin.
  - lia.
  - apply list.NoDup_cons in Hnd as [Hk Hnd].
    rewrite map_size_delete, lookup_foldr_delete.
    rewrite decide_False by done.
    destruct (Hin k) as [x ->]; [set_solver|].
    rewrite IH; [lia|done|]. intros; apply Hin; set_solver.
Qed.

Lemma zset_entries_perm z : zset_entries z ≡ₚ map_to_list z.
Proof. apply merge_sort_Permutation. Qed.

Lemma zset_entries_length z : length (zset_entries z) = size z.
Proof. by rewrite zset_entries_perm, length_map_to_list. Qed.

Lemma zset_entries_NoDup z : NoDup (zset_entries z).*1.
Proof. rewrite zset_entries_perm. apply NoDup_fst_map_to_list. Qed.

Lemma elem_of_zset_entries z m sc : (m, sc) ∈ zset_entries z ↔ z !! m = Some sc.
Proof. rewrite zset_entries_perm. apply elem_of_map_to_list. Qed.

Lemma size_zpop z n :
  (n ≤ size z)%nat →
  size (foldr (λ e, delete e.1) z (take n (zset_entries z))) = (size z - n)%nat.
Proof.
  intros Hn. rewrite foldr_delete_entries, size_foldr_delete.
  - rewrite length_fmap, length_take, zset_entries_length. lia.
  - rewrite fmap_take. eapply sublist_NoDup; [apply zset_entries_NoDup|apply sublist_take].
  - intros k [[m sc] [-> Hin]]%list_elem_of_fmap. simpl.
    apply (subseteq_take n) in Hin. apply elem_of_zset_entries in Hin. eauto.
Qed.

Lemma odd_items_flat (l : list (string * Z)) :
  odd_items (l ≫= λ e, [e.1; pretty e.2]) = l.*1.
Proof. induction l as [|e l IH]; csimpl; [done|]. by rewrite IH. Qed.

Lemma index_DEL_size idx ks s :
  (size (index idx (redis_DEL ks s).2) ≤ size (index idx s))%nat.
Proof.
  unfold redis_DEL. destruct ks as [|k ks]; [done|]. cbn [snd].
  unfold index, lookup_key, set_db; cbn [db clock].
  rewrite lookup_foldr_delete. case_decide; [by rewrite map_size_empty; lia|done].
Qed.

Lemma cache_lua_fn_bounded k idx v ttl L s :
  L > 0 → Z.of_nat (size (index idx (cache_lua_fn k idx v ttl L s).2)) ≤ L.
Proof.
  intros HL. unfold cache_lua_fn.
  set (s1 := set_db (<[k := RString v (if bool_decide (ttl > 0)
                                       then Some (clock s `div` 1000 + ttl * 1000) else None)]> (db s)) s).
  assert ((if bool_decide (ttl > 0) then redis_SETEX k ttl v else redis_SET k v) s
          = (Ok "OK", s1)) as Hset.
  { unfold s1. by case_bool_decide. }
  unfold eff_bind at 1. rewrite Hset. clearbody s1. clear Hset.
  rewrite bool_decide_true by done.
  unfold eff_bind at 1. unfold redis_TIME at 1.
  unfold eff_bind at 1. unfold redis_ZADD at 1.
  destruct (zset_at idx s1) as [z|] eqn:Hz; cbn [snd].
  2:{ rewrite (zset_at_None_index _ _ Hz), map_size_empty. lia. }
  set (z1 := <[k:=_]> z).
  set (s2 := set_db (store_zset idx z1 (db s1)) s1).
  unfold eff_bind at 1. unfold redis_ZCOUNT at 1.
  unfold s2 at 1. rewrite zset_at_store_zset. fold s2.
  case_bool_decide as Hover.
  2:{ unfold eff_ret; cbn [snd]. unfold s2. rewrite index_store_zset. lia. }
  unfold eff_bind at 1. unfold redis_ZPOPMIN at 1.
  unfold s2 at 1. rewrite zset_at_store_zset. fold s2.
  set (popped := take _ (zset_entries z1)).
  set (z2 := foldr _ z1 popped).
  set (s3 := set_db (store_zset idx z2 (db s2)) s2).
  assert (Z.of_nat (size z2) = L) as Hz2.
  { unfold z2, popped. rewrite size_zpop by lia. lia. }
  rewrite odd_items_flat.
  unfold eff_bind at 1. unfold redis_ZREM at 1.
  destruct (popped.*1) as [|p ps] eqn:Hp; [cbn [snd]; unfold s3; rewrite index_store_zset; lia|].
  unfold s3 at 1. rewrite zset_at_store_zset. fold s3.
  set (z3 := foldr delete z2 _).
  set (s4 := set_db (store_zset idx z3 (db s3)) s3).
  unfold eff_bind at 1.
  destruct (redis_DEL (p :: ps) s4) as [[]] eqn:HDEL; unfold eff_ret; cbn [snd].
  all: pose proof (index_DEL_size idx (p :: ps) s4) as Hd; rewrite HDEL in Hd; cbn [snd] in Hd.
  all: unfold s4 in Hd; rewrite index_store_zset in Hd.
  all: pose proof (size_foldr_delete_le z2 (p :: ps)); fold z3 in H; lia.
Qed.

Lemma cache_lua_fn_unbounded k idx v ttl L s :
  ¬ L > 0 → cache_lua_fn k idx v ttl L s = (Ok "OK", written k v ttl s).
Proof.
  intros HL. unfold cache_lua_fn, eff_bind, written.
  rewrite (bool_decide_false (L > 0)) by done. by case_bool_decide.
Qed.

Lemma cache_lua_fn_wrongtype k idx v ttl L s :
  L > 0 → zset_at idx (written k v ttl s) = None →
  cache_lua_fn k idx v ttl L s = (Raise WRONGTYPE, written k v ttl s).
Proof.
  intros HL Hz. unfold cache_lua_fn.
  assert ((if bool_decide (ttl > 0) then redis_SETEX k ttl v else redis_SET k v) s
          = (Ok "OK", written k v ttl s)) as Hset.
  { unfold written. by case_bool_decide. }
  unfold eff_bind at 1. rewrite Hset.
  rewrite bool_decide_true by done.
  unfold eff_bind at 1. unfold redis_TIME at 1.
  unfold eff_bind at 1. unfold redis_ZADD at 1. by rewrite Hz.
Qed.

Lemma foldr_delete_notin {A} (m : gmap string A) ks :
  (∀ k, k ∈ ks → m !! k = None) → foldr delete m ks = m.
Proof.
  intros H. apply map_eq. intros k. rewrite lookup_foldr_delete.
  case_decide; [by rewrite H|done].
Qed.

Lemma redis_ZREM_cons k ms s :
  ms ≠ [] →
  redis_ZREM k ms s =
    match zset_at k s with
    | None => (Raise WRONGTYPE, s)
    | Some z =>
        (Ok (Z.of_nat (size z) - Z.of_nat (size (foldr delete z ms))),
         set_db (store_zset k (foldr delete z ms) (db s)) s)
    end.
Proof. by destruct ms. Qed.

Lemma redis_DEL_cons ks s :
  ks ≠ [] →
  redis_DEL ks s =
    (Ok (Z.of_nat (length (filter (λ k, is_Some (lookup_key k s)) ks))),
     set_db (foldr delete (db s) ks) s).
Proof. by destruct ks. Qed.

Lemma cache_lua_fn_trim k idx v ttl L s z :
  L > 0 → zset_at idx (written k v ttl s) = Some z →
  let s1 := written k v ttl s in
  let z1 := <[k := now_score s]> z in
  let stale := (take (Z.to_nat (Z.of_nat (size z1) - L)) (zset_entries z1)).*1 in
  cache_lua_fn k idx v ttl L s =
    (Ok "OK", set_db (foldr delete (<[idx := RZset (foldr delete z1 stale)]> (db s1)) stale) s1).
Proof.
  intros HL Hz s1 z1 stale. unfold cache_lua_fn.
  assert ((if bool_decide (ttl > 0) then redis_SETEX k ttl v else redis_SET k v) s
          = (Ok "OK", s1)) as Hset.
  { unfold s1, written. by case_bool_decide. }
  unfold eff_bind at 1. rewrite Hset. clear Hset.
  rewrite bool_decide_true by done.
  unfold eff_bind at 1. unfold redis_TIME at 1.
  unfold eff_bind at 1. unfold redis_ZADD at 1. fold s1 in Hz. rewrite Hz.
  assert (clock s1 = clock s) as Hclock by done.
  cbn [fst snd]. rewrite Hclock. fold (now_score s). fold z1.
  assert (z1 ≠ ∅) as Hz1 by (unfold z1; apply insert_non_empty).
  set (s2 := set_db (store_zset idx z1 (db s1)) s1).
  unfold eff_bind at 1. unfold redis_ZCOUNT at 1.
  unfold s2 at 1. rewrite zset_at_store_zset. fold s2.
  assert (db s2 = <[idx := RZset z1]> (db s1)) as Hdb2.
  { unfold s2, store_zset; cbn [db set_db]. by rewrite decide_False. }
  case_bool_decide as Hover.
  2:{ unfold eff_ret. f_equal.
      assert (stale = []) as ->.
      { unfold stale. replace (Z.to_nat _) with 0%nat by lia. done. }
      cbn [foldr]. unfold s2, set_db; cbn [db clock]. f_equal.
      unfold store_zset. by rewrite decide_False. }
  unfold eff_bind at 1. unfold redis_ZPOPMIN at 1.
  unfold s2 at 1. rewrite zset_at_store_zset. fold s2.
  rewrite odd_items_flat. fold stale.
  rewrite foldr_delete_entries. fold stale.
  set (z2 := foldr delete z1 stale).
  assert (size z2 = Z.to_nat L) as Hz2.
  { unfold z2, stale. rewrite <-foldr_delete_entries, size_zpop by lia. lia. }
  assert (z2 ≠ ∅) as Hz2'.
  { intros E. rewrite E, map_size_empty in Hz2. lia. }
  set (s3 := set_db (store_zset idx z2 (db s2)) s2).
  assert (stale ≠ []) as Hstale.
  { unfold stale. intros E%fmap_nil_inv. apply (f_equal length) in E.
    rewrite length_take, zset_entries_length in E. simpl in E. lia. }
  unfold eff_bind at 1. rewrite redis_ZREM_cons by done.
  unfold s3 at 1. rewrite zset_at_store_zset. fold s3.
  assert (foldr delete z2 stale = z2) as ->.
  { apply foldr_delete_notin. intros m Hm. unfold z2.
    rewrite lookup_foldr_delete. by rewrite decide_True. }
  assert (set_db (store_zset idx z2 (db s3)) s3 = s3) as ->.
  { unfold s3, set_db, store_zset; cbn [db clock].
    destruct (decide (z2 = ∅)); [done|]. by rewrite insert_insert_eq. }
  unfold eff_bind at 1. rewrite redis_DEL_cons by done.
  unfold eff_ret. f_equal.
  unfold s3, set_db; cbn [db clock]. f_equal. unfold store_zset.
  destruct (decide (z2 = ∅)); [done|]. rewrite Hdb2. by rewrite insert_insert_eq.
Qed.

Lemma index_set_clock idx t s : index idx (set_clock t s) = index idx s.
Proof.
  unfold index, lookup_key, set_clock; cbn [db clock].
  destruct (db s !! idx) as [[v [e|]|z]|]; simpl; try done.
  by repeat case_bool_decide.
Qed.

Lemma index_Some idx s z : z ≠ ∅ → index idx s = z → db s !! idx = Some (RZset z).
Proof.
  unfold index, lookup_key. intros Hz.
  destruct (db s !! idx) as [x|]; [|done].
  destruct (live (clock s) x); [|done]. destruct x; [done|]. by intros ->.
Qed.

Lemma index_backed_set_clock idx t s :
  index_backed idx s → index_backed idx (set_clock t s).
Proof. unfold index_backed. by rewrite index_set_clock. Qed.

Lemma cache_lua_fn_backed k idx v ttl L s :
  L > 0 → ¬ ttl > 0 →
  index_backed idx s → index_backed idx (cache_lua_fn k idx v ttl L s).2.
Proof.
  intros HL Httl Hb.
  destruct (zset_at idx (written k v ttl s)) as [z|] eqn:Hz.
  2:{ rewrite cache_lua_fn_wrongtype by done. cbn [snd].
      intros m. rewrite (zset_at_None_index _ _ Hz). set_solver. }
  rewrite (cache_lua_fn_trim _ _ _ _ _ _ z) by done. cbn [snd].
  set (z1 := <[k:=now_score s]> z).
  set (stale := (take _ (zset_entries z1)).*1).
  assert (db (written k v ttl s) = <[k:=RString v None]> (db s)) as Hdb1.
  { unfold written; cbn [db set_db]. by rewrite bool_decide_false. }
  assert (k ≠ idx) as Hk.
  { intros ->. unfold zset_at, lookup_key in Hz. rewrite Hdb1, lookup_insert_eq in Hz.
    simpl in Hz. done. }
  assert (index idx s = z) as Hidx.
  { apply zset_at_index in Hz. rewrite <-Hz.
    unfold index, lookup_key. rewrite Hdb1, lookup_insert_ne by done. done. }
  intros m Hm.
  unfold index, lookup_key in Hm; cbn [db clock set_db] in Hm.
  rewrite lookup_foldr_delete in Hm.
  destruct (decide (idx ∈ stale)); [set_solver|].
  rewrite lookup_insert_eq in Hm. simpl in Hm.
  apply elem_of_dom in Hm as [sc Hm]. rewrite lookup_foldr_delete in Hm.
  destruct (decide (m ∈ stale)) as [|Hms]; [done|].
  cbn [db set_db]. rewrite lookup_foldr_delete, decide_False by done.
  assert (∃ v', <[k:=RString v None]> (db s) !! m = Some (RString v' None)) as [v' Hv'].
  { unfold z1 in Hm. destruct (decide (k = m)) as [->|Hkm].
    - rewrite lookup_insert_eq. eauto.
    - rewrite lookup_insert_ne in Hm by done. rewrite lookup_insert_ne by done.
      apply Hb. rewrite Hidx. apply elem_of_dom. eauto. }
  exists v'. rewrite Hdb1. rewrite lookup_insert_ne; [done|].
  intros <-. destruct (decide (z = ∅)) as [->|Hne].
  - unfold z1 in Hm. rewrite lookup_insert_ne in Hm.
    + by rewrite lookup_empty in Hm.
    + done.
  - apply (index_Some idx s z Hne) in Hidx.
    rewrite lookup_insert_ne in Hv' by done. congruence.
Qed.

Lemma index_backed_cached idx s m :
  index_backed idx s → m ∈ dom (index idx s) → is_Some (cached m s).
Proof.
  intros Hb Hm. destruct (Hb m Hm) as [v Hv].
  unfold cached, lookup_key. rewrite Hv. simpl. eauto.
Qed.

(** C1, as the code has it: in a namespace with limit [L > 0] whose index
    has at most [L] members, the index has at most [L] members after any
    sequence of insertions by the script, whatever the keys, the values and
    the instants of the insertions. That every member of the index has a
    value in the store is kept as well when the values do not expire: the
    time to live is not positive, and the members of the index had values
    without expiry to begin with. *)
Theorem bounded_size_invariant keys_key ttl L s ops :
  L > 0 →
  Z.of_nat (size (index keys_key s)) ≤ L →
  let s' := insertions keys_key ttl L s ops in
  Z.of_nat (size (index keys_key s')) ≤ L ∧
  (¬ ttl > 0 → index_backed keys_key s →
   index_backed keys_key s' ∧
   ∀ m, m ∈ dom (index keys_key s') → is_Some (cached m s')).
Proof.
  intros HL. revert s. unfold insertions.
  induction ops as [|[[t k] v] ops IH]; intros s Hs; cbn [foldl].
  - split; [done|]. intros _ Hb. split; [done|]. intros m. by apply index_backed_cached.
  - destruct (IH (insert_at keys_key ttl L s (t, k, v))) as [IH1 IH2].
    { apply cache_lua_fn_bounded; done. }
    split; [done|]. intros Httl Hb. apply IH2; [done|].
    apply cache_lua_fn_backed; [done..|]. by apply index_backed_set_clock.
Qed.

(** The invariant on three insertions into an empty store, limit two. *)
Lemma bounded_size_invariant_witness :
  let s' := insertions "rc:app.f:keys" 0 2 empty_server
              [(1000005, "rc:app.f:A", "1"); (1000025, "rc:app.f:B", "2");
               (1000125, "rc:app.f:C", "3")] in
  Z.of_nat (size (index "rc:app.f:keys" s')) ≤ 2 ∧
  (¬ 0 > 0 → index_backed "rc:app.f:keys" empty_server →
   index_backed "rc:app.f:keys" s' ∧
   ∀ m, m ∈ dom (index "rc:app.f:keys" s') → is_Some (cached m s')).
Proof.
  apply (bounded_size_invariant "rc:app.f:keys" 0 2 empty_server
           [(1000005, "rc:app.f:A", "1"); (1000025, "rc:app.f:B", "2");
            (1000125, "rc:app.f:C", "3")]).
  - lia.
  - vm_compute. discriminate.
Defined.

(** C1, where the claim fails: with a time to live of one second and
    a limit of two, a value inserted at 1 s has expired when the next one is
    inserted at 6 s; its key is still a member of the index, and the store
    has no value for it. *)
Lemma expired_value_stays_indexed :
  let s := insertions "rc:app.f:keys" 1 2 empty_server
             [(1000000, "rc:app.f:A", "1"); (6000000, "rc:app.f:B", "2")] in
  Z.of_nat (size (index "rc:app.f:keys" s)) ≤ 2 ∧
  index "rc:app.f:keys" s !! "rc:app.f:A" = Some 1000000 ∧
  lookup_key "rc:app.f:A" s = None ∧
  cached "rc:app.f:A" s = None.
Proof. vm_compute. split_and!; [discriminate|reflexivity..]. Qed.

Lemma exchange_reachable cs w :
  reachable w → exchange cs w = (Ok tt, exchanged cs w).
Proof.
  unfold reachable, exchange, exchanged. destruct w as [r [|[] l] sv lg c h]; simpl; done.
Qed.

Lemma on_server_reachable {A} cs (c : eff server A) w :
  reachable w →
  on_server cs c w = ((c (redis w)).1, set_redis (c (redis w)).2 (exchanged cs w)).
Proof.
  intros Hr. unfold on_server, eff_bind. rewrite exchange_reachable by done.
  cbn [redis exchanged set_served set_link]. by destruct (c (redis w)).
Qed.

Lemma online_reachable w : online w → reachable w.
Proof.
  unfold online, reachable. destruct (link w) as [|b l]; [done|].
  intros [-> _]%list.Forall_cons. done.
Qed.

Lemma online_exchanged cs w : online w → online (exchanged cs w).
Proof.
  unfold online, exchanged; cbn [link set_served set_link].
  destruct (link w) as [|b l]; [done|]. by intros [_ ?]%list.Forall_cons.
Qed.

(** C7: for a decorator with [support_batch_call] set, a direct call of the
    wrapped function logs one warning, calls the function with the arguments
    as they came, and returns what it returns. Nothing is exchanged with the
    store, which is left as it was: no read and no write. *)
Theorem batch_capable_bypass self fn args kwargs w :
  support_batch_call self = true →
  let '(r, w') := inner self fn args kwargs w in
  r = Ok (fn_body fn args kwargs) ∧
  redis w' = redis w ∧
  link w' = link w ∧
  served w' = served w ∧
  log w' = log w ++ [("WARNING",
    "To use caching for batch-mode decorated functions, use RedisCache.mget()")] ∧
  calls w' = calls w ++ [Invocation (fn_module fn) (fn_name fn) args kwargs] ∧
  heap w' = heap w.
Proof. intros Hb. unfold inner. rewrite Hb. done. Qed.

(** A direct call of the batch-capable [first_only]. *)
Lemma batch_capable_bypass_witness :
  let '(r, w') := inner cached_first_only first_only [PyList [PyStr "a"; PyStr "b"]] []
                    empty_world in
  r = Ok (PyList [PyStr "a"]) ∧
  redis w' = redis empty_world ∧
  link w' = link empty_world ∧
  served w' = served empty_world ∧
  log w' = log empty_world ++ [("WARNING",
    "To use caching for batch-mode decorated functions, use RedisCache.mget()")] ∧
  calls w' = calls empty_world ++
    [Invocation "app" "first_only" [PyList [PyStr "a"; PyStr "b"]] []] ∧
  heap w' = heap empty_world.
Proof.
  apply (batch_capable_bypass cached_first_only first_only
           [PyList [PyStr "a"; PyStr "b"]] [] empty_world).
  reflexivity.
Defined.

Lemma index_delete_other idx k s d :
  k ≠ idx → db s !! idx = d !! idx →
  index idx (set_db (delete k d) s) = index idx s.
Proof.
  intros Hk Hd. unfold index, lookup_key; cbn [db clock set_db].
  by rewrite lookup_delete_ne, Hd.
Qed.

Lemma invalidate_effect d fn args kwargs w :
  let self := __call__ d fn in
  let key := get_key self args kwargs in
  let keys_key := default "" (keys_key self) in
  reachable w →
  let '(r, w') := invalidate self args kwargs w in
  lookup_key key (redis w') = None ∧
  index keys_key (redis w') !! key = None ∧
  (∀ k, k ≠ key → k ≠ keys_key → db (redis w') !! k = db (redis w) !! k) ∧
  (key ≠ keys_key →
   ∀ m, m ≠ key → index keys_key (redis w') !! m = index keys_key (redis w) !! m) ∧
  link w' = tail (link w) ∧
  served w' = served w ++ [[DEL [key]; ZREM keys_key [key]]] ∧
  (lookup_key keys_key (redis w) = None ∨ index keys_key (redis w) ≠ ∅ → r = Ok tt) ∧
  clock (redis w') = clock (redis w).
Proof.
  intros self key kk Hr. unfold invalidate. fold key.
  change (keys_key self) with (Some kk).
  cbv beta iota. unfold pipeline_execute, eff_bind.
  rewrite on_server_reachable by done.
  set (s := redis w).
  cbn [run_transaction run_command]. unfold eff_bind, eff_ret.
  rewrite redis_DEL_cons by done. cbn [foldr].
  set (s1 := set_db (delete key (db s)) s).
  rewrite redis_ZREM_cons by done. cbn [foldr].
  assert (clock s1 = clock s) as Hc by done.
  destruct (zset_at kk s1) as [z|] eqn:Hz; cbn [fst snd redis set_redis link set_link served set_served exchanged].
  - split_and!.
    + unfold lookup_key, store_zset; cbn [db set_db clock].
      destruct (decide (key = kk)) as [Heq|Hne].
      * assert (z = ∅) as ->.
        { unfold zset_at, lookup_key, s1 in Hz; cbn [db set_db clock] in Hz.
          rewrite Heq, lookup_delete_eq in Hz. congruence. }
        rewrite delete_empty, decide_True by done.
        by rewrite Heq, lookup_delete_eq.
      * case_decide; [rewrite lookup_delete_ne by done|rewrite lookup_insert_ne by done];
          unfold s1; cbn [db set_db]; by rewrite lookup_delete_eq.
    + rewrite index_store_zset. apply lookup_delete_eq.
    + intros k Hk Hkk. unfold store_zset; cbn [db set_db].
      case_decide; [rewrite lookup_delete_ne by done|rewrite lookup_insert_ne by done];
        unfold s1; cbn [db set_db]; by rewrite lookup_delete_ne.
    + intros Hne m Hm. rewrite index_store_zset, lookup_delete_ne by done.
      apply zset_at_index in Hz. rewrite <-Hz. unfold s1.
      by rewrite index_delete_other.
    + done.
    + done.
    + intros _. done.
    + done.
  - split_and!.
    + unfold lookup_key, s1; cbn [db set_db clock]. by rewrite lookup_delete_eq.
    + by rewrite (zset_at_None_index _ _ Hz).
    + intros k Hk Hkk. unfold s1; cbn [db set_db]. by rewrite lookup_delete_ne.
    + intros Hne m Hm. rewrite (zset_at_None_index _ _ Hz).
      unfold zset_at, lookup_key, s1 in Hz; cbn [db set_db clock] in Hz.
      rewrite lookup_delete_ne in Hz by done.
      unfold index, lookup_key. fold s.
      destruct (db s !! kk) as [x|]; [|done].
      destruct (live (clock s) x); [|done]. by destruct x.
    + done.
    + done.
    + intros Hi. exfalso.
      unfold zset_at, lookup_key, s1 in Hz; cbn [db set_db clock] in Hz.
      destruct (decide (key = kk)) as [->|Hne]; [by rewrite lookup_delete_eq in Hz|].
      rewrite lookup_delete_ne in Hz by done.
      unfold index, lookup_key in Hi. fold s in Hi.
      destruct (db s !! kk) as [x|]; [|done].
      destruct (live (clock s) x); [|done]. destruct x; [|done]. naive_solver.
    + done.
Qed.

(** C8: on a store that can be reached, [invalidate] sends one pipeline
    with [DEL key] and [ZREM keys_key key], for the key derived from the
    arguments. Afterwards the key holds nothing, so that a lookup for these
    arguments is a miss, and the key is not a member of the index. Every
    other key but the index key holds what it held, and what a lookup finds
    there is what it found before: the entries for other arguments and those
    of other namespaces remain hits. The other members of the index keep
    their scores. Nothing is raised when the index key is absent or holds a
    non-empty index. *)
Theorem invalidate_one_entry d fn args kwargs w :
  let self := __call__ d fn in
  let key := get_key self args kwargs in
  let keys_key := default "" (keys_key self) in
  reachable w →
  let '(r, w') := invalidate self args kwargs w in
  cached key (redis w') = None ∧
  lookup_key key (redis w') = None ∧
  index keys_key (redis w') !! key = None ∧
  (∀ k, k ≠ key → k ≠ keys_key →
        db (redis w') !! k = db (redis w) !! k ∧
        cached k (redis w') = cached k (redis w)) ∧
  (key ≠ keys_key →
   ∀ m, m ≠ key → index keys_key (redis w') !! m = index keys_key (redis w) !! m) ∧
  link w' = tail (link w) ∧
  served w' = served w ++ [[DEL [key]; ZREM keys_key [key]]] ∧
  (lookup_key keys_key (redis w) = None ∨ index keys_key (redis w) ≠ ∅ → r = Ok tt).
Proof.
  intros self key kk Hr.
  pose proof (invalidate_effect d fn args kwargs w Hr) as H. cbv zeta in H.
  fold self key kk in H.
  destruct (invalidate self args kwargs w) as [r w'].
  destruct H as (Hkey & Hidx & Hdb & Hmem & Hlink & Hserved & Hok & Hclock).
  split_and!; try done.
  - unfold cached. by rewrite Hkey.
  - intros k Hk Hkk. split; [by apply Hdb|].
    unfold cached, lookup_key. by rewrite Hdb, Hclock.
Qed.

(** Two entries are cached, and the first is invalidated. *)
Lemma invalidate_one_entry_witness :
  let self := cached_shout_2 in
  let w := (inner self shout [PyStr "b"] []
              (inner self shout [PyStr "a"] [] empty_world).2).2 in
  let key := get_key self [PyStr "a"] [] in
  let keys_key := default "" (keys_key self) in
  let '(r, w') := invalidate self [PyStr "a"] [] w in
  cached key (redis w') = None ∧
  lookup_key key (redis w') = None ∧
  index keys_key (redis w') !! key = None ∧
  (∀ k, k ≠ key → k ≠ keys_key →
        db (redis w') !! k = db (redis w) !! k ∧
        cached k (redis w') = cached k (redis w)) ∧
  (key ≠ keys_key →
   ∀ m, m ≠ key → index keys_key (redis w') !! m = index keys_key (redis w) !! m) ∧
  link w' = tail (link w) ∧
  served w' = served w ++ [[DEL [key]; ZREM keys_key [key]]] ∧
  (lookup_key keys_key (redis w) = None ∨ index keys_key (redis w) ≠ ∅ → r = Ok tt).
Proof.
  apply (invalidate_one_entry (cache text_cache 0 2 None false) shout [PyStr "a"] []).
  unfold reachable. vm_compute. discriminate.
Defined.

Lemma inner_miss self fn args kwargs w r :
  support_batch_call self = false → reachable w →
  (redis_GET (get_key self args kwargs) (redis w)).1 = Ok r → falsy r = true →
  inner self fn args kwargs w =
    match get_cache_lua_fn (get_key self args kwargs) (keys_key self)
            (serializer self (fn_body fn args kwargs)) (ttl self) (limit self)
            (invoked fn args kwargs (exchanged [GET (get_key self args kwargs)] w)) with
    | (Ok _, w') => (Ok (fn_body fn args kwargs), w')
    | (Raise e, w') => (Raise e, w')
    end.
Proof.
  intros Hb Hr Hget Hf. unfold inner. rewrite Hb.
  unfold eff_bind at 1. unfold client_get. rewrite on_server_reachable by done.
  rewrite Hget.
  assert ((redis_GET (get_key self args kwargs) (redis w)).2 = redis w) as ->.
  { unfold redis_GET. by destruct (lookup_key _ _) as [[]|]. }
  assert (∀ cs, set_redis (redis w) (exchanged cs w) = exchanged cs w) as -> by done.
  rewrite Hf. unfold eff_bind at 1. unfold call at 1.
  fold (invoked fn args kwargs (exchanged [GET (get_key self args kwargs)] w)).
  unfold eff_bind at 1. by destruct (get_cache_lua_fn _ _ _ _ _ _) as [[] ?].
Qed.

Lemma inner_hit self fn args kwargs w v :
  support_batch_call self = false → reachable w →
  cached (get_key self args kwargs) (redis w) = Some v → v ≠ "" →
  inner self fn args kwargs w =
    (Ok (deserializer self v), exchanged [GET (get_key self args kwargs)] w).
Proof.
  intros Hb Hr Hc Hv. unfold inner. rewrite Hb.
  unfold eff_bind at 1. unfold client_get. rewrite on_server_reachable by done.
  unfold cached in Hc. unfold redis_GET.
  destruct (lookup_key _ _) as [[v' e|]|]; simplify_eq. cbn [fst snd].
  unfold falsy. rewrite bool_decide_false by done.
  done.
Qed.

(** *** Strings as lists of characters *)

Lemma chars_app (a b : string) : chars (a +:+ b) = chars a ++ chars b.
Proof. induction a as [|c a IH]; simpl; [done|]. by rewrite IH. Qed.

Lemma chars_inj (a b : string) : chars a = chars b → a = b.
Proof.
  intros H. rewrite <-(String.string_of_list_ascii_of_string a),
    <-(String.string_of_list_ascii_of_string b). by rewrite H.
Qed.

(** *** Glob patterns made of a literal text and a final star *)

Lemma glob_tokens_lit fuel c rest :
  c ∉ ["*"; "?"; "["; "\"]%char →
  glob_tokens (S fuel) (c :: rest) = GLit c :: glob_tokens fuel rest.
Proof.
  intros Hc.
  destruct c as [[] [] [] [] [] [] [] []]; try reflexivity;
    exfalso; apply Hc; repeat first [apply list_elem_of_here | apply list_elem_of_further].
Qed.

Lemma glob_tokens_literal_star (lit : list ascii) fuel :
  Forall (λ c, c ∉ ["*"; "?"; "["; "\"]%char) lit →
  (length lit < fuel)%nat →
  glob_tokens fuel (lit ++ ["*"%char]) = (GLit <$> lit) ++ [GStar].
Proof.
  intros Hlit. revert fuel. induction Hlit as [|c lit Hc Hlit IH]; intros fuel Hf.
  - destruct fuel as [|[|fuel]]; simpl in *; try lia; done.
  - destruct fuel as [|fuel]; [simpl in Hf; lia|].
    cbn [app]. rewrite glob_tokens_lit by done. rewrite IH by (simpl in Hf; lia). done.
Qed.

Lemma glob_match_star s : glob_match [GStar] s = true.
Proof. induction s as [|c s IH]; [done|]. simpl in *. by rewrite IH. Qed.

Lemma glob_match_literal_star (lit s : list ascii) :
  glob_match ((GLit <$> lit) ++ [GStar]) s = true ↔ lit `prefix_of` s.
Proof.
  revert s. induction lit as [|c lit IH]; intros s.
  - split; [intros _; apply prefix_nil|intros _; apply glob_match_star].
  - destruct s as [|c' s]; cbn [fmap list_fmap app glob_match].
    + split; [done|]. intros H%prefix_nil_inv. done.
    + rewrite andb_true_iff, bool_decide_eq_true, IH. split.
      * intros [-> H]. by apply prefix_cons.
      * intros H. split; [by apply prefix_cons_inv_1 in H|by apply prefix_cons_inv_2 in H].
Qed.

Lemma stringmatch_literal_star (tag key : string) :
  glob_free tag →
  stringmatch (tag +:+ "*") key = true ↔ chars tag `prefix_of` chars key.
Proof.
  intros Hfree. unfold stringmatch. rewrite chars_app.
  change (chars "*") with ["*"%char].
  rewrite glob_tokens_literal_star.
  - apply glob_match_literal_star.
  - done.
  - rewrite length_app. simpl. lia.
Qed.

(** *** [chunks] *)

Lemma next_elements_take_drop {A} n (it : list A) :
  next_elements n it = (take n it, drop n it).
Proof.
  revert it. induction n as [|n IH]; intros [|x it]; simpl; try done.
  by rewrite IH.
Qed.

Lemma chunks_rounds_spec {A} rounds (it : list A) n :
  (0 < n)%nat → (length it < rounds)%nat →
  concat (chunks_rounds rounds it n) = it ∧
  Forall (λ c, (0 < length c ≤ n)%nat) (chunks_rounds rounds it n).
Proof.
  intros Hn. revert it. induction rounds as [|rounds IH]; intros it Hr; [lia|].
  cbn [chunks_rounds]. rewrite next_elements_take_drop.
  destruct (take n it) as [|x c] eqn:Ht.
  - split; [|constructor]. destruct it as [|a it]; [done|]. destruct n; [lia|]. simpl in Ht. done.
  - destruct (IH (drop n it)) as [IH1 IH2].
    { rewrite length_drop. destruct it; [simpl in Ht; by destruct n|]. simpl in *. lia. }
    split.
    + cbn [concat]. rewrite IH1, <-Ht. apply take_drop.
    + constructor; [|done]. rewrite <-Ht, length_take.
      destruct it; [simpl in Ht; by destruct n|]. simpl. lia.
Qed.

Lemma chunks_spec {A} (iterable : list A) n :
  (0 < n)%nat →
  concat (chunks iterable n) = iterable ∧
  Forall (λ c, (0 < length c ≤ n)%nat) (chunks iterable n).
Proof. intros Hn. apply chunks_rounds_spec; [done|lia]. Qed.

(** *** [invalidate_all] *)

Lemma delete_each_online cs w :
  online w → Forall (λ c : list string, c ≠ []) cs →
  let '(r, w') := delete_each cs w in
  r = Ok tt ∧
  db (redis w') = foldr delete (db (redis w)) (concat cs) ∧
  clock (redis w') = clock (redis w) ∧
  served w' = served w ++ ((λ keys, [DEL keys]) <$> cs) ∧
  online w'.
Proof.
  revert w. induction cs as [|c cs IH]; intros w Hw Hcs.
  - simpl. rewrite app_nil_r. done.
  - apply list.Forall_cons in Hcs as [Hc Hcs].
    cbn [delete_each]. unfold eff_bind at 1. unfold client_delete.
    rewrite on_server_reachable by (by apply online_reachable).
    rewrite redis_DEL_cons by done. cbn [fst snd].
    set (w1 := set_redis _ _).
    specialize (IH w1). destruct (delete_each cs w1) as [r w'].
    destruct IH as (-> & Hdb & Hclock & Hserved & Hon); [by apply online_exchanged|done|].
    split_and!; try done.
    + rewrite Hdb. unfold w1; cbn [redis set_redis db set_db concat].
      apply map_eq. intros k. rewrite !lookup_foldr_delete.
      repeat case_decide; try done; set_solver.
    + rewrite Hserved. unfold w1; cbn [served set_redis exchanged set_served fmap list_fmap].
      by rewrite <-app_assoc.
Qed.

Lemma redis_SCAN_spec pattern s :
  ∃ scanned, redis_SCAN pattern s = (Ok scanned, s) ∧
    ∀ k, k ∈ scanned ↔ is_Some (lookup_key k s) ∧ stringmatch pattern k = true.
Proof.
  eexists. split; [reflexivity|]. intros k. rewrite list_elem_of_filter.
  rewrite Is_true_true. split; [naive_solver|]. intros [Hl Hm]. split; [done|].
  apply list_elem_of_fmap. unfold lookup_key in Hl.
  destruct (db s !! k) as [x|] eqn:Hx; [|by destruct Hl].
  exists (k, x). split; [done|]. by apply elem_of_map_to_list.
Qed.

Lemma prefix_colon_split (c : ascii) (l1 l2 r : list ascii) :
  (l1 ++ [c]) `prefix_of` (l2 ++ c :: r) →
  l1 = l2 ∨ (l1 ++ [c]) `prefix_of` l2 ∨ (l2 ++ [c]) `prefix_of` l1.
Proof.
  revert l2. induction l1 as [|a l1 IH]; intros [|b l2] H; cbn [app] in *.
  - by left.
  - right; left. apply prefix_cons_inv_1 in H as ->. apply prefix_cons, prefix_nil.
  - right; right. apply prefix_cons_inv_1 in H as ->. apply prefix_cons, prefix_nil.
  - pose proof (prefix_cons_inv_1 _ _ _ _ H) as ->.
    apply prefix_cons_inv_2, IH in H as [->|[H|H]].
    + by left.
    + right; left. by apply prefix_cons.
    + right; right. by apply prefix_cons.
Qed.

Lemma glob_free_tag self :
  glob_free (prefix self) → glob_free (py_format (namespace self)) →
  glob_free (namespace_tag self).
Proof.
  unfold glob_free, namespace_tag. intros Hp Hn. rewrite !chars_app.
  change (chars ":") with [":"%char].
  assert (":"%char ∉ ["*"; "?"; "["; "\"]%char) as Hc.
  { rewrite !list.not_elem_of_cons. split_and!; try done. apply not_elem_of_nil. }
  rewrite !Forall_app. split_and!; try done; by repeat constructor.
Qed.

Lemma scan_pattern_tag self :
  prefix self +:+ ":" +:+ py_format (namespace self) +:+ ":*" = namespace_tag self +:+ "*".
Proof.
  apply chars_inj. unfold namespace_tag. rewrite !chars_app.
  change (chars ":*") with (chars ":" ++ chars "*"). by rewrite <-!app_assoc.
Qed.

Lemma keys_key_tag d fn :
  keys_key (__call__ d fn) = Some (namespace_tag (__call__ d fn) +:+ "keys").
Proof.
  unfold namespace_tag, __call__; cbn [keys_key prefix namespace py_format].
  f_equal. apply chars_inj. rewrite !chars_app.
  change (chars ":keys") with (chars ":" ++ chars "keys"). by rewrite <-!app_assoc.
Qed.

(** C10, as the code has it: for a decorated function whose prefix and
    namespace have none of the characters that are special in a pattern, on
    a store that can be reached, [invalidate_all] raises nothing and deletes
    every key that starts with [prefix:namespace:]. The index key
    [prefix:namespace:keys] is one of them, so that the index is empty
    afterwards. Every key that does not start so holds what it held; among
    them are the keys [prefix:ns':data] of every namespace [ns'] other than
    this one that is not a colon-delimited extension of this one and of which
    this one is not a colon-delimited extension. What is sent is one scan
    for [prefix:namespace:*] and then one [DEL] for each chunk of the scanned
    keys, each chunk of at least one and at most 500 keys. *)
Theorem invalidate_all_clears_namespace d fn w :
  let self := __call__ d fn in
  let tag := namespace_tag self in
  glob_free (prefix self) → glob_free (py_format (namespace self)) → online w →
  let '(r, w') := invalidate_all self w in
  r = Ok tt ∧
  (∀ k, chars tag `prefix_of` chars k → lookup_key k (redis w') = None) ∧
  index (default "" (keys_key self)) (redis w') = ∅ ∧
  (∀ k, ¬ chars tag `prefix_of` chars k → db (redis w') !! k = db (redis w) !! k) ∧
  (∀ ns' data,
     let ns := py_format (namespace self) in
     ns' ≠ ns →
     ¬ chars (ns +:+ ":") `prefix_of` chars ns' →
     ¬ chars (ns' +:+ ":") `prefix_of` chars ns →
     let k := prefix self +:+ ":" +:+ ns' +:+ ":" +:+ data in
     db (redis w') !! k = db (redis w) !! k) ∧
  ∃ scanned,
    served w' = served w ++ [SCAN (tag +:+ "*")] :: ((λ keys, [DEL keys]) <$> chunks scanned 500) ∧
    Forall (λ keys, (0 < length keys ≤ 500)%nat) (chunks scanned 500).
Proof.
  intros self tag Hp Hn Hw. unfold invalidate_all.
  rewrite scan_pattern_tag. fold tag.
  unfold eff_bind at 1. unfold client_scan_iter.
  rewrite on_server_reachable by (by apply online_reachable).
  destruct (redis_SCAN_spec (tag +:+ "*") (redis w)) as (scanned & -> & Hscan).
  cbn [fst snd].
  set (w1 := set_redis _ _).
  destruct (chunks_spec scanned 500) as [Hconcat Hsizes]; [lia|].
  pose proof (delete_each_online (chunks scanned 500) w1) as Hdel.
  destruct (delete_each (chunks scanned 500) w1) as [r w'].
  destruct Hdel as (-> & Hdb & Hclock & Hserved & _).
  { by apply online_exchanged. }
  { eapply list.Forall_impl; [exact Hsizes|]. intros c [Hc _] ->. simpl in Hc. lia. }
  rewrite Hconcat in Hdb. cbn [w1 redis set_redis] in Hdb, Hclock.
  assert (∀ k, chars tag `prefix_of` chars k → lookup_key k (redis w') = None) as Hgone.
  { intros k Hk. unfold lookup_key. rewrite Hdb, Hclock, lookup_foldr_delete.
    case_decide as Hin; [done|].
    destruct (db (redis w) !! k) as [x|] eqn:Hx; [|done].
    destruct (live (clock (redis w)) x) eqn:Hlive; [|done].
    exfalso. apply Hin, Hscan. split.
    - unfold lookup_key. rewrite Hx, Hlive. eauto.
    - apply stringmatch_literal_star; [by apply glob_free_tag|done]. }
  assert (∀ k, ¬ chars tag `prefix_of` chars k → db (redis w') !! k = db (redis w) !! k)
    as Hkept.
  { intros k Hk. rewrite Hdb, lookup_foldr_delete. case_decide as Hin; [|done].
    apply Hscan in Hin as [_ Hm]. exfalso. apply Hk.
    by apply stringmatch_literal_star; [apply glob_free_tag|]. }
  split_and!; try done.
  - unfold index. rewrite Hgone; [done|].
    unfold self. rewrite keys_key_tag. cbn [default id]. fold self tag.
    rewrite chars_app. by apply prefix_app_r.
  - intros ns' data. cbv zeta. intros Hne H1 H2. apply Hkept. unfold tag, namespace_tag.
    rewrite !chars_app. intros H.
    apply prefix_app_inv, prefix_app_inv in H.
    rewrite !chars_app in H1, H2. change (chars ":") with [":"%char] in *.
    apply prefix_colon_split in H as [H|[H|H]].
    + apply Hne. by apply chars_inj.
    + done.
    + done.
  - exists scanned. split; [|done]. rewrite Hserved.
    unfold w1; cbn [served set_redis exchanged set_served]. by rewrite <-app_assoc.
Qed.

(** [invalidate_all] on the namespace [geo:fr], cached with a limit of two,
    after two calls: the index key exists, with two members, and is deleted
    with the two values. *)
Lemma invalidate_all_clears_namespace_witness :
  let w1 := (inner cached_geo_fr_2 population [PyStr "paris"] [] empty_world).2 in
  let w := (inner cached_geo_fr_2 population [PyStr "lyon"] [] w1).2 in
  let w' := (invalidate_all cached_geo_fr_2 w).2 in
  size (index "rc:geo:fr:keys" (redis w)) = 2%nat ∧
  cached "rc:geo:fr:paris" (redis w) = Some "2100000" ∧
  cached "rc:geo:fr:lyon" (redis w) = Some "2100000" ∧
  (invalidate_all cached_geo_fr_2 w).1 = Ok tt ∧
  index "rc:geo:fr:keys" (redis w') = ∅ ∧
  lookup_key "rc:geo:fr:keys" (redis w') = None ∧
  lookup_key "rc:geo:fr:paris" (redis w') = None ∧
  lookup_key "rc:geo:fr:lyon" (redis w') = None.
Proof.
  intros w1 w w'.
  pose proof (invalidate_all_clears_namespace
                (cache path_cache 0 2 (Some "geo:fr") false) population w) as H.
  cbv zeta in H.
  change (__call__ (cache path_cache 0 2 (Some "geo:fr") false) population)
    with cached_geo_fr_2 in H.
  unfold w'. destruct (invalidate_all cached_geo_fr_2 w) as [r w2].
  destruct H as (Hr & Hgone & Hidx & _).
  - refine (bool_decide_unpack _ _). vm_compute. exact I.
  - refine (bool_decide_unpack _ _). vm_compute. exact I.
  - unfold online. vm_compute. constructor.
  - split_and!; [vm_compute; reflexivity..|exact Hr|exact Hidx| | |].
    + apply Hgone. by exists (chars "keys").
    + apply Hgone. by exists (chars "paris").
    + apply Hgone. by exists (chars "lyon").
Defined.

(** C10, where the claim fails: [geo] is not a colon-delimited extension of
    [geo:fr], and one of its keys is deleted by [invalidate_all] on
    [geo:fr]. *)
Lemma invalidate_all_reaches_shorter_namespace :
  let key := get_key cached_geo [PyStr "fr"; PyStr "paris"] [] in
  let w := (inner cached_geo population [PyStr "fr"; PyStr "paris"] [] empty_world).2 in
  let w' := (invalidate_all cached_geo_fr w).2 in
  namespace cached_geo = Some "geo" ∧
  namespace cached_geo_fr = Some "geo:fr" ∧
  key = "rc:geo:fr:paris" ∧
  cached key (redis w) = Some "2100000" ∧
  cached key (redis w') = None.
Proof. vm_compute. split_and!; reflexivity. Qed.

(** *** Grouping the misses by function *)

Lemma group_append_keys f l g :
  (group_append f l g).*1 = if decide (f ∈ g.*1) then g.*1 else g.*1 ++ [f].
Proof.
  induction g as [|[f' ls] g IH]; cbn [group_append fmap list_fmap fst].
  - by rewrite decide_False by apply not_elem_of_nil.
  - destruct (decide (f' = f)) as [->|Hne]; cbn [fmap list_fmap fst].
    + rewrite decide_True; [done|]. apply list_elem_of_here.
    + fold (fmap (M:=list) (@fst nat (list nat))). rewrite IH.
      destruct (decide (f ∈ g.*1)) as [Hin|Hin].
      * rewrite decide_True; [done|]. by apply list_elem_of_further.
      * rewrite decide_False; [done|]. rewrite list.elem_of_cons. naive_solver.
Qed.

Lemma group_append_elem f l g f' ls' :
  NoDup g.*1 →
  (f', ls') ∈ group_append f l g ↔
    (f' ≠ f ∧ (f', ls') ∈ g) ∨
    (f' = f ∧ ((∃ ls, (f, ls) ∈ g ∧ ls' = ls ++ [l]) ∨ ((f ∉ g.*1) ∧ ls' = [l]))).
Proof.
  induction g as [|[f0 ls0] g IH]; cbn [group_append fmap list_fmap fst]; intros Hnd.
  - rewrite list_elem_of_singleton. split.
    + intros H. injection H as -> ->. right. split; [done|]. right.
      split; [apply not_elem_of_nil|done].
    + intros [[_ H]|[-> [(ls & H & _)|[_ ->]]]]; [by apply elem_of_nil in H..|done].
  - apply list.NoDup_cons in Hnd as [Hf0 Hnd].
    assert (∀ x, (f0, x) ∉ g) as Hf0'.
    { intros x Hx. apply Hf0. apply list_elem_of_fmap. by exists (f0, x). }
    destruct (decide (f0 = f)) as [->|Hne].
    + split.
      * intros [H|Hin]%list.elem_of_cons.
        -- injection H as -> ->. right. split; [done|]. left. exists ls0.
           split; [apply list_elem_of_here|done].
        -- left. split; [|by apply list_elem_of_further]. intros ->. by apply (Hf0' ls').
      * intros [[Hne Hin]|[-> [(ls & Hin & ->)|[Hin ->]]]].
        -- apply list.elem_of_cons in Hin as [H|Hin]; [by injection H|].
           by apply list_elem_of_further.
        -- apply list.elem_of_cons in Hin as [H|Hin]; [|by apply Hf0' in Hin].
           injection H as ->. apply list_elem_of_here.
        -- exfalso. apply Hin. apply list_elem_of_here.
    + rewrite list.elem_of_cons, IH by done. split.
      * intros [H|[[Hne' Hin]|[-> [(ls & Hin & ->)|[Hin ->]]]]].
        -- injection H as -> ->. left. split; [done|]. apply list_elem_of_here.
        -- left. split; [done|]. by apply list_elem_of_further.
        -- right. split; [done|]. left. exists ls. split; [by apply list_elem_of_further|done].
        -- right. split; [done|]. right. split; [|done].
           intros [?|?]%list.elem_of_cons; done.
      * intros [[Hne' Hin]|[-> [(ls & Hin & ->)|[Hin ->]]]].
        -- apply list.elem_of_cons in Hin as [H|Hin]; [by left|]. right. left. done.
        -- apply list.elem_of_cons in Hin as [H|Hin]; [by injection H|].
           right. right. split; [done|]. left. eauto.
        -- right. right. split; [done|]. right. split; [|done].
           intros Hin'. apply Hin. by apply list_elem_of_further.
Qed.

Lemma grouped_nil fn : grouped fn [] [].
Proof.
  split_and!.
  - constructor.
  - intros f ls []%elem_of_nil.
  - intros l []%elem_of_nil.
Qed.

Lemma grouped_snoc fn M g l :
  grouped fn M g → grouped fn (M ++ [l]) (group_append (fn l) l g).
Proof.
  intros (Hnd & Hg & Hin). split_and!.
  - rewrite group_append_keys. case_decide; [done|].
    apply list.NoDup_app. split_and!; [done| |apply NoDup_singleton].
    intros x Hx Hx'. apply list_elem_of_singleton in Hx' as ->. done.
  - intros f ls [[Hne H]|[-> [(ls0 & H & ->)|[H ->]]]]%group_append_elem; [| | |done].
    + destruct (Hg _ _ H) as [-> Hls]. split; [|done].
      rewrite list.filter_app, filter_cons_False, filter_nil, app_nil_r by done. done.
    + destruct (Hg _ _ H) as [-> Hls]. split; [|by destruct (filter _ M)].
      rewrite list.filter_app, filter_cons_True, filter_nil by done. done.
    + split; [|done].
      rewrite list.filter_app, filter_cons_True, filter_nil by done.
      assert (filter (λ l0, fn l0 = fn l) M = []) as ->; [|done].
      destruct (filter _ M) as [|y ys] eqn:E; [done|]. exfalso.
      assert (y ∈ filter (λ l0, fn l0 = fn l) M) as [Hy HyM]%list_elem_of_filter.
      { rewrite E. apply list_elem_of_here. }
      apply H. rewrite <-Hy. by apply Hin.
  - intros x Hx. rewrite group_append_keys.
    apply list.elem_of_app in Hx as [Hx|Hx]; [|apply list_elem_of_singleton in Hx as ->].
    + case_decide; [by apply Hin|]. apply list.elem_of_app. left. by apply Hin.
    + case_decide; [done|]. apply list.elem_of_app. right. apply list_elem_of_here.
Qed.

Lemma grouped_foldl fn M M' g :
  grouped fn M g →
  grouped fn (M ++ M') (foldl (λ g l, group_append (fn l) l g) g M').
Proof.
  revert M g. induction M' as [|l M' IH]; intros M g Hg; cbn [foldl].
  - by rewrite app_nil_r.
  - replace (M ++ l :: M') with ((M ++ [l]) ++ M') by (by rewrite <-app_assoc).
    apply IH. by apply grouped_snoc.
Qed.

(** *** The dictionaries through [mget] *)

Lemma settled_refl h : settled h h.
Proof. intros l. done. Qed.

Lemma settled_trans h1 h2 h3 : settled h1 h2 → settled h2 h3 → settled h1 h3.
Proof.
  intros H12 H23 l. destruct (H12 l) as (?&?&?&?&?), (H23 l) as (?&?&?&?&?).
  split_and!; try congruence; naive_solver.
Qed.

Lemma settled_call_key fns h h' l : settled h h' → call_key fns h' l = call_key fns h l.
Proof. intros H. destruct (H l) as (Hf&Ha&Hk&_). unfold call_key. by rewrite Hf, Ha, Hk. Qed.

Lemma settled_ready h h' ls : settled h h' → ready h ls → ready h' ls.
Proof. intros H Hr l Hl. destruct (H l) as (_&_&_&?&?), (Hr l Hl). naive_solver. Qed.

Lemma settled_insert h l d :
  d_fn d = d_fn (h l) →
  default [] (d_args d) = call_args h l →
  default [] (d_kwargs d) = call_kwargs h l →
  (is_Some (d_args (h l)) → is_Some (d_args d)) →
  (is_Some (d_kwargs (h l)) → is_Some (d_kwargs d)) →
  settled h (<[l := d]> h).
Proof.
  intros ????? l'. unfold call_args, call_kwargs.
  destruct (decide (l = l')) as [->|Hne].
  - rewrite fn_lookup_insert. done.
  - rewrite fn_lookup_insert_ne by done. done.
Qed.

Lemma mget_keys_spec fns locs w :
  ∃ h1, mget_keys fns locs w = (Ok (call_key fns (heap w) <$> locs), set_heap h1 w) ∧
        settled (heap w) h1 ∧ ready h1 locs.
Proof.
  revert w. induction locs as [|l locs IH]; intros w.
  - exists (heap w). split_and!; [by destruct w|apply settled_refl|].
    intros l []%elem_of_nil.
  - cbn [mget_keys]. unfold eff_bind at 1. unfold get_state at 1.
    unfold eff_bind at 1. unfold put_state at 1.
    set (h0 := <[l := _]> (heap w)).
    assert (settled (heap w) h0) as H0.
    { apply settled_insert; try done; cbn; eauto. }
    destruct (IH (set_heap h0 w)) as (h1 & Heq & H1 & Hr1).
    cbn [heap set_heap] in Heq, H1.
    assert (call_key fns h0 <$> locs = call_key fns (heap w) <$> locs) as Hkeys.
    { apply list_fmap_ext. intros i l' _. by apply settled_call_key. }
    rewrite Hkeys in Heq.
    exists h1. unfold eff_bind at 1. rewrite Heq. unfold eff_ret. split_and!.
    + unfold call_key at 2, call_args, call_kwargs. done.
    + by eapply settled_trans.
    + intros l' [->|Hl']%list.elem_of_cons; [|by apply Hr1].
      destruct (H1 l) as (_&_&_&Ha&Hk). unfold h0 in Ha, Hk.
      rewrite fn_lookup_insert in Ha, Hk. cbn in Ha, Hk. split; [apply Ha|apply Hk]; eauto.
Qed.

Lemma mget_classify_spec self (fn : nat → nat) locs post i rs m flag g w :
  length rs = length post →
  (∀ j, locs !! (i + j)%nat = post !! j) →
  NoDup post →
  (∀ l, d_fn (heap w l) = fn l) →
  ∃ h',
    mget_classify self locs i rs (m, flag, g) w =
      (Ok (hits self i rs m,
           flag || bool_decide (misses post rs ≠ []),
           foldl (λ g l, group_append (fn l) l g) g (misses post rs)),
       set_heap h' w) ∧
    settled (heap w) h' ∧
    (∀ j l, post !! j = Some l → rs !! j = Some None →
            d_call_idx (h' l) = Some (i + j)%nat) ∧
    (∀ l, l ∉ post → h' l = heap w l).
Proof.
  revert post i m flag g w.
  induction rs as [|r rs IH]; intros post i m flag g w Hlen Hlocs Hnd Hfn.
  - destruct post; [|done]. exists (heap w). cbn [mget_classify hits misses foldl].
    rewrite bool_decide_false by naive_solver. rewrite orb_false_r.
    split_and!; [by destruct w|apply settled_refl|by intros ??[=]|done].
  - destruct post as [|l post]; [done|].
    apply list.NoDup_cons in Hnd as [Hl Hnd].
    assert (locs !! i = Some l) as Hi.
    { specialize (Hlocs 0%nat). by rewrite Nat.add_0_r in Hlocs. }
    assert (∀ j, locs !! (S i + j)%nat = post !! j) as Hlocs'.
    { intros j. specialize (Hlocs (S j)). by rewrite Nat.add_succ_r in Hlocs. }
    cbn [mget_classify hits misses].
    destruct r as [v|].
    + destruct (IH post (S i) (<[i:=rc_deserializer self v]> m) flag g w)
        as (h' & Heq & Hs & Hidx & Hframe); [by injection Hlen|done..|].
      exists h'. rewrite Heq. split_and!; [done|done| |].
      * intros [|j] l' Hj Hr; [done|]. rewrite Nat.add_succ_r. by apply (Hidx j).
      * intros l' Hl'. apply Hframe. intros ?. apply Hl'. by apply list_elem_of_further.
    + rewrite Hi. unfold eff_bind at 1. unfold get_state at 1.
      unfold eff_bind at 1. unfold put_state at 1.
      set (h0 := <[l := _]> (heap w)).
      assert (settled (heap w) h0) as H0 by (by apply settled_insert).
      destruct (IH post (S i) m true (group_append (d_fn (heap w l)) l g) (set_heap h0 w))
        as (h' & Heq & Hs & Hidx & Hframe); [by injection Hlen|done|done| |].
      { intros l'. cbn [heap set_heap]. destruct (H0 l') as [-> _]. apply Hfn. }
      cbn [heap set_heap] in *.
      exists h'. rewrite Heq. rewrite Hfn. cbn [foldl].
      rewrite (bool_decide_true (_ :: _ ≠ [])) by done. rewrite orb_true_r.
      split_and!; [done|by eapply settled_trans| |].
      * intros [|j] l' Hj Hr.
        -- injection Hj as <-. rewrite Hframe by done. unfold h0.
           rewrite fn_lookup_insert. cbn. by rewrite Nat.add_0_r.
        -- rewrite Nat.add_succ_r. by apply (Hidx j).
      * intros l' Hl'. rewrite Hframe.
        -- unfold h0. rewrite fn_lookup_insert_ne; [done|].
           intros ->. apply Hl'. apply list_elem_of_here.
        -- intros ?. apply Hl'. by apply list_elem_of_further.
Qed.

Lemma hits_lookup self i rs m k :
  hits self i rs m !! k =
    match (if decide (i ≤ k)%nat then rs !! (k - i)%nat else None) with
    | Some (Some v) => Some (rc_deserializer self v)
    | _ => m !! k
    end.
Proof.
  revert i m. induction rs as [|[v|] rs IH]; intros i m; cbn [hits].
  - case_decide; by rewrite ?lookup_nil.
  - rewrite IH. destruct (decide (S i ≤ k)%nat) as [Hle|Hle].
    + rewrite decide_True by lia. replace (k - i)%nat with (S (k - S i)) by lia.
      cbn [lookup list_lookup]. rewrite lookup_insert_ne by lia. done.
    + destruct (decide (i ≤ k)%nat) as [Hle'|Hle'].
      * assert (k = i) as -> by lia. rewrite Nat.sub_diag. cbn. by rewrite lookup_insert_eq.
      * rewrite lookup_insert_ne by lia. done.
  - rewrite IH. destruct (decide (S i ≤ k)%nat) as [Hle|Hle].
    + rewrite decide_True by lia. replace (k - i)%nat with (S (k - S i)) by lia. done.
    + destruct (decide (i ≤ k)%nat) as [Hle'|Hle']; [|done].
      assert (k = i) as -> by lia. by rewrite Nat.sub_diag.
Qed.

(** *** Recomputing the misses *)

Lemma call_each_spec fn ls w :
  ready (heap w) ls →
  ∃ cs, call_each fn ls w =
    (Ok ((λ l, fn_body fn (call_args (heap w) l) (call_kwargs (heap w) l)) <$> ls),
     set_calls cs w).
Proof.
  revert w. induction ls as [|l ls IH]; intros w Hr.
  - exists (calls w). by destruct w.
  - cbn [call_each]. unfold eff_bind at 1. unfold get_state at 1.
    destruct (Hr l) as [[args Ha] [kwargs Hk]]; [apply list_elem_of_here|].
    rewrite Ha, Hk. unfold eff_bind at 1. unfold call at 1.
    set (w1 := set_calls _ w).
    destruct (IH w1) as [cs Heq].
    { intros l' Hl'. apply Hr. by apply list_elem_of_further. }
    unfold eff_bind at 1. rewrite Heq. exists cs. unfold eff_ret.
    cbn [fmap list_fmap]. unfold call_args, call_kwargs. cbn [w1 heap set_calls].
    by rewrite Ha, Hk.
Qed.

Lemma call_vector_spec ls w :
  ready (heap w) ls →
  call_vector ls w =
    (Ok ((λ l, match call_args (heap w) l with
               | [] => PyDict (call_kwargs (heap w) l)
               | args => PyList args
               end) <$> ls), w).
Proof.
  induction ls as [|l ls IH]; intros Hr; [done|].
  cbn [call_vector]. unfold eff_bind at 1. unfold get_state at 1.
  destruct (Hr l) as [[args Ha] [kwargs Hk]]; [apply list_elem_of_here|].
  assert (ready (heap w) ls) as Hr'.
  { intros l' Hl'. apply Hr. by apply list_elem_of_further. }
  rewrite Ha. cbn [fmap list_fmap]. unfold call_args at 1, call_kwargs at 1.
  rewrite Ha, Hk. cbn [default].
  destruct args as [|a args]; unfold eff_bind at 1; by rewrite IH.
Qed.

Lemma get_batch_call_result_spec fns f ls w :
  is_Some (original_fn (fns f)) → ready (heap w) ls →
  ∃ cs res, _get_batch_call_result fns f ls w = (Ok res, set_calls cs w) ∧
            py_iter res = recomputed fns (heap w) f ls.
Proof.
  intros [fn Hfn] Hr. unfold _get_batch_call_result, recomputed. rewrite Hfn.
  destruct (support_batch_call (fns f)).
  - unfold eff_bind at 1. rewrite call_vector_spec by done.
    unfold call. eauto.
  - destruct (call_each_spec fn ls w Hr) as [cs Heq].
    unfold eff_bind at 1. rewrite Heq. unfold eff_ret. eauto.
Qed.

Lemma mget_store_spec self fns f keys ix ps pl m w :
  is_Some (keys_key (fns f)) →
  (∀ l, l ∈ ps.*1 → d_call_idx (heap w l) = Some (ix l) ∧ is_Some (keys !! ix l)) →
  ∃ cmds, mget_store self fns f keys ps (pl, m) w =
            (Ok (pl ++ cmds, foldl (store_result ix) m ps), w).
Proof.
  intros [kk Hkk]. revert pl m.
  induction ps as [|[l r] ps IH]; intros pl m Hps.
  - exists []. by rewrite app_nil_r.
  - cbn [mget_store]. unfold eff_bind at 1. unfold get_state at 1.
    destruct (Hps l) as [Hidx [key Hkey]]; [apply list_elem_of_here|].
    rewrite Hidx, Hkey, Hkk.
    edestruct IH as [cmds Heq]; [|rewrite Heq].
    { intros l' Hl'. apply Hps. by apply list_elem_of_further. }
    eexists (_ :: cmds). by rewrite <-app_assoc.
Qed.

Lemma settled_recomputed fns h h' f ls :
  settled h h' → recomputed fns h' f ls = recomputed fns h f ls.
Proof.
  intros Hs. unfold recomputed.
  assert (∀ l, call_args h' l = call_args h l) as Ha by (intros l; apply Hs).
  assert (∀ l, call_kwargs h' l = call_kwargs h l) as Hk by (intros l; apply Hs).
  destruct (original_fn (fns f)); [|done].
  destruct (support_batch_call (fns f)).
  - do 4 f_equal. apply list_fmap_ext. intros _ l _. by rewrite Ha, Hk.
  - f_equal. apply list_fmap_ext. intros _ l _. by rewrite Ha, Hk.
Qed.

Lemma mget_recompute_spec self fns keys ix gs pl m w :
  (∀ f ls, (f, ls) ∈ gs →
     is_Some (original_fn (fns f)) ∧ is_Some (keys_key (fns f)) ∧
     is_Some (recomputed fns (heap w) f ls) ∧ ready (heap w) ls ∧
     ∀ l, l ∈ ls → d_call_idx (heap w l) = Some (ix l) ∧ is_Some (keys !! ix l)) →
  ∃ cs cmds,
    mget_recompute self fns keys gs (pl, m) w =
      (Ok (pl ++ cmds, foldl (store_result ix) m (writes fns (heap w) gs)),
       set_calls cs w).
Proof.
  revert pl m w. induction gs as [|[f ls] gs IH]; intros pl m w Hgs.
  - exists (calls w), []. rewrite app_nil_r. by destruct w.
  - destruct (Hgs f ls) as (Hfn & Hkk & [items Hit] & Hr & Hidx); [apply list_elem_of_here|].
    cbn [mget_recompute].
    destruct (get_batch_call_result_spec fns f ls w Hfn Hr) as (cs & res & Heq & Hres).
    unfold eff_bind at 1. rewrite Heq, Hres, Hit.
    destruct (mget_store_spec self fns f keys ix (zip ls items) pl m (set_calls cs w) Hkk)
      as [cmds Hstore].
    { intros l Hl. apply Hidx. apply list_elem_of_fmap in Hl as [[l' r] [-> Hl]].
      by apply elem_of_zip_l in Hl. }
    unfold eff_bind at 1. rewrite Hstore.
    destruct (IH (pl ++ cmds) (foldl (store_result ix) m (zip ls items)) (set_calls cs w))
      as (cs' & cmds' & Heq').
    { intros f' ls' Hin. apply Hgs. by apply list_elem_of_further. }
    exists cs', (cmds ++ cmds'). rewrite Heq'. cbn [heap set_calls].
    unfold writes. rewrite bind_cons, foldl_app. cbn [fst snd]. rewrite Hit. cbn [default].
    by rewrite <-app_assoc.
Qed.

(** *** Assembling the results *)

Lemma StronglySorted_filter_seq (P : nat → Prop) `{∀ x, Decision (P x)} a n :
  StronglySorted Nat.le (filter P (seq a n)).
Proof.
  revert a. induction n as [|n IH]; intros a; cbn [seq].
  - constructor.
  - rewrite filter_cons. case_decide; [|apply IH].
    constructor; [apply IH|]. apply list.Forall_forall. intros x Hx.
    apply list_elem_of_filter in Hx as [_ Hx]. apply elem_of_seq in Hx. lia.
Qed.

Lemma sorted_keys (m : gmap nat pyobj) N :
  (∀ k, is_Some (m !! k) → (k < N)%nat) →
  merge_sort Nat.le (map_to_list m).*1 = filter (λ k, is_Some (m !! k)) (seq 0 N).
Proof.
  intros Hm. apply (StronglySorted_unique Nat.le).
  - apply StronglySorted_merge_sort; apply _.
  - apply StronglySorted_filter_seq.
  - rewrite merge_sort_Permutation. apply NoDup_Permutation.
    + apply NoDup_fst_map_to_list.
    + apply list.NoDup_filter, NoDup_seq.
    + intros k. rewrite list_elem_of_filter, elem_of_seq.
      split.
      * intros [[k' x] [-> Hk]]%list_elem_of_fmap. apply elem_of_map_to_list in Hk.
        cbn. split; [eauto|]. split; [lia|]. apply Hm. eauto.
      * intros [[x Hx] _]. apply list_elem_of_fmap. exists (k, x).
        split; [done|]. by apply elem_of_map_to_list.
Qed.

Lemma omap_filter_seq (m : gmap nat pyobj) (xs : list (option pyobj)) a :
  (∀ j, (j < length xs)%nat → m !! (a + j)%nat = mjoin (xs !! j)) →
  omap (λ k, m !! k) (filter (λ k, is_Some (m !! k)) (seq a (length xs))) = omap id xs.
Proof.
  revert a. induction xs as [|x xs IH]; intros a Hm; [done|].
  cbn [length seq]. rewrite filter_cons.
  assert (m !! a = x) as Ha.
  { specialize (Hm 0%nat). rewrite Nat.add_0_r in Hm. apply Hm. simpl. lia. }
  assert (omap (λ k, m !! k) (filter (λ k, is_Some (m !! k)) (seq (S a) (length xs)))
          = omap id xs) as Hrest.
  { apply IH. intros j Hj. specialize (Hm (S j)). rewrite Nat.add_succ_r in Hm.
    apply Hm. simpl. lia. }
  case_decide as Hs.
  - cbn [omap list_omap]. fold (omap (M:=list) (λ k, m !! k)). fold (omap (M:=list) (@id (option pyobj))).
    rewrite Hrest. rewrite Ha. done.
  - rewrite Hrest. cbn [omap list_omap]. fold (omap (M:=list) (@id (option pyobj))).
    rewrite Ha in Hs. destruct x; [|done]. exfalso. apply Hs. eauto.
Qed.

Lemma sorted_values_spec (m : gmap nat pyobj) (xs : list (option pyobj)) :
  (∀ k, m !! k = mjoin (xs !! k)) →
  sorted_values m = omap id xs.
Proof.
  intros Hm. unfold sorted_values. rewrite (sorted_keys m (length xs)).
  - apply omap_filter_seq. intros j _. apply Hm.
  - intros k [x Hx]. rewrite Hm in Hx. apply lookup_lt_is_Some.
    destruct (xs !! k); [eauto|done].
Qed.

(** *** The errors the store raises *)

Lemma raises_only_ret {S A} P (a : A) : raises_only (S:=S) P (ret a).
Proof. by intros s e. Qed.

Lemma raises_only_bind {S A B} P (m : eff S A) (f : A → eff S B) :
  raises_only P m → (∀ a, raises_only P (f a)) → raises_only P (eff_bind f m).
Proof.
  intros Hm Hf s e. unfold eff_bind. specialize (Hm s).
  destruct (m s) as [[a|e'] s']; cbn [fst] in *.
  - apply Hf.
  - intros [= <-]. by apply Hm.
Qed.

Lemma cache_lua_fn_store_error k idx v ttl L :
  raises_only store_error (cache_lua_fn k idx v ttl L).
Proof.
  assert (∀ z, raises_only store_error (redis_ZADD idx z k)) as HZADD.
  { intros z s e. unfold redis_ZADD. destruct (zset_at idx s); [done|].
    intros [= <-]. right. by left. }
  assert (raises_only store_error (redis_ZCOUNT idx)) as HZCOUNT.
  { intros s e. unfold redis_ZCOUNT. destruct (zset_at idx s); [done|].
    intros [= <-]. right. by left. }
  assert (∀ n, raises_only store_error (redis_ZPOPMIN idx n)) as HZPOPMIN.
  { intros n s e. unfold redis_ZPOPMIN. destruct (zset_at idx s); [done|].
    intros [= <-]. right. by left. }
  assert (∀ ms, raises_only store_error (redis_ZREM idx ms)) as HZREM.
  { intros ms s e. unfold redis_ZREM. destruct ms; [intros [= <-]; right; by right|].
    destruct (zset_at idx s); [done|]. intros [= <-]. right. by left. }
  assert (∀ ks, raises_only store_error (redis_DEL ks)) as HDEL.
  { intros ks s e. unfold redis_DEL. destruct ks; [|done]. intros [= <-]. right. by right. }
  unfold cache_lua_fn. apply raises_only_bind.
  { destruct (bool_decide (ttl > 0)); by intros s e. }
  intros value. destruct (bool_decide (L > 0)); [|apply raises_only_ret].
  apply raises_only_bind; [by intros s e|]. intros tp.
  apply raises_only_bind; [apply HZADD|]. intros _.
  apply raises_only_bind; [apply HZCOUNT|]. intros count.
  destruct (bool_decide (count - L > 0)); [|apply raises_only_ret].
  apply raises_only_bind; [apply HZPOPMIN|]. intros stale.
  apply raises_only_bind; [apply HZREM|]. intros _.
  apply raises_only_bind; [apply HDEL|]. intros _. apply raises_only_ret.
Qed.

Lemma run_command_store_error c : raises_only store_error (run_command c).
Proof.
  destruct c as [k|ks|p|ks|k ms|k1 k2 v ttl L]; cbn [run_command];
    (apply raises_only_bind; [|intros ?; apply raises_only_ret]).
  - intros s e. unfold redis_GET. destruct (lookup_key k s) as [[]|]; try done.
    intros [= <-]. right. by left.
  - by intros s e.
  - by intros s e.
  - intros s e. unfold redis_DEL. destruct ks; [|done]. intros [= <-]. right. by right.
  - intros s e. unfold redis_ZREM. destruct ms; [intros [= <-]; right; by right|].
    destruct (zset_at k s); [done|]. intros [= <-]. right. by left.
  - apply cache_lua_fn_store_error.
Qed.

Lemma run_transaction_store_error cs : raises_only store_error (run_transaction cs).
Proof.
  induction cs as [|c cs IH]; intros s e; [done|]. cbn [run_transaction].
  pose proof (run_command_store_error c s) as Hc.
  destruct (run_command c s) as [[r|e'] s']; cbn [fst] in *.
  - specialize (IH s'). destruct (run_transaction cs s') as [[rs|e''] s'']; [done|].
    cbn [fst] in *. intros [= <-]. by apply IH.
  - intros [= <-]. by apply Hc.
Qed.

Lemma on_server_store_error {A} cs (c : eff server A) :
  raises_only store_error c → raises_only store_error (on_server cs c).
Proof.
  intros Hc. unfold on_server. apply raises_only_bind.
  - intros w e. unfold exchange. destruct (link w) as [|[] l]; try done.
    intros [= <-]. by left.
  - intros _ w e. specialize (Hc (redis w)).
    destruct (c (redis w)) as [[a|e'] s']; cbn [fst] in *; [done|].
    intros [= <-]. by apply Hc.
Qed.

Lemma pipeline_execute_store_error cs : raises_only store_error (pipeline_execute cs).
Proof.
  destruct cs; [apply raises_only_ret|]. apply on_server_store_error.
  apply run_transaction_store_error.
Qed.

(** *** The whole of [mget] *)

Lemma misses_filter (g : nat → option string) locs :
  misses locs (g <$> locs) = filter (λ l, g l = None) locs.
Proof.
  induction locs as [|l locs IH]; [done|].
  rewrite fmap_cons, filter_cons. cbn [misses]. destruct (g l) eqn:E.
  - by rewrite decide_False.
  - rewrite decide_True by done. by f_equal.
Qed.

Lemma foldl_store_result_cases ix ps (m : gmap nat pyobj) k :
  ((k ∉ ix <$> ps.*1) ∧ foldl (store_result ix) m ps !! k = m !! k) ∨
  (∃ l r, (l, r) ∈ ps ∧ ix l = k ∧ foldl (store_result ix) m ps !! k = Some r).
Proof.
  revert m. induction ps as [|[l r] ps IH]; intros m.
  - left. split; [apply not_elem_of_nil|done].
  - cbn [foldl]. destruct (IH (store_result ix m (l, r))) as [[Hk Heq]|(l' & r' & Hin & Hl' & Heq)].
    + rewrite Heq. unfold store_result. cbn [fst snd].
      destruct (decide (ix l = k)) as [Hl|Hl].
      * right. exists l, r. rewrite Hl, lookup_insert_eq.
        split_and!; [apply list_elem_of_here|done..].
      * left. rewrite lookup_insert_ne by done. split; [|done].
        rewrite !fmap_cons. cbn [fst]. apply list.not_elem_of_cons. done.
    + right. exists l', r'. split_and!; [by apply list_elem_of_further|done..].
Qed.

Lemma NoDup_fst_zip {A B} (l : list A) (k : list B) : NoDup l → NoDup (zip l k).*1.
Proof.
  revert k. induction l as [|x l IH]; intros [|y k] Hnd; [apply NoDup_nil_2..|].
  apply list.NoDup_cons in Hnd as [Hx Hnd].
  cbn [zip zip_with]. rewrite fmap_cons. apply list.NoDup_cons. split; [|by apply IH].
  intros [[x' y'] [Hx' Hin]]%list_elem_of_fmap. cbn [fst] in Hx'. subst x'.
  apply Hx. by apply elem_of_zip_l in Hin.
Qed.

Lemma omap_id_fmap {A B} (f : A → option B) (l : list A) :
  omap id (f <$> l) = omap f l.
Proof.
  induction l as [|x l IH]; [done|]. rewrite fmap_cons. cbn.
  destruct (f x); cbn; by rewrite <-IH.
Qed.

Section mget.
Context (self : RedisCache) (fns : nat → CacheDecorator).
Context (locs : list nat) (w : world).

Let miss (l : nat) : Prop := cached (call_key fns (heap w) l) (redis w) = None.
Let fn (l : nat) : nat := d_fn (heap w l).

Let rs : list (option string) :=
  (λ l, cached (call_key fns (heap w) l) (redis w)) <$> locs.
Let gs : list (nat * list nat) :=
  foldl (λ g l, group_append (fn l) l g) [] (misses locs rs).

Lemma elem_of_misses l : l ∈ misses locs rs ↔ l ∈ locs ∧ miss l.
Proof. unfold rs. rewrite misses_filter, list_elem_of_filter. tauto. Qed.

Lemma elem_of_miss_group f l :
  l ∈ miss_group fns w locs f ↔ l ∈ locs ∧ miss l ∧ fn l = f.
Proof. unfold miss_group. rewrite list_elem_of_filter. unfold miss, fn. tauto. Qed.

Lemma groups_grouped : grouped fn (misses locs rs) gs.
Proof. apply (grouped_foldl fn [] (misses locs rs) []), grouped_nil. Qed.

Lemma groups_miss_group f ls :
  (f, ls) ∈ gs → ls = miss_group fns w locs f ∧ ∃ l, l ∈ ls.
Proof.
  intros Hin. destruct groups_grouped as (_ & Hg & _).
  destruct (Hg f ls Hin) as [-> Hne]. split.
  - unfold rs. rewrite misses_filter, list_filter_filter. unfold miss_group.
    apply list_filter_iff. intros l. unfold fn. tauto.
  - destruct (filter _ _) as [|l ls]; [done|]. exists l. apply list_elem_of_here.
Qed.

Lemma assembled_lookup h2 ix k :
  NoDup locs →
  settled (heap w) h2 →
  (∀ j l, locs !! j = Some l → miss l → ix l = j) →
  answerable fns locs w →
  foldl (store_result ix) (hits self 0 rs ∅) (writes fns h2 gs) !! k
  = locs !! k ≫= expected self fns w locs.
Proof.
  intros Hnd Hs Hix Hans.
  set (W := λ l r, miss l ∧ l ∈ locs ∧
    ∃ items, recomputed fns (heap w) (fn l) (miss_group fns w locs (fn l)) = Some items ∧
             (l, r) ∈ zip (miss_group fns w locs (fn l)) items).
  assert (∀ l r, (l, r) ∈ writes fns h2 gs ↔ W l r) as HW.
  { intros l r. unfold writes. rewrite list_elem_of_bind. split.
    - intros ([f ls] & Hin & Hgs). cbn [fst snd] in Hin.
      destruct (groups_miss_group f ls Hgs) as [-> _].
      assert (l ∈ miss_group fns w locs f) as Hl by (by apply elem_of_zip_l in Hin).
      apply elem_of_miss_group in Hl as (Hl & Hmiss & Hf).
      rewrite (settled_recomputed _ _ _ _ _ Hs) in Hin.
      destruct (Hans l Hl Hmiss) as (_ & _ & [items Hit]).
      unfold W. rewrite Hf. unfold fn in Hf. rewrite Hf in Hit.
      rewrite Hit in Hin. split_and!; eauto.
    - intros (Hmiss & Hl & items & Hit & Hin).
      destruct groups_grouped as (_ & _ & Hgin).
      assert (fn l ∈ gs.*1) as [[f ls] [Hf Hgs]]%list_elem_of_fmap.
      { apply Hgin, elem_of_misses. done. }
      cbn [fst] in Hf. subst f. destruct (groups_miss_group _ _ Hgs) as [-> _].
      eexists. split; [|exact Hgs]. cbn [fst snd].
      by rewrite (settled_recomputed _ _ _ _ _ Hs), Hit. }
  assert (∀ l r, W l r → locs !! ix l = Some l) as HWix.
  { intros l r (Hmiss & [j Hj]%list_elem_of_lookup & _). by rewrite (Hix j l Hj Hmiss). }
  assert (hits self 0 rs ∅ !! k =
          locs !! k ≫= λ l, rc_deserializer self <$>
                              cached (call_key fns (heap w) l) (redis w)) as Hhits.
  { rewrite hits_lookup, decide_True, Nat.sub_0_r by lia. unfold rs.
    rewrite list_lookup_fmap. destruct (locs !! k) as [l|]; [|done].
    cbn. by destruct (cached _ _). }
  destruct (foldl_store_result_cases ix (writes fns h2 gs) (hits self 0 rs ∅) k)
    as [[Hk ->]|(l & r & Hin & Hl & ->)].
  - rewrite Hhits. destruct (locs !! k) as [l|] eqn:Hlk; [|done]. cbn.
    unfold expected. destruct (cached _ _) eqn:Hc; [done|]. cbn. fold (fn l).
    destruct (recomputed _ _ _ _) as [items|] eqn:Hit; [|done].
    symmetry. apply not_elem_of_list_to_map_1.
    intros [[l' r] [Hl' Hin]]%list_elem_of_fmap. cbn [fst] in Hl'. subst l'.
    apply Hk. apply list_elem_of_fmap. exists l. split; [symmetry; by apply Hix|].
    apply list_elem_of_fmap. exists (l, r). split; [done|].
    apply HW. split_and!; [done|by eapply list_elem_of_lookup_2|eauto].
  - apply HW in Hin. pose proof (HWix _ _ Hin) as Hlk. rewrite Hl in Hlk.
    rewrite Hlk. cbn. destruct Hin as (Hmiss & _ & items & Hit & Hin).
    unfold expected. unfold miss in Hmiss. rewrite Hmiss.
    fold (fn l). rewrite Hit. symmetry. apply elem_of_list_to_map_1; [|done].
    apply NoDup_fst_zip. by apply list.NoDup_filter.
Qed.

Lemma mget_spec :
  NoDup locs → locs ≠ [] → answerable fns locs w →
  match (mget self fns locs w).1 with
  | Ok results => results = omap (expected self fns w locs) locs
  | Raise e => store_error e
  end.
Proof.
  intros Hnd Hne Hans. unfold mget.
  destruct (mget_keys_spec fns locs w) as (h1 & Hkeys & Hs1 & Hr1).
  unfold eff_bind at 1. rewrite Hkeys.
  set (keys := call_key fns (heap w) <$> locs).
  assert (client_mget keys = on_server [MGET keys] (redis_MGET keys)) as ->.
  { unfold keys. by destruct locs. }
  unfold eff_bind at 1.
  destruct (decide (head (link w) = Some false)) as [Hlink|Hre].
  { unfold on_server, eff_bind at 1, exchange. cbn [link set_heap].
    destruct (link w) as [|[] lk]; try done. by left. }
  rewrite on_server_reachable by done.
  cbn [fst snd redis_MGET redis set_heap].
  assert ((λ k, match lookup_key k (redis w) with
                | Some (RString v _) => Some v
                | _ => None
                end) <$> keys = rs) as ->.
  { unfold keys, rs. by rewrite <-list_fmap_compose. }
  set (w2 := set_redis (redis w) (exchanged [MGET keys] (set_heap h1 w))).
  destruct (mget_classify_spec self fn locs locs 0 rs ∅ false [] w2)
    as (h2 & Hcl & Hs2 & Hidx & _);
    [unfold rs; by rewrite length_fmap|done|done|intros l; apply Hs1|].
  unfold eff_bind at 1. rewrite Hcl. cbn [heap set_heap set_redis exchanged set_served set_link w2] in Hs2, Hidx.
  fold gs.
  set (ix := λ l, default 0%nat (d_call_idx (h2 l))).
  assert (∀ j l, locs !! j = Some l → miss l → d_call_idx (h2 l) = Some j) as Hcall.
  { intros j l Hj Hm. apply (Hidx j l Hj). unfold rs.
    rewrite list_lookup_fmap, Hj. cbn. by rewrite Hm. }
  assert (∀ j l, locs !! j = Some l → miss l → ix l = j) as Hix.
  { intros j l Hj Hm. unfold ix. by rewrite (Hcall j l). }
  assert (settled (heap w) h2) as Hs by (by eapply settled_trans).
  assert (sorted_values (foldl (store_result ix) (hits self 0 rs ∅) (writes fns h2 gs))
          = omap (expected self fns w locs) locs) as Hsorted.
  { rewrite (sorted_values_spec _ (expected self fns w locs <$> locs)).
    - apply omap_id_fmap.
    - intros k. rewrite (assembled_lookup h2 ix k Hnd Hs Hix Hans), list_lookup_fmap.
      by destruct (locs !! k). }
  destruct (decide (misses locs rs = [])) as [HM|HM].
  - rewrite bool_decide_false by (by intros ?). cbn [orb].
    unfold gs at 1 in Hsorted. unfold gs. rewrite HM in *. cbn [foldl] in *.
    cbv beta iota. exact Hsorted.
  - rewrite bool_decide_true by done. cbn [orb]. cbv beta iota.
    destruct (mget_recompute_spec self fns keys ix gs [] (hits self 0 rs ∅) (set_heap h2 w2))
      as (cs & cmds & Hrec).
    { intros f ls Hin. destruct (groups_miss_group f ls Hin) as [-> [l0 Hl0]].
      apply elem_of_miss_group in Hl0 as (Hl0 & Hm0 & Hf0).
      destruct (Hans l0 Hl0 Hm0) as (Ho & Hk & Hrc). unfold fn in Hf0. rewrite Hf0 in *.
      cbn [heap set_heap]. rewrite (settled_recomputed _ _ _ _ _ Hs).
      split_and!; [done..| |].
      - intros l [Hl _]%elem_of_miss_group. by apply (settled_ready h1 h2 locs).
      - intros l (Hl & Hm & _)%elem_of_miss_group.
        apply list_elem_of_lookup in Hl as [j Hj].
        rewrite (Hix j l Hj Hm). split; [by apply Hcall|].
        unfold keys. rewrite list_lookup_fmap, Hj. by eexists. }
    unfold eff_bind at 1. rewrite Hrec. cbv beta iota. unfold eff_bind at 1.
    rewrite app_nil_l.
    pose proof (pipeline_execute_store_error cmds (set_calls cs (set_heap h2 w2))) as Hpe.
    destruct (pipeline_execute cmds _) as [[rp|e] w']; cbn [fst] in *.
    + exact Hsorted.
    + by apply Hpe.
Qed.
End mget.

(** *** Key derivation *)

Lemma b64_digit_char n : b64_char (b64_digit n).
Proof.
  unfold b64_char, b64_digit.
  destruct (nth_in_or_default (N.to_nat n) b64_alphabet "="%char) as [H|H].
  - left. by apply list_elem_of_In.
  - by right.
Qed.

Lemma b64_groups_spec n bs :
  (length bs < n)%nat →
  Forall b64_char (b64_groups bs) ∧
  ∃ q, length (b64_groups bs) = (4 * q)%nat ∧ (length bs ≤ 3 * q < length bs + 3)%nat.
Proof.
  revert bs. induction n as [|n IH]; intros bs Hn; [lia|].
  destruct bs as [|a [|b [|c rest]]]; cbn [b64_groups].
  - split; [constructor|]. exists 0%nat. simpl. lia.
  - split; [|exists 1%nat; simpl; lia].
    repeat (constructor; [first [apply b64_digit_char|by right]|]). constructor.
  - split; [|exists 1%nat; simpl; lia].
    repeat (constructor; [first [apply b64_digit_char|by right]|]). constructor.
  - destruct (IH rest) as [Hall (q & Hlen & Hq)]; [simpl in Hn; lia|].
    split; [|exists (S q); simpl in *; lia].
    repeat (constructor; [apply b64_digit_char|]). done.
Qed.

Lemma b64encode_spec b :
  Forall b64_char (chars (b64encode b)) ∧
  ∃ q, String.length (b64encode b) = (4 * q)%nat ∧
       (String.length b ≤ 3 * q < String.length b + 3)%nat.
Proof.
  unfold b64encode.
  assert (∀ s, String.length s = length (chars s)) as Hlen.
  { induction s; simpl; congruence. }
  rewrite !Hlen, String.list_ascii_of_string_of_list_ascii.
  apply (b64_groups_spec (S (length (chars b)))). lia.
Qed.

(** *** The index against the store *)

(** *** Eviction *)

(** C2, the failing input: with a limit of two, [A], [B] and [C] are inserted
    5, 25 and 125 microseconds after the same second. [TIME] gives the
    microseconds as the integers 5, 25 and 125, the script reads the texts
    [1.5], [1.25] and [1.125] as the scores, and the entry it evicts is the
    one with the lowest score: [C], the newest. The index is left with [A]
    and [B], and it is the value of [C] that is absent from the store. *)
Theorem newest_entry_evicted_within_a_second :
  let s := insertions "rc:app.f:keys" 0 2 empty_server
             [(1000005, "rc:app.f:A", "1"); (1000025, "rc:app.f:B", "2");
              (1000125, "rc:app.f:C", "3")] in
  size (index "rc:app.f:keys" s) = 2%nat ∧
  index "rc:app.f:keys" s !! "rc:app.f:A" = Some 1500000 ∧
  index "rc:app.f:keys" s !! "rc:app.f:B" = Some 1250000 ∧
  index "rc:app.f:keys" s !! "rc:app.f:C" = None ∧
  cached "rc:app.f:A" s = Some "1" ∧
  cached "rc:app.f:B" s = Some "2" ∧
  cached "rc:app.f:C" s = None.
Proof. vm_compute. split_and!; reflexivity. Qed.

(** The scenario with whole seconds: [A] at 1 s, [B] at 2 s, [C] at 3 s. The
    index is left with [B] and [C], and [A] has no value. *)
Lemma oldest_entry_evicted_at_whole_seconds :
  let s := insertions "rc:app.f:keys" 0 2 empty_server
             [(1000000, "rc:app.f:A", "1"); (2000000, "rc:app.f:B", "2");
              (3000000, "rc:app.f:C", "3")] in
  size (index "rc:app.f:keys" s) = 2%nat ∧
  index "rc:app.f:keys" s !! "rc:app.f:A" = None ∧
  index "rc:app.f:keys" s !! "rc:app.f:B" = Some 2000000 ∧
  index "rc:app.f:keys" s !! "rc:app.f:C" = Some 3000000 ∧
  cached "rc:app.f:A" s = None ∧
  cached "rc:app.f:B" s = Some "2" ∧
  cached "rc:app.f:C" s = Some "3".
Proof. vm_compute. split_and!; reflexivity. Qed.

(** *** The single-call path *)

(** C5, the failing input: [middle_name] returns the empty string, which the
    cache stores as it is. After the first call the store holds the value
    and is reachable; the second call with the same argument reads it, takes
    the empty value for a miss, and invokes the computation again. *)
Theorem empty_value_is_recomputed :
  let key := get_key cached_middle_name [PyStr "ann"] [] in
  let first := inner cached_middle_name middle_name [PyStr "ann"] [] empty_world in
  let second := inner cached_middle_name middle_name [PyStr "ann"] [] first.2 in
  first.1 = Ok (PyStr "") ∧
  cached key (redis first.2) = Some "" ∧
  reachable first.2 ∧
  second.1 = Ok (PyStr "") ∧
  calls second.2 = [Invocation "app" "middle_name" [PyStr "ann"] [];
                    Invocation "app" "middle_name" [PyStr "ann"] []].
Proof. vm_compute. split_and!; try reflexivity. discriminate. Qed.

(** *** What [mget] returns *)

Lemma length_omap_filter {A B} (f : A → option B) (l : list A) :
  (length (omap f l) + length (filter (λ x, f x = None) l))%nat = length l.
Proof.
  induction l as [|x l IH]; [done|]. rewrite filter_cons. cbn [omap list_omap].
  fold (omap (M:=list) f). destruct (f x) eqn:E.
  - rewrite decide_False by done. cbn [length]. lia.
  - rewrite decide_True by done. cbn [length]. lia.
Qed.

Lemma fst_zip_take {A B} (l : list A) (k : list B) : (zip l k).*1 = take (length k) l.
Proof.
  revert k. induction l as [|x l IH]; intros [|y k]; try done.
  cbn [zip zip_with length take]. rewrite fmap_cons. cbn [fst]. f_equal. apply IH.
Qed.

Lemma fmap_Some_omap {A B} (f : A → option B) (l : list A) :
  (∀ x, x ∈ l → is_Some (f x)) → Some <$> omap f l = f <$> l.
Proof.
  induction l as [|x l IH]; intros Hl; [done|].
  destruct (Hl x) as [y Hy]; [apply list_elem_of_here|].
  cbn [omap list_omap]. fold (omap (M:=list) f). rewrite Hy, !fmap_cons, Hy. cbn.
  f_equal. apply IH. intros x' Hx'. apply Hl. by apply list_elem_of_further.
Qed.

Lemma expected_None self fns locs w l items :
  cached (call_key fns (heap w) l) (redis w) = None →
  recomputed fns (heap w) (d_fn (heap w l)) (miss_group fns w locs (d_fn (heap w l)))
    = Some items →
  expected self fns w locs l = None ↔
    l ∉ take (length items) (miss_group fns w locs (d_fn (heap w l))).
Proof.
  intros Hc Hit. unfold expected. rewrite Hc. cbn zeta. rewrite Hit.
  rewrite <-fst_zip_take. symmetry. apply not_elem_of_list_to_map.
Qed.

(** C4, as the code has it: for a batch of distinct dictionaries whose
    misses can be recomputed, [mget] makes no check that every slot was
    populated. What it returns is the populated slots in the order of the
    request: for a hit the deserialized cached value, for a miss the result
    that [zip] pairs with it in its miss group. A miss beyond the number of
    results the recomputation returned for its group is left out, the answer
    is then shorter than the request, and no error is raised for it: the
    only errors raised are those of the store. *)
Theorem mget_drops_unpopulated_slots self fns locs w :
  NoDup locs → locs ≠ [] → answerable fns locs w →
  match (mget self fns locs w).1 with
  | Ok results =>
      results = omap (expected self fns w locs) locs ∧
      ((length results < length locs)%nat ↔
       ∃ l, l ∈ locs ∧ expected self fns w locs l = None) ∧
      (∀ l items,
         cached (call_key fns (heap w) l) (redis w) = None →
         recomputed fns (heap w) (d_fn (heap w l))
           (miss_group fns w locs (d_fn (heap w l))) = Some items →
         expected self fns w locs l = None ↔
           l ∉ take (length items) (miss_group fns w locs (d_fn (heap w l))))
  | Raise e => store_error e
  end.
Proof.
  intros Hnd Hne Hans. pose proof (mget_spec self fns locs w Hnd Hne Hans) as H.
  destruct (mget self fns locs w).1 as [results|e]; [|done].
  split_and!; [done| |by apply expected_None].
  pose proof (length_omap_filter (expected self fns w locs) locs) as Hlen.
  rewrite <-H in Hlen. split.
  - intros Hlt. destruct (filter _ locs) as [|l ls] eqn:E; [simpl in Hlen; lia|].
    assert (l ∈ filter (λ x, expected self fns w locs x = None) locs) as Hl.
    { rewrite E. apply list_elem_of_here. }
    apply list_elem_of_filter in Hl as [Hl1 Hl2]. eauto.
  - intros (l & Hl & Hx).
    assert (l ∈ filter (λ x, expected self fns w locs x = None) locs) as Hl'.
    { by apply list_elem_of_filter. }
    destruct (filter _ locs); [by apply elem_of_nil in Hl'|]. simpl in Hlen. lia.
Qed.

(** The order of the request is kept, and every slot is populated, when the
    dictionaries are distinct and every recomputation returns at least as
    many results as its miss group has members (which a function that is not
    batch-capable always does). *)
Theorem mget_order_preserved self fns locs w results :
  NoDup locs → locs ≠ [] → answerable fns locs w →
  (∀ l items,
     l ∈ locs → cached (call_key fns (heap w) l) (redis w) = None →
     recomputed fns (heap w) (d_fn (heap w l))
       (miss_group fns w locs (d_fn (heap w l))) = Some items →
     (length (miss_group fns w locs (d_fn (heap w l))) ≤ length items)%nat) →
  (mget self fns locs w).1 = Ok results →
  length results = length locs ∧
  ∀ i l, locs !! i = Some l → results !! i = expected self fns w locs l.
Proof.
  intros Hnd Hne Hans Hlen Hres.
  pose proof (mget_spec self fns locs w Hnd Hne Hans) as H. rewrite Hres in H.
  assert (Some <$> results = expected self fns w locs <$> locs) as Heq.
  { rewrite H. apply fmap_Some_omap. intros l Hl.
    destruct (cached (call_key fns (heap w) l) (redis w)) as [v|] eqn:Hc.
    - unfold expected. rewrite Hc. eauto.
    - destruct (Hans l Hl Hc) as (_ & _ & [items Hit]).
      apply not_eq_None_Some. rewrite (expected_None _ _ _ _ _ items) by done.
      intros Hnot. apply Hnot. rewrite take_ge by eauto.
      apply list_elem_of_filter. done. }
  split.
  - by rewrite <-(length_fmap Some results), Heq, length_fmap.
  - intros i l Hi.
    assert ((Some <$> results) !! i = Some (expected self fns w locs l)) as Hi'.
    { by rewrite Heq, list_lookup_fmap, Hi. }
    rewrite list_lookup_fmap in Hi'. destruct (results !! i); by simplify_eq/=.
Qed.

Lemma two_calls_answerable (d : CacheDecorator) :
  is_Some (original_fn d) → is_Some (keys_key d) →
  (∀ ls, is_Some (recomputed (λ _, d) (heap two_calls_world) 0 ls)) →
  answerable (λ _, d) [0%nat; 1%nat] two_calls_world.
Proof.
  intros Ho Hk Hr l Hl _.
  assert (d_fn (heap two_calls_world l) = 0%nat) as -> by (by destruct l).
  done.
Qed.

(** C4, where the claim fails: both calls miss, the batch function returns
    one result for the two of them, and [mget] returns that one result.
    Nothing is raised. *)
Lemma short_batch_result_is_not_an_error :
  let fns := λ _ : nat, cached_first_only in
  miss_group fns two_calls_world [0%nat; 1%nat] 0 = [0%nat; 1%nat] ∧
  recomputed fns (heap two_calls_world) 0 [0%nat; 1%nat] = Some [PyList [PyStr "a"]] ∧
  (mget text_cache fns [0%nat; 1%nat] two_calls_world).1 = Ok [PyList [PyStr "a"]].
Proof. vm_compute. split_and!; reflexivity. Qed.

(** The batch of two calls of [first_only], which are both misses. *)
Lemma mget_drops_unpopulated_slots_witness :
  match (mget text_cache (λ _, cached_first_only) [0%nat; 1%nat] two_calls_world).1 with
  | Ok results =>
      results = omap (expected text_cache (λ _, cached_first_only) two_calls_world
                        [0%nat; 1%nat]) [0%nat; 1%nat] ∧
      ((length results < 2)%nat ↔
       ∃ l, l ∈ [0%nat; 1%nat] ∧
            expected text_cache (λ _, cached_first_only) two_calls_world
              [0%nat; 1%nat] l = None) ∧
      (∀ l items,
         cached (call_key (λ _, cached_first_only) (heap two_calls_world) l)
           (redis two_calls_world) = None →
         recomputed (λ _, cached_first_only) (heap two_calls_world)
           (d_fn (heap two_calls_world l))
           (miss_group (λ _, cached_first_only) two_calls_world [0%nat; 1%nat]
              (d_fn (heap two_calls_world l))) = Some items →
         expected text_cache (λ _, cached_first_only) two_calls_world
           [0%nat; 1%nat] l = None ↔
           l ∉ take (length items)
                 (miss_group (λ _, cached_first_only) two_calls_world [0%nat; 1%nat]
                    (d_fn (heap two_calls_world l))))
  | Raise e => store_error e
  end.
Proof.
  apply (mget_drops_unpopulated_slots text_cache (λ _, cached_first_only)
           [0%nat; 1%nat] two_calls_world).
  - refine (bool_decide_unpack _ _). vm_compute. exact I.
  - discriminate.
  - apply two_calls_answerable.
    + simpl. eauto.
    + simpl. eauto.
    + intros ls. unfold recomputed. simpl.
      destruct (fmap _ ls) as [|x xs]; simpl; eauto.
Defined.

(** C3, the failing input: the same dictionary is passed twice, and the store
    is empty. Both positions are misses; [call_idx] is an entry of the
    dictionary, so the second position overwrites the first, both results
    are written to slot 1, and the answer to a batch of two has one element.
    Two dictionaries with the same contents get two results. *)
Theorem mget_same_dictionary_twice :
  (mget text_cache (λ _, cached_shout) [0%nat; 0%nat] two_calls_world).1
    = Ok [PyStr "a!"] ∧
  (mget text_cache (λ _, cached_shout) [0%nat; 1%nat] two_calls_world).1
    = Ok [PyStr "a!"; PyStr "b!"].
Proof. vm_compute. split; reflexivity. Qed.

(** The batch of two calls of [shout], which are both misses. *)
Lemma mget_order_preserved_witness :
  length [PyStr "a!"; PyStr "b!"] = length [0%nat; 1%nat] ∧
  ∀ i l, [0%nat; 1%nat] !! i = Some l →
         [PyStr "a!"; PyStr "b!"] !! i =
           expected text_cache (λ _, cached_shout) two_calls_world [0%nat; 1%nat] l.
Proof.
  apply (mget_order_preserved text_cache (λ _, cached_shout) [0%nat; 1%nat]
           two_calls_world [PyStr "a!"; PyStr "b!"]).
  - refine (bool_decide_unpack _ _). vm_compute. exact I.
  - discriminate.
  - apply two_calls_answerable.
    + simpl. eauto.
    + simpl. eauto.
    + intros ls. unfold recomputed. simpl. eauto.
  - intros l items _ _. unfold recomputed. simpl. intros [= <-].
    by rewrite length_fmap.
  - vm_compute. reflexivity.
Defined.

(** *** Invalidation *)

(** ** Further properties *)

(** *** The order of a sorted set *)

Lemma zset_le_trans : Transitive zset_le.
Proof.
  intros a b c [H1|[H1 H1']] [H2|[H2 H2']]; unfold zset_le.
  - left. lia.
  - left. lia.
  - left. lia.
  - right. split; [lia|]. by etrans.
Qed.

Lemma zset_le_total : Total zset_le.
Proof.
  intros a b. unfold zset_le.
  destruct (Z.lt_trichotomy a.2 b.2) as [?|[?|?]]; [by left; left| |by right; left].
  destruct (total String.le a.1 b.1); [left|right]; right; done.
Qed.

Lemma zset_le_antisym a b : zset_le a b → zset_le b a → a = b.
Proof.
  intros [H1|[H1 H1']] [H2|[H2 H2']]; try lia.
  destruct a, b; simpl in *. f_equal; [|done]. by apply (anti_symm String.le).
Qed.

Lemma zset_entries_sorted (W : list (string * Z)) :
  NoDup W.*1 → StronglySorted (λ a b, a.2 < b.2) W →
  zset_entries (list_to_map W) = W.
Proof.
  intros Hnd Hs. unfold zset_entries.
  apply (StronglySorted_unique_strong zset_le).
  - intros x1 x2 _ _. apply zset_le_antisym.
  - apply (@StronglySorted_merge_sort _ zset_le _ zset_le_trans zset_le_total).
  - clear Hnd. induction Hs as [|x l Hs IH Hx]; constructor; [done|].
    eapply list.Forall_impl; [exact Hx|]. intros y Hy. by left.
  - rewrite merge_sort_Permutation. by apply map_to_list_to_map.
Qed.

Lemma foldr_delete_take (X : list (string * Z)) j :
  NoDup X.*1 →
  foldr delete (list_to_map X : gmap string Z) (take j X).*1 = list_to_map (drop j X).
Proof.
  intros Hnd. apply map_eq. intros k. rewrite lookup_foldr_delete.
  assert (NoDup ((take j X).*1 ++ (drop j X).*1)) as Hnd'.
  { by rewrite <-fmap_app, take_drop. }
  apply list.NoDup_app in Hnd' as (_ & Hdisj & _).
  assert (list_to_map X !! k
          = (list_to_map (take j X) ∪ list_to_map (drop j X) : gmap string Z) !! k) as ->.
  { by rewrite <-list_to_map_app, take_drop. }
  destruct (decide (k ∈ (take j X).*1)) as [Hin|Hin].
  - symmetry. apply not_elem_of_list_to_map_1. by apply Hdisj.
  - rewrite lookup_union_r; [done|]. by apply not_elem_of_list_to_map_1.
Qed.

Lemma last_n_snoc {A} (n : nat) (l : list A) x :
  (0 < n)%nat →
  last_n n (l ++ [x]) = drop (length (last_n n l) + 1 - n) (last_n n l ++ [x]).
Proof.
  intros Hn. unfold last_n. rewrite length_app, length_drop. cbn [length].
  destruct (decide (length l < n)%nat) as [Hlt|Hge].
  - replace (length l + 1 - n)%nat with 0%nat by lia.
    replace (length l - n)%nat with 0%nat by lia.
    replace (length l - 0 + 1 - n)%nat with 0%nat by lia. done.
  - replace (length l - (length l - n) + 1 - n)%nat with 1%nat by lia.
    replace (length l + 1 - n)%nat with (S (length l - n)) by lia.
    rewrite drop_app_le by lia.
    rewrite (drop_app_le (drop _ l)) by (rewrite length_drop; lia).
    by rewrite drop_drop, Nat.add_1_r.
Qed.

Lemma last_n_length {A} (n : nat) (l : list A) :
  length (last_n n l) = (length l `min` n)%nat.
Proof. unfold last_n. rewrite length_drop. lia. Qed.

Lemma elem_of_last_n {A} (n : nat) (l : list A) x : x ∈ last_n n l → x ∈ l.
Proof. unfold last_n. intros [i Hi]%list_elem_of_lookup. rewrite lookup_drop in Hi.
  by eapply list_elem_of_lookup_2. Qed.

(** *** Eviction when the scores increase *)

Lemma insertions_snoc idx ttl L s ops op :
  insertions idx ttl L s (ops ++ [op]) = insert_at idx ttl L (insertions idx ttl L s ops) op.
Proof. unfold insertions. by rewrite foldl_app. Qed.

Lemma last_n_fmap {A B} (f : A → B) n (l : list A) : last_n n (f <$> l) = f <$> last_n n l.
Proof. unfold last_n. by rewrite fmap_drop, length_fmap. Qed.

Lemma insertions_window idx ttl L s ops :
  L > 0 → db s !! idx = None →
  NoDup (scored ops).*1 → idx ∉ (scored ops).*1 →
  StronglySorted (λ a b, a.2 < b.2) (scored ops) →
  let s' := insertions idx ttl L s ops in
  let W := last_n (Z.to_nat L) (scored ops) in
  db s' !! idx = (if decide (W = []) then None else Some (RZset (list_to_map W))) ∧
  ∀ t k v, (t, k, v) ∈ ops →
    db s' !! k = if decide (k ∈ W.*1) then Some (RString v (expiry ttl t)) else None.
Proof.
  intros HL Hs. induction ops as [|[[t k] v] ops IH] using rev_ind; intros Hnd Hidx Hsorted.
  { cbn. split; [done|]. intros t k v []%elem_of_nil. }
  unfold scored in Hnd, Hidx, Hsorted. rewrite fmap_app in Hnd, Hidx, Hsorted.
  cbn [fmap list_fmap fst snd] in Hnd, Hidx, Hsorted. fold (scored ops) in Hnd, Hidx, Hsorted.
  rewrite fmap_app in Hnd, Hidx. cbn [fmap list_fmap fst] in Hnd, Hidx.
  apply list.NoDup_app in Hnd as (Hnd & Hk & _).
  assert (k ∉ (scored ops).*1) as Hk'.
  { intros Hin. apply (Hk k Hin). apply list_elem_of_here. }
  clear Hk.
  apply list.not_elem_of_app in Hidx as [Hidx Hik].
  apply list.not_elem_of_cons in Hik as [Hik _].
  apply StronglySorted_app in Hsorted as (Hlt & Hsorted & _).
  specialize (IH Hnd Hidx Hsorted). cbv zeta in IH. destruct IH as [IHidx IHval].
  cbv zeta. rewrite insertions_snoc.
  set (s1 := insertions idx ttl L s ops) in *.
  set (W := last_n (Z.to_nat L) (scored ops)) in *.
  set (sc := score_at t).
  assert (scored (ops ++ [(t, k, v)]) = scored ops ++ [(k, sc)]) as Hscored.
  { unfold scored. by rewrite fmap_app. }
  rewrite Hscored, last_n_snoc by lia. fold W.
  set (X := W ++ [(k, sc)]).
  set (j := (length W + 1 - Z.to_nat L)%nat).
  assert (∀ x, x ∈ W → x ∈ scored ops) as HW by (intros x; apply elem_of_last_n).
  assert (k ∉ W.*1) as HkW.
  { intros [x [-> Hx]]%list_elem_of_fmap. apply Hk'. apply list_elem_of_fmap.
    exists x. split; [done|]. by apply HW. }
  assert (NoDup W.*1) as HndW.
  { unfold W, last_n. rewrite fmap_drop.
    eapply sublist_NoDup; [exact Hnd|apply sublist_drop]. }
  assert (NoDup X.*1) as HndX.
  { unfold X. rewrite fmap_app. apply list.NoDup_app. split_and!; [done| |apply NoDup_singleton].
    intros x Hx Hx'. apply list_elem_of_singleton in Hx'. by subst. }
  assert (StronglySorted (λ a b, a.2 < b.2) X) as HsX.
  { unfold X. apply StronglySorted_app_2.
    - intros x1 x2 Hx1 Hx2. apply Hlt; [by apply HW|done].
    - unfold W, last_n.
      rewrite <-(take_drop (length (scored ops) - Z.to_nat L) (scored ops)) in Hsorted.
      by apply StronglySorted_app_1_r in Hsorted.
    - repeat constructor. }
  set (sC := set_clock t s1).
  assert (zset_at idx (written k v ttl sC) = Some (list_to_map W)) as Hz.
  { unfold zset_at, lookup_key, written; cbn [db set_db clock set_clock sC].
    rewrite lookup_insert_ne by done. fold s1. rewrite IHidx.
    destruct (decide (W = [])) as [->|_]; done. }
  change (insert_at idx ttl L s1 (t, k, v)) with (cache_lua_fn k idx v ttl L sC).2.
  rewrite (cache_lua_fn_trim k idx v ttl L sC _ HL Hz). cbn [snd].
  change (now_score sC) with sc.
  assert (<[k := sc]> (list_to_map W) = (list_to_map X : gmap string Z)) as ->.
  { unfold X. by rewrite list_to_map_snoc. }
  assert (size (list_to_map X : gmap string Z) = length X) as ->.
  { by rewrite <-zset_entries_length, zset_entries_sorted. }
  rewrite zset_entries_sorted by done.
  assert (Z.to_nat (Z.of_nat (length X) - L) = j) as ->.
  { unfold X, j. rewrite length_app. simpl. lia. }
  rewrite foldr_delete_take by done.
  set (W' := drop j X).
  assert (W' ≠ []) as HW'.
  { intros E. apply (f_equal length) in E. unfold W', X, j, W in E.
    rewrite length_drop, length_app, last_n_length in E. simpl in E. lia. }
  assert (∀ x, x ∈ (take j X).*1 → x ∈ W'.*1 → False) as Hdisj.
  { assert (NoDup ((take j X).*1 ++ W'.*1)) as H.
    { unfold W'. by rewrite <-fmap_app, take_drop. }
    apply list.NoDup_app in H as (_ & H & _). intros x H1 H2. by apply (H x). }
  assert (∀ x, x ∈ X.*1 ↔ x ∈ (take j X).*1 ∨ x ∈ W'.*1) as Hsplit.
  { intros x. unfold W'. by rewrite <-list.elem_of_app, <-fmap_app, take_drop. }
  assert (∀ x, x ∈ (take j X).*1 → x ≠ idx) as Hstale.
  { intros x Hx ->. assert (idx ∈ X.*1) as Hin by (apply Hsplit; by left).
    unfold X in Hin. rewrite fmap_app in Hin.
    apply list.elem_of_app in Hin as [Hin|Hin].
    - apply Hidx. apply list_elem_of_fmap in Hin as [x [-> Hx']].
      apply list_elem_of_fmap. exists x. split; [done|]. by apply HW.
    - apply list_elem_of_singleton in Hin. done. }
  unfold written, sC. cbn [db set_db clock set_clock]. split.
  - rewrite decide_False by done. rewrite lookup_foldr_delete.
    rewrite decide_False by (intros Hin; by apply (Hstale idx Hin)).
    by rewrite lookup_insert_eq.
  - intros t' k' v' Hin. rewrite lookup_foldr_delete.
    apply list.elem_of_app in Hin as [Hin|Hin].
    + assert (k' ∈ (scored ops).*1) as Hk'in.
      { apply list_elem_of_fmap. exists (k', score_at t'). split; [done|].
        apply list_elem_of_fmap. by exists (t', k', v'). }
      assert (k' ≠ k) as Hne by (by intros ->).
      assert (k' ≠ idx) as Hne' by (by intros ->).
      rewrite !lookup_insert_ne by done. fold s1. rewrite (IHval t' k' v' Hin).
      assert (k' ∈ X.*1 ↔ k' ∈ W.*1) as HXW.
      { unfold X. rewrite fmap_app, list.elem_of_app. cbn [fmap list_fmap fst].
        rewrite list_elem_of_singleton. naive_solver. }
      destruct (decide (k' ∈ (take j X).*1)) as [Hst|Hst].
      * rewrite decide_False; [done|]. intros ?. by apply (Hdisj k').
      * destruct (decide (k' ∈ W.*1)) as [HinW|HinW].
        -- rewrite decide_True; [done|]. apply HXW, Hsplit in HinW. by destruct HinW.
        -- rewrite decide_False; [done|]. intros ?. apply HinW, HXW, Hsplit. by right.
    + apply list_elem_of_singleton in Hin. injection Hin as -> -> ->.
      assert (k ∈ X.*1) as HkX.
      { unfold X. rewrite fmap_app. apply list.elem_of_app. right. apply list_elem_of_here. }
      destruct (decide (k ∈ (take j X).*1)) as [Hst|Hst].
      * rewrite decide_False; [done|]. intros ?. by apply (Hdisj k).
      * rewrite decide_True by (apply Hsplit in HkX; by destruct HkX).
        rewrite lookup_insert_ne by done. rewrite lookup_insert_eq.
        unfold expiry. done.
Qed.

(** When the scores that the script gives to successive insertions of
    distinct keys increase, the limit keeps the most recent insertions: the
    index holds the last [L] keys with their scores, their values are in
    the store, and the values of all earlier keys are gone. *)
Theorem oldest_first_when_scores_increase idx ttl L s ops :
  L > 0 → db s !! idx = None →
  NoDup (scored ops).*1 → idx ∉ (scored ops).*1 →
  StronglySorted (λ a b, a.2 < b.2) (scored ops) →
  let s' := insertions idx ttl L s ops in
  index idx s' = list_to_map (last_n (Z.to_nat L) (scored ops)) ∧
  (∀ t k v, (t, k, v) ∈ last_n (Z.to_nat L) ops →
     db s' !! k = Some (RString v (expiry ttl t)) ∧
     (¬ ttl > 0 → cached k s' = Some v)) ∧
  (∀ t k v, (t, k, v) ∈ take (length ops - Z.to_nat L) ops →
     db s' !! k = None ∧ cached k s' = None).
Proof.
  intros HL Hs Hnd Hidx Hsorted s'.
  destruct (insertions_window idx ttl L s ops HL Hs Hnd Hidx Hsorted) as [Hi Hv].
  cbv zeta in Hi, Hv. fold s' in Hi, Hv.
  set (W := last_n (Z.to_nat L) (scored ops)) in *.
  assert (∀ t k v, (t, k, v) ∈ last_n (Z.to_nat L) ops → k ∈ W.*1) as Hlast.
  { intros t k v Hin. unfold W, scored. rewrite last_n_fmap.
    apply list_elem_of_fmap. exists (k, score_at t). split; [done|].
    apply list_elem_of_fmap. by exists (t, k, v). }
  assert (∀ t k v, (t, k, v) ∈ take (length ops - Z.to_nat L) ops → k ∉ W.*1) as Hfirst.
  { intros t k v Hin HinW.
    assert (NoDup ((take (length ops - Z.to_nat L) (scored ops)).*1 ++ W.*1)) as H.
    { assert (length (scored ops) = length ops) as Hlen.
      { unfold scored. apply length_fmap. }
      unfold W, last_n. rewrite Hlen. by rewrite <-fmap_app, take_drop. }
    apply list.NoDup_app in H as (_ & H & _). apply (H k); [|done].
    unfold scored. rewrite <-fmap_take.
    apply list_elem_of_fmap. exists (k, score_at t). split; [done|].
    apply list_elem_of_fmap. by exists (t, k, v). }
  split_and!.
  - unfold index, lookup_key. rewrite Hi. by destruct (decide (W = [])) as [->|].
  - intros t k v Hin.
    assert (db s' !! k = Some (RString v (expiry ttl t))) as Hk.
    { rewrite (Hv t k v) by (by eapply elem_of_last_n).
      rewrite decide_True; [done|]. by eapply Hlast. }
    split; [done|]. intros Httl. unfold cached, lookup_key. rewrite Hk.
    unfold expiry. by rewrite bool_decide_false.
  - intros t k v Hin.
    assert (db s' !! k = None) as Hk.
    { rewrite (Hv t k v).
      2:{ apply elem_of_take in Hin as (i & Hlk & _). by eapply list_elem_of_lookup_2. }
      rewrite decide_False; [done|]. by eapply Hfirst. }
    split; [done|]. unfold cached, lookup_key. by rewrite Hk.
Qed.

Lemma score_at_whole_second (n : Z) : score_at (n * 1000000) = n * 1000000.
Proof.
  unfold score_at, lua_time_number.
  rewrite Z.mod_mul, Z.div_mul by done. simpl. lia.
Qed.

(** [A], [B] and [C] at 1 s, 2 s and 3 s, with a limit of two. *)
Lemma oldest_first_when_scores_increase_witness :
  let ops := [(1000000, "rc:app.f:A", "1"); (2000000, "rc:app.f:B", "2");
              (3000000, "rc:app.f:C", "3")] in
  let s' := insertions "rc:app.f:keys" 0 2 empty_server ops in
  index "rc:app.f:keys" s' = list_to_map (last_n (Z.to_nat 2) (scored ops)) ∧
  (∀ t k v, (t, k, v) ∈ last_n (Z.to_nat 2) ops →
     db s' !! k = Some (RString v (expiry 0 t)) ∧
     (¬ 0 > 0 → cached k s' = Some v)) ∧
  (∀ t k v, (t, k, v) ∈ take (length ops - Z.to_nat 2) ops →
     db s' !! k = None ∧ cached k s' = None).
Proof.
  apply (oldest_first_when_scores_increase "rc:app.f:keys" 0 2 empty_server
           [(1000000, "rc:app.f:A", "1"); (2000000, "rc:app.f:B", "2");
            (3000000, "rc:app.f:C", "3")]).
  - lia.
  - reflexivity.
  - refine (bool_decide_unpack _ _). vm_compute. exact I.
  - refine (bool_decide_unpack _ _). vm_compute. exact I.
  - repeat constructor.
Defined.

(** *** A second call *)

(** When the serialized result is not empty and the namespace has no limit,
    the second call is a hit: with the store reachable, a call that missed
    leaves the value in the store, and a second call with the same arguments,
    made before the value expires, returns the deserialized value and does
    not invoke the computation again. *)
Theorem second_call_is_a_hit self fn args kwargs w r t :
  support_batch_call self = false →
  is_Some (keys_key self) →
  ¬ limit self > 0 →
  online w →
  (redis_GET (get_key self args kwargs) (redis w)).1 = Ok r → falsy r = true →
  wire (serializer self (fn_body fn args kwargs)) ≠ "" →
  (ttl self > 0 → t < clock (redis w) + ttl self * 1000000) →
  let result := fn_body fn args kwargs in
  let first := inner self fn args kwargs w in
  let second := inner self fn args kwargs (at_time t first.2) in
  first.1 = Ok result ∧
  calls first.2 = calls w ++ [Invocation (fn_module fn) (fn_name fn) args kwargs] ∧
  second.1 = Ok (deserializer self (wire (serializer self result))) ∧
  calls second.2 = calls first.2.
Proof.
  intros Hb [kk Hkk] HL Hw Hget Hf Hv Ht result first second.
  set (key := get_key self args kwargs) in *.
  set (w1 := invoked fn args kwargs (exchanged [GET key] w)).
  assert (online w1) as Hw1 by (by apply online_exchanged).
  assert (first = (Ok result,
                   set_redis (written key (wire (serializer self result)) (ttl self) (redis w))
                     (exchanged [EVALSHA key kk (wire (serializer self result))
                                         (ttl self) (limit self)] w1))) as Hfirst.
  { unfold first. rewrite (inner_miss _ _ _ _ _ r) by (done || by apply online_reachable).
    fold key w1. rewrite Hkk. unfold get_cache_lua_fn.
    rewrite on_server_reachable by (by apply online_reachable).
    rewrite cache_lua_fn_unbounded by done. done. }
  set (w2 := at_time t first.2).
  assert (reachable w2) as Hw2.
  { apply online_reachable. unfold w2. rewrite Hfirst. by apply online_exchanged. }
  assert (cached key (redis w2) = Some (wire (serializer self result))) as Hc.
  { unfold w2. rewrite Hfirst. unfold cached, lookup_key, at_time, written.
    cbn [snd redis set_redis db set_db clock set_clock]. rewrite lookup_insert_eq.
    unfold live. case_bool_decide; [|done]. rewrite bool_decide_true; [done|].
    cbn [redis invoked set_calls exchanged set_served set_link].
    specialize (Ht ltac:(done)).
    assert (t `div` 1000 ≤ (clock (redis w) + ttl self * 1000000) `div` 1000) as Hdiv.
    { apply Z.div_le_mono; lia. }
    replace (clock (redis w) + ttl self * 1000000)
      with (clock (redis w) + ttl self * 1000 * 1000) in Hdiv by lia.
    by rewrite Z.div_add in Hdiv by lia. }
  assert (second = (Ok (deserializer self (wire (serializer self result))),
                    exchanged [GET key] w2)) as Hsecond.
  { unfold second. fold w2. by rewrite (inner_hit _ _ _ _ _ _ Hb Hw2 Hc Hv). }
  rewrite Hsecond. unfold w2. rewrite Hfirst. done.
Qed.

(** [shout] called twice on an empty store. *)
Lemma second_call_is_a_hit_witness :
  let first := inner cached_shout shout [PyStr "a"] [] empty_world in
  let second := inner cached_shout shout [PyStr "a"] [] (at_time 5000000 first.2) in
  first.1 = Ok (PyStr "a!") ∧
  calls first.2 = [Invocation "app" "shout" [PyStr "a"] []] ∧
  second.1 = Ok (PyStr "a!") ∧
  calls second.2 = calls first.2.
Proof.
  apply (second_call_is_a_hit cached_shout shout [PyStr "a"] [] empty_world None 5000000).
  - reflexivity.
  - simpl. eauto.
  - simpl. lia.
  - constructor.
  - vm_compute. reflexivity.
  - reflexivity.
  - vm_compute. discriminate.
  - simpl. lia.
Defined.

(** *** What the script answers *)

Lemma zset_at_None idx s :
  zset_at idx s = None ↔ ∃ x e, lookup_key idx s = Some (RString x e).
Proof.
  unfold zset_at. destruct (lookup_key idx s) as [[x e|z]|]; split; try done.
  - eauto.
  - by intros (? & ? & ?).
  - by intros (? & ? & ?).
Qed.

(** For a time to live that the server accepts and an index that is within
    its limit (so that the script has at most one member to trim), the
    script sets the value first and maintains the index afterwards, and an
    error does not undo what was written. It answers [OK], except when the
    limit is positive and the index key holds a string once the value is
    written: then it raises [WRONGTYPE], and the store is left with the value
    written and the index untouched. This is what happens whenever the key
    of the value is the index key itself. Without a limit the script only
    writes the value. *)
Theorem script_answer k idx v ttl L s :
  accepted_ttl ttl s →
  (L > 0 → Z.of_nat (size (index idx s)) ≤ L) →
  let s1 := written k v ttl s in
  let r := cache_lua_fn k idx v ttl L s in
  (r.1 = Ok "OK" ∨ r.1 = Raise WRONGTYPE) ∧
  (r.1 = Raise WRONGTYPE ↔ L > 0 ∧ ∃ x e, lookup_key idx s1 = Some (RString x e)) ∧
  (r.1 = Raise WRONGTYPE → r.2 = s1) ∧
  (¬ L > 0 → r = (Ok "OK", s1)) ∧
  (k = idx → L > 0 → r = (Raise WRONGTYPE, s1)).
Proof.
  intros _ _ s1 r.
  assert (¬ L > 0 → r = (Ok "OK", s1)) as Hun.
  { intros HL. by apply cache_lua_fn_unbounded. }
  assert (L > 0 → zset_at idx s1 = None → r = (Raise WRONGTYPE, s1)) as Hwt.
  { intros HL Hz. by apply cache_lua_fn_wrongtype. }
  assert (L > 0 → ∀ z, zset_at idx s1 = Some z → r.1 = Ok "OK") as Hok.
  { intros HL z Hz. unfold r. by rewrite (cache_lua_fn_trim k idx v ttl L s z). }
  destruct (decide (L > 0)) as [HL|HL].
  - destruct (zset_at idx s1) as [z|] eqn:Hz.
    + specialize (Hok HL z eq_refl). split_and!.
      * by left.
      * rewrite Hok. split; [done|]. intros [_ Hx%zset_at_None]. congruence.
      * by rewrite Hok.
      * done.
      * intros -> _. exfalso. unfold zset_at, lookup_key, s1, written in Hz.
        cbn [db set_db clock] in Hz. rewrite lookup_insert_eq in Hz.
        unfold live in Hz. case_bool_decide; [|done].
        rewrite bool_decide_true in Hz by lia. done.
    + specialize (Hwt HL eq_refl). rewrite Hwt. cbn [fst snd]. split_and!; try done.
      * by right.
      * split; [|done]. intros _. split; [done|]. by apply zset_at_None.
  - specialize (Hun HL). rewrite Hun. cbn [fst snd]. split_and!; try done.
    + by left.
    + split; [done|]. by intros [? _].
Qed.

(** A cache on the namespace [geo] whose key [rc:geo:keys] holds a value:
    the script, called with a limit of two for the key [rc:geo:keys] itself,
    which is also the index key, raises [WRONGTYPE] and leaves the value. *)
Lemma script_answer_witness :
  let s1 := written "rc:geo:keys" "2100000" 60 (set_clock 2000000 empty_server) in
  let r := cache_lua_fn "rc:geo:keys" "rc:geo:keys" "2100000" 60 2
             (set_clock 2000000 empty_server) in
  (r.1 = Ok "OK" ∨ r.1 = Raise WRONGTYPE) ∧
  (r.1 = Raise WRONGTYPE ↔
     2 > 0 ∧ ∃ x e, lookup_key "rc:geo:keys" s1 = Some (RString x e)) ∧
  (r.1 = Raise WRONGTYPE → r.2 = s1) ∧
  (¬ 2 > 0 → r = (Ok "OK", s1)) ∧
  ("rc:geo:keys" = "rc:geo:keys" → 2 > 0 → r = (Raise WRONGTYPE, s1)).
Proof.
  apply (script_answer "rc:geo:keys" "rc:geo:keys" "2100000" 60 2
           (set_clock 2000000 empty_server)).
  - intros _. vm_compute. split; reflexivity.
  - intros _. vm_compute. discriminate.
Defined.

(** Written by the script without a limit, with a positive time to live that
    the server accepts, a value is found as long as the clock of the store,
    read in whole milliseconds, is not past the millisecond of the write plus
    [ttl] seconds: it is still found during the millisecond in which the
    [ttl] seconds are over, and no longer from the next millisecond on. A
    value written with a time to live of zero or less is found at any
    time. *)
Theorem value_lives_for_ttl k idx v ttl L s t :
  ¬ L > 0 →
  accepted_ttl ttl s →
  cached k (set_clock t (cache_lua_fn k idx v ttl L s).2) =
    if bool_decide (ttl > 0 ∧ clock s `div` 1000 + ttl * 1000 < t `div` 1000)
    then None else Some v.
Proof.
  intros HL _. rewrite cache_lua_fn_unbounded by done. cbn [snd].
  unfold cached, lookup_key, written, set_clock. cbn [db set_db clock].
  rewrite lookup_insert_eq. unfold live.
  destruct (bool_decide (ttl > 0)) eqn:Httl.
  - apply bool_decide_eq_true in Httl. case_bool_decide as H1; case_bool_decide as H2;
      try done; lia.
  - apply bool_decide_eq_false in Httl. rewrite bool_decide_false; [done|]. tauto.
Qed.

(** A value written at 2 s to live for three seconds: it is found at the end
    of the millisecond that begins at 5 s, and not found one microsecond
    later. *)
Lemma value_lives_for_ttl_witness :
  let s := (cache_lua_fn "rc:app.f:A" "rc:app.f:keys" "1" 3 0
              (set_clock 2000000 empty_server)).2 in
  cached "rc:app.f:A" (set_clock 5000999 s) = Some "1" ∧
  cached "rc:app.f:A" (set_clock 5001000 s) = None.
Proof.
  split.
  - apply (value_lives_for_ttl "rc:app.f:A" "rc:app.f:keys" "1" 3 0
             (set_clock 2000000 empty_server) 5000999).
    + lia.
    + intros _. vm_compute. split; reflexivity.
  - apply (value_lives_for_ttl "rc:app.f:A" "rc:app.f:keys" "1" 3 0
             (set_clock 2000000 empty_server) 5001000).
    + lia.
    + intros _. vm_compute. split; reflexivity.
Defined.

(** *** Failures of the lookup *)

Lemma on_server_unreachable {A} cs (c : eff server A) w :
  head (link w) = Some false →
  on_server cs c w = (Raise ConnectionError, set_link (tail (link w)) w).
Proof.
  intros Hl. unfold on_server, eff_bind, exchange.
  destruct (link w) as [|[] l]; simplify_eq/=. done.
Qed.

(** A failure of the lookup is raised to the caller of the wrapped function,
    and the function is not invoked instead: [ConnectionError] when the store
    cannot be reached, [WRONGTYPE] when the key holds a sorted set. Nothing
    is written. *)
Theorem lookup_failure_propagates self fn args kwargs w :
  support_batch_call self = false →
  let key := get_key self args kwargs in
  let r := inner self fn args kwargs w in
  (head (link w) = Some false →
   r.1 = Raise ConnectionError ∧ calls r.2 = calls w ∧ redis r.2 = redis w ∧
   served r.2 = served w) ∧
  (reachable w → (∃ z, lookup_key key (redis w) = Some (RZset z)) →
   r.1 = Raise WRONGTYPE ∧ calls r.2 = calls w ∧ redis r.2 = redis w ∧
   served r.2 = served w ++ [[GET key]]).
Proof.
  intros Hb key r. split.
  - intros Hl.
    assert (r = (Raise ConnectionError, set_link (tail (link w)) w)) as ->.
    { unfold r, inner. rewrite Hb. unfold client_get, eff_bind at 1.
      by rewrite on_server_unreachable. }
    split_and!; done.
  - intros Hr [z Hz].
    assert (r = (Raise WRONGTYPE, exchanged [GET key] w)) as ->.
    { unfold r, inner. rewrite Hb. fold key. unfold client_get, eff_bind at 1.
      rewrite on_server_reachable by done. unfold redis_GET. by rewrite Hz. }
    split_and!; done.
Qed.

(** [shout] on a store that cannot be reached. *)
Lemma lookup_failure_propagates_witness :
  let w := set_link [false] empty_world in
  let r := inner cached_shout shout [PyStr "a"] [] w in
  r.1 = Raise ConnectionError ∧ calls r.2 = calls w.
Proof.
  intros w r.
  destruct (lookup_failure_propagates cached_shout shout [PyStr "a"] [] w) as [H _].
  - reflexivity.
  - destruct H as (H1 & H2 & _); [reflexivity|]. split; [exact H1|exact H2].
Defined.

(** The batch path: without a dictionary [mget] raises [TypeError], from the
    call of [client.mget] without a key, before anything is sent; and when
    the store cannot be reached for the [MGET], it raises [ConnectionError]
    and no function is invoked. *)
Theorem mget_read_failure self fns locs w :
  let r := mget self fns locs w in
  (locs = [] → r = (Raise TypeError, w)) ∧
  (locs ≠ [] → head (link w) = Some false →
   r.1 = Raise ConnectionError ∧ calls r.2 = calls w ∧ redis r.2 = redis w ∧
   served r.2 = served w).
Proof.
  intros r. split.
  - intros ->. done.
  - intros Hne Hl.
    assert (∃ h1, r = (Raise ConnectionError, set_link (tail (link w)) (set_heap h1 w)))
      as [h1 ->].
    { unfold r, mget.
      destruct (mget_keys_spec fns locs w) as (h1 & Hkeys & _). exists h1.
      unfold eff_bind at 1. rewrite Hkeys.
      assert (client_mget (call_key fns (heap w) <$> locs)
              = on_server [MGET (call_key fns (heap w) <$> locs)]
                  (redis_MGET (call_key fns (heap w) <$> locs))) as ->.
      { by destruct locs. }
      unfold eff_bind at 1. by rewrite on_server_unreachable. }
    split_and!; done.
Qed.

(** *** Invalidation and the next call *)

Lemma on_server_calls {A} cs (c : eff server A) w :
  calls (on_server cs c w).2 = calls w.
Proof.
  unfold on_server, eff_bind, exchange.
  destruct (link w) as [|[] l]; cbn; try done; by destruct (c (redis w)).
Qed.

Lemma get_cache_lua_fn_calls k kk v ttl L w :
  calls (get_cache_lua_fn k kk v ttl L w).2 = calls w.
Proof. unfold get_cache_lua_fn. destruct kk; [apply on_server_calls|done]. Qed.

Lemma invalidate_calls self args kwargs w :
  calls (invalidate self args kwargs w).2 = calls w.
Proof.
  unfold invalidate. destruct (keys_key self); [|done].
  unfold eff_bind, pipeline_execute.
  pose proof (on_server_calls
    [DEL [get_key self args kwargs]; ZREM s [get_key self args kwargs]]
    (run_transaction [DEL [get_key self args kwargs]; ZREM s [get_key self args kwargs]]) w)
    as H.
  by destruct (on_server _ _ w) as [[] ?].
Qed.

(** After [invalidate], the next call of the wrapped function with the same
    arguments, on a store that can be reached, is a miss: it invokes the
    function once, and returns its result unless the write-back raises. *)
Theorem invalidate_forces_recompute d fn args kwargs w :
  support_batch_call d = false →
  reachable w →
  let self := __call__ d fn in
  let w1 := (invalidate self args kwargs w).2 in
  let r := inner self fn args kwargs w1 in
  reachable w1 →
  calls r.2 = calls w ++ [Invocation (fn_module fn) (fn_name fn) args kwargs] ∧
  (r.1 = Ok (fn_body fn args kwargs) ∨ ∃ e, r.1 = Raise e ∧ store_error e).
Proof.
  intros Hb Hr self w1 r Hr1.
  pose proof (invalidate_effect d fn args kwargs w Hr) as H. cbv zeta in H.
  fold self in H.
  pose proof (invalidate_calls self args kwargs w) as Hcalls. fold w1 in Hcalls.
  destruct (invalidate self args kwargs w) as [r0 w1'] eqn:E.
  cbn [snd] in w1. destruct H as (Hkey & _).
  assert ((redis_GET (get_key self args kwargs) (redis w1)).1 = Ok None) as Hget.
  { unfold redis_GET. unfold w1. by rewrite Hkey. }
  unfold r. rewrite (inner_miss self fn args kwargs w1 None) by done.
  pose proof (get_cache_lua_fn_calls (get_key self args kwargs) (keys_key self)
    (serializer self (fn_body fn args kwargs)) (ttl self) (limit self)
    (invoked fn args kwargs (exchanged [GET (get_key self args kwargs)] w1))) as Hc.
  assert (raises_only store_error
            (get_cache_lua_fn (get_key self args kwargs) (keys_key self)
               (serializer self (fn_body fn args kwargs)) (ttl self) (limit self))) as Hse.
  { unfold get_cache_lua_fn. cbn [keys_key self __call__].
    apply on_server_store_error, cache_lua_fn_store_error. }
  specialize (Hse (invoked fn args kwargs (exchanged [GET (get_key self args kwargs)] w1))).
  destruct (get_cache_lua_fn _ _ _ _ _ _) as [[x|e] w2]; cbn [fst snd] in *.
  - split; [|by left]. rewrite Hc. cbn [calls invoked set_calls exchanged set_served set_link].
    by rewrite Hcalls.
  - split; [|right; eauto]. rewrite Hc.
    cbn [calls invoked set_calls exchanged set_served set_link]. by rewrite Hcalls.
Qed.

(** [shout] is called, invalidated and called again. *)
Lemma invalidate_forces_recompute_witness :
  let d := cache text_cache 0 0 None false in
  let w := (inner cached_shout shout [PyStr "a"] [] empty_world).2 in
  let w1 := (invalidate cached_shout [PyStr "a"] [] w).2 in
  let r := inner cached_shout shout [PyStr "a"] [] w1 in
  calls r.2 = calls w ++ [Invocation "app" "shout" [PyStr "a"] []] ∧
  (r.1 = Ok (PyStr "a!") ∨ ∃ e, r.1 = Raise e ∧ store_error e).
Proof.
  intros d w w1 r.
  apply (invalidate_forces_recompute d shout [PyStr "a"] [] w).
  - reflexivity.
  - unfold reachable. vm_compute. discriminate.
  - unfold reachable. vm_compute. discriminate.
Defined.

(** *** [_get_batch_call_result] *)

Lemma call_each_calls fn ls w :
  ready (heap w) ls →
  call_each fn ls w =
    (Ok ((λ l, fn_body fn (call_args (heap w) l) (call_kwargs (heap w) l)) <$> ls),
     set_calls (calls w ++ ((λ l, Invocation (fn_module fn) (fn_name fn)
                                    (call_args (heap w) l) (call_kwargs (heap w) l)) <$> ls))
               w).
Proof.
  revert w. induction ls as [|l ls IH]; intros w Hr.
  - rewrite app_nil_r. by destruct w.
  - cbn [call_each]. unfold eff_bind at 1. unfold get_state at 1.
    destruct (Hr l) as [[args Ha] [kwargs Hk]]; [apply list_elem_of_here|].
    rewrite Ha, Hk. unfold eff_bind at 1. unfold call at 1.
    set (w1 := set_calls _ w).
    unfold eff_bind at 1. rewrite (IH w1).
    2:{ intros l' Hl'. apply Hr. by apply list_elem_of_further. }
    unfold eff_ret. rewrite !fmap_cons. unfold call_args, call_kwargs.
    cbn [w1 heap set_calls calls]. rewrite Ha, Hk. cbn [default].
    by rewrite <-app_assoc.
Qed.

(** [_get_batch_call_result] on dictionaries that have their ['args'] and
    ['kwargs']: a function that is not batch-capable is called once for each
    dictionary, in order, with its positional and keyword arguments, and
    the results come back as a list of the same length; a batch-capable
    function is called once, with one positional argument, the list that has
    for each dictionary its ['args'] when these are not empty and its
    ['kwargs'] otherwise, and what it returns comes back as it is. Nothing
    is exchanged with the store. *)
Theorem batch_call_result fns f ls w fn :
  original_fn (fns f) = Some fn → ready (heap w) ls →
  let vector := (λ l, match call_args (heap w) l with
                      | [] => PyDict (call_kwargs (heap w) l)
                      | args => PyList args
                      end) <$> ls in
  _get_batch_call_result fns f ls w =
    if support_batch_call (fns f) then
      (Ok (fn_body fn [PyList vector] []),
       set_calls (calls w ++ [Invocation (fn_module fn) (fn_name fn) [PyList vector] []]) w)
    else
      (Ok (PyList ((λ l, fn_body fn (call_args (heap w) l) (call_kwargs (heap w) l)) <$> ls)),
       set_calls (calls w ++ ((λ l, Invocation (fn_module fn) (fn_name fn)
                                      (call_args (heap w) l) (call_kwargs (heap w) l)) <$> ls))
                 w).
Proof.
  intros Hfn Hr vector. unfold _get_batch_call_result. rewrite Hfn.
  destruct (support_batch_call (fns f)).
  - unfold eff_bind at 1. rewrite call_vector_spec by done. done.
  - unfold eff_bind at 1. rewrite call_each_calls by done. done.
Qed.

(** The two dictionaries for [first_only], which is batch-capable. *)
Lemma batch_call_result_witness :
  _get_batch_call_result (λ _, cached_first_only) 0 [0%nat; 1%nat]
    (mget_keys (λ _, cached_first_only) [0%nat; 1%nat] two_calls_world).2 =
  (Ok (PyList [PyList [PyStr "a"]]),
   set_calls [Invocation "app" "first_only"
                [PyList [PyList [PyStr "a"]; PyList [PyStr "b"]]] []]
     (mget_keys (λ _, cached_first_only) [0%nat; 1%nat] two_calls_world).2).
Proof.
  apply (batch_call_result (λ _, cached_first_only) 0 [0%nat; 1%nat]
           (mget_keys (λ _, cached_first_only) [0%nat; 1%nat] two_calls_world).2
           first_only).
  - reflexivity.
  - intros l Hl. assert (l = 0%nat ∨ l = 1%nat) as [-> | ->] by set_solver;
      vm_compute; eauto.
Defined.

(** *** The chunks in closed form *)

Lemma chunks_rounds_lookup {A} rounds (it : list A) n i :
  (0 < n)%nat → (length it < rounds)%nat →
  chunks_rounds rounds it n !! i =
    if decide (i * n < length it)%nat then Some (take n (drop (i * n) it)) else None.
Proof.
  intros Hn. revert it i. induction rounds as [|rounds IH]; intros it i Hr; [lia|].
  cbn [chunks_rounds]. rewrite next_elements_take_drop.
  destruct it as [|x it].
  { rewrite take_nil. rewrite decide_False by (simpl; lia). done. }
  destruct n as [|n]; [lia|]. rewrite firstn_cons.
  destruct i as [|i].
  - rewrite decide_True by (simpl; lia). done.
  - cbn [lookup list_lookup]. fold (lookup (M:=list (list A)) i).
    rewrite IH by (rewrite length_drop; simpl in *; lia).
    rewrite length_drop, drop_drop.
    replace (S n + i * S n)%nat with (S i * S n)%nat by lia.
    destruct (decide (i * S n < length (x :: it) - S n)%nat),
             (decide (S i * S n < length (x :: it))%nat); try done; simpl in *; lia.
Qed.

(** [chunks] yields the successive slices of [n] elements of the iterable:
    the chunk at position [i] is made of the elements from [i * n] up to
    [(i + 1) * n], as far as there are any, and the last chunk is the only
    one that can be shorter. Nothing is yielded for an empty iterable, and
    nothing at all when [n] is zero, whatever the iterable. For a positive
    [n] the chunks in order make up the iterable. *)
Theorem chunks_slices {A} (iterable : list A) (n i : nat) :
  chunks iterable n !! i =
    (if decide (0 < n ∧ i * n < length iterable)%nat
     then Some (take n (drop (i * n) iterable)) else None) ∧
  (chunks iterable 0 = []) ∧
  (chunks [] n = [] :> list (list A)) ∧
  ((0 < n)%nat → concat (chunks iterable n) = iterable).
Proof.
  split_and!.
  - destruct n as [|n].
    + rewrite decide_False by lia. unfold chunks. cbn [chunks_rounds next_elements]. done.
    + unfold chunks. rewrite chunks_rounds_lookup by lia.
      destruct (decide (i * S n < length iterable)%nat).
      * rewrite decide_True by lia. done.
      * rewrite decide_False by lia. done.
  - done.
  - by destruct n.
  - intros Hn. by apply chunks_spec.
Qed.

(** *** [mget] on a batch that the store answers in full *)

Lemma mget_classify_hits self locs i vs m flag g w :
  mget_classify self locs i (Some <$> vs) (m, flag, g) w =
    (Ok (hits self i (Some <$> vs) m, flag, g), w).
Proof.
  revert i m. induction vs as [|v vs IH]; intros i m; [done|].
  rewrite fmap_cons. cbn [mget_classify hits]. apply IH.
Qed.

(** When the store has a value for every call of the batch, [mget] returns
    the deserialized values in the order of the request, also when a
    dictionary is passed more than once. It makes one exchange with the
    store, the [MGET] for the keys of the calls in order, invokes no
    function, and writes nothing. *)
Theorem mget_all_hits self fns locs w :
  locs ≠ [] → reachable w →
  (∀ l, l ∈ locs → is_Some (cached (call_key fns (heap w) l) (redis w))) →
  let '(r, w') := mget self fns locs w in
  r = Ok ((λ l, rc_deserializer self
                  (default "" (cached (call_key fns (heap w) l) (redis w)))) <$> locs) ∧
  redis w' = redis w ∧
  calls w' = calls w ∧
  log w' = log w ∧
  served w' = served w ++ [[MGET (call_key fns (heap w) <$> locs)]] ∧
  link w' = tail (link w).
Proof.
  intros Hne Hre Hhit. unfold mget.
  destruct (mget_keys_spec fns locs w) as (h1 & Hkeys & Hs1 & Hr1).
  unfold eff_bind at 1. rewrite Hkeys.
  set (keys := call_key fns (heap w) <$> locs).
  assert (client_mget keys = on_server [MGET keys] (redis_MGET keys)) as ->.
  { unfold keys. by destruct locs. }
  unfold eff_bind at 1. rewrite on_server_reachable by done.
  cbn [fst snd redis_MGET redis set_heap].
  set (vs := (λ l, default "" (cached (call_key fns (heap w) l) (redis w))) <$> locs).
  assert ((λ k, match lookup_key k (redis w) with
                | Some (RString v _) => Some v
                | _ => None
                end) <$> keys = Some <$> vs) as ->.
  { unfold keys, vs. rewrite <-!list_fmap_compose. apply list_fmap_ext.
    intros i l Hl. cbn. fold (cached (call_key fns (heap w) l) (redis w)).
    destruct (Hhit l) as [v ->]; [by eapply list_elem_of_lookup_2|]. done. }
  unfold eff_bind at 1. rewrite mget_classify_hits. cbv beta iota.
  unfold eff_ret. split_and!; try done.
  f_equal. rewrite (sorted_values_spec _ (Some <$> (rc_deserializer self <$> vs))).
  - rewrite omap_id_fmap. unfold vs. rewrite <-list_fmap_compose.
    clear. induction locs as [|l locs IH]; [done|]. cbn. by rewrite IH.
  - intros k. rewrite hits_lookup, decide_True, Nat.sub_0_r by lia.
    rewrite !list_lookup_fmap. by destruct (vs !! k).
Qed.

(** Two calls of [shout] whose values are in the store, the first one
    passed twice. *)
Lemma mget_all_hits_witness :
  let w := (mget text_cache (λ _, cached_shout) [0%nat; 1%nat] two_calls_world).2 in
  let '(r, w') := mget text_cache (λ _, cached_shout) [0%nat; 1%nat; 0%nat] w in
  r = Ok ((λ l, rc_deserializer text_cache
                  (default "" (cached (call_key (λ _, cached_shout) (heap w) l) (redis w))))
            <$> [0%nat; 1%nat; 0%nat]) ∧
  redis w' = redis w ∧
  calls w' = calls w ∧
  log w' = log w ∧
  served w' = served w ++
    [[MGET (call_key (λ _, cached_shout) (heap w) <$> [0%nat; 1%nat; 0%nat])]] ∧
  link w' = tail (link w).
Proof.
  apply (mget_all_hits text_cache (λ _, cached_shout) [0%nat; 1%nat; 0%nat]).
  - discriminate.
  - unfold reachable. vm_compute. discriminate.
  - intros l Hl.
    assert (l = 0%nat ∨ l = 1%nat) as [-> | ->] by set_solver; vm_compute; eauto.
Defined.

(** [mget] without a dictionary raises [TypeError], from the call of
    [client.mget] without a key, before anything is sent to the store. *)
Theorem mget_empty_batch self fns w :
  mget self fns [] w = (Raise TypeError, w).
Proof. done. Qed.

(** *** Base64 is injective *)

Lemma elem_of_byte_values x : (x < 256)%N → x ∈ byte_values.
Proof.
  intros Hx. unfold byte_values. apply list_elem_of_fmap. exists (N.to_nat x).
  split; [by rewrite N2Nat.id|]. apply elem_of_seq. lia.
Qed.

Lemma check_bytes (P : N → bool) :
  forallb P byte_values = true → ∀ x, (x < 256)%N → P x = true.
Proof.
  intros H x Hx. rewrite forallb_forall in H. apply H.
  apply list_elem_of_In. by apply elem_of_byte_values.
Qed.

Lemma check_bytes2 (P : N → N → bool) :
  forallb (λ x, forallb (P x) byte_values) byte_values = true →
  ∀ x y, (x < 256)%N → (y < 256)%N → P x y = true.
Proof.
  intros H x y Hx Hy. apply (check_bytes (P x)); [|exact Hy].
  apply (check_bytes (λ x, forallb (P x) byte_values)); [exact H|exact Hx].
Qed.

Lemma N_of_ascii_lt a : (N_of_ascii a < 256)%N.
Proof. apply N_ascii_bounded. Qed.

Lemma N_of_ascii_inj a b : N_of_ascii a = N_of_ascii b → a = b.
Proof. intros H. by rewrite <-(ascii_N_embedding a), <-(ascii_N_embedding b), H. Qed.

Lemma b64_alphabet_NoDup : NoDup b64_alphabet.
Proof. refine (bool_decide_unpack _ _). vm_compute. exact I. Qed.

Lemma b64_digit_lookup n : (n < 64)%N → b64_alphabet !! N.to_nat n = Some (b64_digit n).
Proof.
  intros Hn. unfold b64_digit. rewrite nth_lookup.
  destruct (b64_alphabet !! N.to_nat n) as [c|] eqn:E; [done|].
  apply lookup_ge_None in E. change (length b64_alphabet) with 64%nat in E. lia.
Qed.

Lemma b64_digit_inj n m : (n < 64)%N → (m < 64)%N → b64_digit n = b64_digit m → n = m.
Proof.
  intros Hn Hm H. apply N2Nat.inj.
  apply (NoDup_lookup b64_alphabet _ _ (b64_digit n) b64_alphabet_NoDup).
  - by apply b64_digit_lookup.
  - rewrite H. by apply b64_digit_lookup.
Qed.

Lemma b64_digit_not_pad n : (n < 64)%N → b64_digit n ≠ "="%char.
Proof.
  intros Hn H. apply b64_digit_lookup in Hn. rewrite H in Hn.
  apply list_elem_of_lookup_2 in Hn. revert Hn.
  refine (bool_decide_unpack _ _). vm_compute. exact I.
Qed.

(** The four digits of three bytes, and the bytes back from them. *)
Lemma digit1_lt x : (x < 256)%N → (N.shiftr x 2 < 64)%N.
Proof.
  intros Hx. apply N.ltb_lt.
  apply (check_bytes (λ x, N.shiftr x 2 <? 64)%N); [vm_compute; reflexivity|done..].
Qed.

Lemma digit2_lt x y :
  (x < 256)%N → (y < 256)%N → (N.lor (N.shiftl (N.land x 3) 4) (N.shiftr y 4) < 64)%N.
Proof.
  intros Hx Hy. apply N.ltb_lt.
  apply (check_bytes2 (λ x y, N.lor (N.shiftl (N.land x 3) 4) (N.shiftr y 4) <? 64)%N); [vm_compute; reflexivity|done..].
Qed.

Lemma digit3_lt y z :
  (y < 256)%N → (z < 256)%N → (N.lor (N.shiftl (N.land y 15) 2) (N.shiftr z 6) < 64)%N.
Proof.
  intros Hy Hz. apply N.ltb_lt.
  apply (check_bytes2 (λ y z, N.lor (N.shiftl (N.land y 15) 2) (N.shiftr z 6) <? 64)%N); [vm_compute; reflexivity|done..].
Qed.

Lemma digit4_lt z : (z < 256)%N → (N.land z 63 < 64)%N.
Proof.
  intros Hz. apply N.ltb_lt. apply (check_bytes (λ z, N.land z 63 <? 64)%N); [vm_compute; reflexivity|done..].
Qed.

Lemma byte1_back x y :
  (x < 256)%N → (y < 256)%N →
  N.lor (N.shiftl (N.shiftr x 2) 2)
        (N.shiftr (N.lor (N.shiftl (N.land x 3) 4) (N.shiftr y 4)) 4) = x.
Proof.
  intros Hx Hy. apply N.eqb_eq.
  apply (check_bytes2 (λ x y,
    N.lor (N.shiftl (N.shiftr x 2) 2)
          (N.shiftr (N.lor (N.shiftl (N.land x 3) 4) (N.shiftr y 4)) 4) =? x)%N); [vm_compute; reflexivity|done..].
Qed.

Lemma byte2_back x y z :
  (x < 256)%N → (y < 256)%N → (z < 256)%N →
  N.lor (N.shiftl (N.land (N.lor (N.shiftl (N.land x 3) 4) (N.shiftr y 4)) 15) 4)
        (N.shiftr (N.lor (N.shiftl (N.land y 15) 2) (N.shiftr z 6)) 2) = y.
Proof.
  intros Hx Hy Hz.
  assert (N.land (N.lor (N.shiftl (N.land x 3) 4) (N.shiftr y 4)) 15 = N.shiftr y 4) as ->.
  { apply N.eqb_eq. apply (check_bytes2 (λ x y,
      N.land (N.lor (N.shiftl (N.land x 3) 4) (N.shiftr y 4)) 15 =? N.shiftr y 4)%N); [vm_compute; reflexivity|done..]. }
  apply N.eqb_eq. apply (check_bytes2 (λ y z,
    N.lor (N.shiftl (N.shiftr y 4) 4)
          (N.shiftr (N.lor (N.shiftl (N.land y 15) 2) (N.shiftr z 6)) 2) =? y)%N); [vm_compute; reflexivity|done..].
Qed.

Lemma byte3_back y z :
  (y < 256)%N → (z < 256)%N →
  N.lor (N.shiftl (N.land (N.lor (N.shiftl (N.land y 15) 2) (N.shiftr z 6)) 3) 6)
        (N.land z 63) = z.
Proof.
  intros Hy Hz. apply N.eqb_eq. apply (check_bytes2 (λ y z,
    N.lor (N.shiftl (N.land (N.lor (N.shiftl (N.land y 15) 2) (N.shiftr z 6)) 3) 6)
          (N.land z 63) =? z)%N); [vm_compute; reflexivity|done..].
Qed.

Lemma digit2_short_lt x : (x < 256)%N → (N.shiftl (N.land x 3) 4 < 64)%N.
Proof.
  intros Hx. apply N.ltb_lt.
  apply (check_bytes (λ x, N.shiftl (N.land x 3) 4 <? 64)%N); [vm_compute; reflexivity|done].
Qed.

Lemma digit3_short_lt y : (y < 256)%N → (N.shiftl (N.land y 15) 2 < 64)%N.
Proof.
  intros Hy. apply N.ltb_lt.
  apply (check_bytes (λ y, N.shiftl (N.land y 15) 2 <? 64)%N); [vm_compute; reflexivity|done].
Qed.

Lemma byte1_short_back x :
  (x < 256)%N →
  N.lor (N.shiftl (N.shiftr x 2) 2) (N.shiftr (N.shiftl (N.land x 3) 4) 4) = x.
Proof.
  intros Hx. apply N.eqb_eq.
  apply (check_bytes (λ x,
    N.lor (N.shiftl (N.shiftr x 2) 2) (N.shiftr (N.shiftl (N.land x 3) 4) 4) =? x)%N);
    [vm_compute; reflexivity|done].
Qed.

Lemma byte2_short_back x y :
  (x < 256)%N → (y < 256)%N →
  N.lor (N.shiftl (N.land (N.lor (N.shiftl (N.land x 3) 4) (N.shiftr y 4)) 15) 4)
        (N.shiftr (N.shiftl (N.land y 15) 2) 2) = y.
Proof.
  intros Hx Hy.
  assert (N.land (N.lor (N.shiftl (N.land x 3) 4) (N.shiftr y 4)) 15 = N.shiftr y 4) as ->.
  { apply N.eqb_eq. apply (check_bytes2 (λ x y,
      N.land (N.lor (N.shiftl (N.land x 3) 4) (N.shiftr y 4)) 15 =? N.shiftr y 4)%N);
      [vm_compute; reflexivity|done..]. }
  apply N.eqb_eq. apply (check_bytes (λ y,
    N.lor (N.shiftl (N.shiftr y 4) 4) (N.shiftr (N.shiftl (N.land y 15) 2) 2) =? y)%N);
    [vm_compute; reflexivity|done].
Qed.

Create HintDb b64.

#[local] Hint Resolve N_of_ascii_lt digit1_lt digit2_lt digit3_lt digit4_lt
  digit2_short_lt digit3_short_lt : b64.

Ltac pad_clash :=
  match goal with
  | H : b64_digit _ = "="%char |- _ =>
      exfalso; revert H; apply b64_digit_not_pad; auto with b64
  | H : "="%char = b64_digit _ |- _ =>
      exfalso; symmetry in H; revert H; apply b64_digit_not_pad; auto with b64
  end.

Ltac digits_equal :=
  repeat match goal with
  | H : b64_digit _ = b64_digit _ |- _ => apply b64_digit_inj in H; [|auto with b64..]
  end.

Lemma b64_groups_inj n bs bs' :
  (length bs < n)%nat → b64_groups bs = b64_groups bs' → bs = bs'.
Proof.
  revert bs bs'. induction n as [|n IH]; intros bs bs' Hn; [lia|].
  destruct bs as [|a [|b [|c rest]]], bs' as [|a' [|b' [|c' rest']]];
    cbn [b64_groups]; intros H; try done;
    try (exfalso; simplify_eq; pad_clash).
  - injection H as H1 H2. digits_equal. f_equal. apply N_of_ascii_inj.
    rewrite <-(byte1_short_back (N_of_ascii a)), <-(byte1_short_back (N_of_ascii a'))
      by auto with b64.
    by rewrite H1, H2.
  - injection H as H1 H2 H3. digits_equal.
    assert (a = a') as ->.
    { apply N_of_ascii_inj.
      rewrite <-(byte1_back (N_of_ascii a) (N_of_ascii b)),
              <-(byte1_back (N_of_ascii a') (N_of_ascii b')) by auto with b64.
      by rewrite H1, H2. }
    f_equal. f_equal. apply N_of_ascii_inj.
    rewrite <-(byte2_short_back (N_of_ascii a') (N_of_ascii b)),
            <-(byte2_short_back (N_of_ascii a') (N_of_ascii b')) by auto with b64.
    by rewrite H2, H3.
  - injection H as H1 H2 H3 H4 H5. digits_equal.
    assert (a = a') as ->.
    { apply N_of_ascii_inj.
      rewrite <-(byte1_back (N_of_ascii a) (N_of_ascii b)),
              <-(byte1_back (N_of_ascii a') (N_of_ascii b')) by auto with b64.
      by rewrite H1, H2. }
    assert (b = b') as ->.
    { apply N_of_ascii_inj.
      rewrite <-(byte2_back (N_of_ascii a') (N_of_ascii b) (N_of_ascii c)),
              <-(byte2_back (N_of_ascii a') (N_of_ascii b') (N_of_ascii c'))
        by auto with b64.
      by rewrite H2, H3. }
    assert (c = c') as ->.
    { apply N_of_ascii_inj.
      rewrite <-(byte3_back (N_of_ascii b') (N_of_ascii c)),
              <-(byte3_back (N_of_ascii b') (N_of_ascii c')) by auto with b64.
      by rewrite H3, H4. }
    do 3 f_equal. apply IH; [simpl in Hn; lia|done].
Qed.

Lemma b64encode_inj b b' : b64encode b = b64encode b' → b = b'.
Proof.
  unfold b64encode. intros H. apply chars_inj.
  apply (b64_groups_inj (S (length (chars b)))); [lia|].
  by rewrite <-(String.list_ascii_of_string_of_list_ascii (b64_groups (chars b))),
             <-(String.list_ascii_of_string_of_list_ascii (b64_groups (chars b'))), H.
Qed.

(** *** Keys and the data they are derived from *)

Lemma get_key_encoded self args kwargs :
  get_key self args kwargs = namespace_tag self +:+ encoded (key_data self args kwargs).
Proof.
  unfold get_key, namespace_tag. fold (key_data self args kwargs).
  fold (encoded (key_data self args kwargs)).
  apply chars_inj. rewrite !chars_app. by rewrite <-!app_assoc.
Qed.

Lemma split_at_colon (l1 l2 r1 r2 : list ascii) :
  ":"%char ∉ l1 → ":"%char ∉ l2 →
  l1 ++ ":"%char :: r1 = l2 ++ ":"%char :: r2 → l1 = l2 ∧ r1 = r2.
Proof.
  revert l2. induction l1 as [|c l1 IH]; intros [|c' l2] H1 H2 H; cbn [app] in H.
  - by injection H as ->.
  - injection H as <- _. exfalso. apply H2. apply list_elem_of_here.
  - injection H as -> _. exfalso. apply H1. apply list_elem_of_here.
  - injection H as -> H.
    apply list.not_elem_of_cons in H1 as [_ H1]. apply list.not_elem_of_cons in H2 as [_ H2].
    destruct (IH l2 H1 H2 H) as [-> ->]. done.
Qed.

(** Two derivations with the same prefix, for the same namespace or for two
    namespaces without a colon, give the same key only for the same
    namespace and the same data: the same text when the serializers return
    text, and the same bytes when they return bytes, since the base64 text
    determines the bytes. *)
Theorem equal_keys_equal_data self self' args kwargs args' kwargs' :
  prefix self = prefix self' →
  py_format (namespace self) = py_format (namespace self') ∨
    ((":"%char ∉ chars (py_format (namespace self))) ∧
     (":"%char ∉ chars (py_format (namespace self')))) →
  get_key self args kwargs = get_key self' args' kwargs' →
  py_format (namespace self) = py_format (namespace self') ∧
  encoded (key_data self args kwargs) = encoded (key_data self' args' kwargs') ∧
  (∀ s s', key_data self args kwargs = Str s → key_data self' args' kwargs' = Str s' →
           s = s') ∧
  (∀ b b', key_data self args kwargs = Bytes b → key_data self' args' kwargs' = Bytes b' →
           b = b').
Proof.
  intros Hp Hns Hkey. rewrite !get_key_encoded in Hkey. unfold namespace_tag in Hkey.
  apply (f_equal chars) in Hkey. rewrite !chars_app, <-!app_assoc, Hp in Hkey.
  apply app_inv_head in Hkey. change (chars ":") with [":"%char] in Hkey.
  cbn [app] in Hkey. injection Hkey as Hkey.
  assert (py_format (namespace self) = py_format (namespace self') ∧
          encoded (key_data self args kwargs) = encoded (key_data self' args' kwargs'))
    as [Hn He].
  { destruct Hns as [Hn|[H1 H2]].
    - split; [done|]. rewrite Hn in Hkey. apply app_inv_head in Hkey.
      injection Hkey as Hkey. by apply chars_inj.
    - apply split_at_colon in Hkey as [Hn He]; [|done..].
      split; by apply chars_inj. }
  split_and!; [done..| |].
  - intros s s' Hs Hs'. by rewrite Hs, Hs' in He.
  - intros b b' Hb Hb'. rewrite Hb, Hb' in He. by apply b64encode_inj.
Qed.

(** The key for ['a'] under two decorators of [shout] that differ in their
    limit. *)
Lemma equal_keys_equal_data_witness :
  py_format (namespace cached_shout) = py_format (namespace cached_shout_2) ∧
  encoded (key_data cached_shout [PyStr "a"] []) =
    encoded (key_data cached_shout_2 [PyStr "a"] []) ∧
  (∀ s s', key_data cached_shout [PyStr "a"] [] = Str s →
           key_data cached_shout_2 [PyStr "a"] [] = Str s' → s = s') ∧
  (∀ b b', key_data cached_shout [PyStr "a"] [] = Bytes b →
           key_data cached_shout_2 [PyStr "a"] [] = Bytes b' → b = b').
Proof.
  apply (equal_keys_equal_data cached_shout cached_shout_2 [PyStr "a"] [] [PyStr "a"] []).
  - reflexivity.
  - left. reflexivity.
  - reflexivity.
Defined.

(** *** The write path of [mget] *)

Lemma get_batch_call_result_run fns f ls w :
  is_Some (original_fn (fns f)) → ready (heap w) ls →
  ∃ res, _get_batch_call_result fns f ls w =
           (Ok res, set_calls (calls w ++ group_invocations fns (heap w) (f, ls)) w) ∧
         py_iter res = recomputed fns (heap w) f ls.
Proof.
  intros [fn Hfn] Hr. unfold _get_batch_call_result, recomputed, group_invocations.
  cbn [fst snd]. rewrite Hfn. destruct (support_batch_call (fns f)).
  - unfold eff_bind at 1. rewrite call_vector_spec by done. unfold call. eauto.
  - unfold eff_bind at 1. rewrite call_each_calls by done. unfold eff_ret. eauto.
Qed.

Lemma mget_store_run self fns f keys ix ps pl m w kk :
  keys_key (fns f) = Some kk →
  (∀ l, l ∈ ps.*1 → d_call_idx (heap w l) = Some (ix l) ∧
                    keys !! ix l = Some (call_key fns (heap w) l)) →
  mget_store self fns f keys ps (pl, m) w =
    (Ok (pl ++ ((λ p, EVALSHA (call_key fns (heap w) p.1) kk
                              (wire (rc_serializer self p.2)) (ttl (fns f)) (limit (fns f)))
                  <$> ps),
         foldl (store_result ix) m ps), w).
Proof.
  intros Hkk. revert pl m.
  induction ps as [|[l r] ps IH]; intros pl m Hps.
  - by rewrite app_nil_r.
  - cbn [mget_store]. unfold eff_bind at 1. unfold get_state at 1.
    destruct (Hps l) as [Hidx Hkey]; [apply list_elem_of_here|].
    rewrite Hidx, Hkey, Hkk. rewrite IH.
    + rewrite fmap_cons. cbn [fst snd foldl]. by rewrite <-app_assoc.
    + intros l' Hl'. apply Hps. by apply list_elem_of_further.
Qed.

Lemma mget_recompute_run self fns keys ix gs pl m w :
  (∀ f ls, (f, ls) ∈ gs →
     is_Some (original_fn (fns f)) ∧ is_Some (keys_key (fns f)) ∧
     is_Some (recomputed fns (heap w) f ls) ∧ ready (heap w) ls ∧
     ∀ l, l ∈ ls → d_call_idx (heap w l) = Some (ix l) ∧
                   keys !! ix l = Some (call_key fns (heap w) l)) →
  mget_recompute self fns keys gs (pl, m) w =
    (Ok (pl ++ (gs ≫= group_script_calls self fns (heap w)),
         foldl (store_result ix) m (writes fns (heap w) gs)),
     set_calls (calls w ++ (gs ≫= group_invocations fns (heap w))) w).
Proof.
  revert pl m w. induction gs as [|[f ls] gs IH]; intros pl m w Hgs.
  - cbn. rewrite !app_nil_r. by destruct w.
  - destruct (Hgs f ls) as (Hfn & [kk Hkk] & [items Hit] & Hr & Hidx);
      [apply list_elem_of_here|].
    cbn [mget_recompute].
    destruct (get_batch_call_result_run fns f ls w Hfn Hr) as (res & Heq & Hres).
    unfold eff_bind at 1. rewrite Heq, Hres, Hit.
    set (w1 := set_calls _ w).
    unfold eff_bind at 1.
    rewrite (mget_store_run self fns f keys ix (zip ls items) pl m w1 kk Hkk).
    2:{ intros l Hl. apply Hidx. apply list_elem_of_fmap in Hl as [[l' r] [-> Hl]].
        by apply elem_of_zip_l in Hl. }
    rewrite (IH _ _ w1).
    2:{ intros f' ls' Hin. apply Hgs. by apply list_elem_of_further. }
    cbn [heap set_calls calls w1]. rewrite !bind_cons.
    unfold writes. rewrite bind_cons, foldl_app.
    unfold group_script_calls at 2. cbn [fst snd]. rewrite Hit, Hkk. cbn [default].
    rewrite <-!app_assoc. done.
Qed.

Lemma settled_group_invocations fns h h' g :
  settled h h' → group_invocations fns h' g = group_invocations fns h g.
Proof.
  intros Hs. unfold group_invocations, argument_vector.
  assert (∀ l, call_args h' l = call_args h l) as Ha by (intros l; apply Hs).
  assert (∀ l, call_kwargs h' l = call_kwargs h l) as Hk by (intros l; apply Hs).
  destruct (original_fn (fns g.1)); [|done].
  destruct (support_batch_call (fns g.1)).
  - do 4 f_equal. apply list_fmap_ext. intros _ l _. by rewrite Ha, Hk.
  - apply list_fmap_ext. intros _ l _. by rewrite Ha, Hk.
Qed.

Lemma settled_group_script_calls self fns h h' g :
  settled h h' → group_script_calls self fns h' g = group_script_calls self fns h g.
Proof.
  intros Hs. unfold group_script_calls. rewrite (settled_recomputed _ _ _ _ _ Hs).
  apply list_fmap_ext. intros _ p _. by rewrite (settled_call_key _ _ _ _ Hs).
Qed.

Lemma bind_ext_all {A B} (f g : A → list B) (l : list A) :
  (∀ x, f x = g x) → l ≫= f = l ≫= g.
Proof. intros H. induction l as [|x l IH]; [done|]. by rewrite !bind_cons, H, IH. Qed.

Lemma mget_miss_run self fns locs w :
  NoDup locs → answerable fns locs w → online w →
  (∃ l, l ∈ locs ∧ cached (call_key fns (heap w) l) (redis w) = None) →
  let gs := miss_groups fns w locs in
  let cmds := gs ≫= group_script_calls self fns (heap w) in
  ∃ r W, mget self fns locs w = (r, W) ∧
    calls W = calls w ++ (gs ≫= group_invocations fns (heap w)) ∧
    served W = served w ++ [MGET (call_key fns (heap w) <$> locs)]
                           :: (if cmds is [] then [] else [cmds]) ∧
    redis W = (run_transaction cmds (redis w)).2 ∧
    log W = log w ∧
    settled (heap w) (heap W) ∧
    online W ∧
    (∀ e, r = Raise e → (run_transaction cmds (redis w)).1 = Raise e).
Proof.
  intros Hnd Hans Hw (l0 & Hl0 & Hmiss0).
  set (miss := λ l, cached (call_key fns (heap w) l) (redis w) = None).
  set (rs := (λ l, cached (call_key fns (heap w) l) (redis w)) <$> locs).
  assert (miss_groups fns w locs
          = foldl (λ g l, group_append (d_fn (heap w l)) l g) [] (misses locs rs)) as ->.
  { unfold miss_groups, rs. by rewrite misses_filter. }
  set (gs := foldl (λ g l, group_append (d_fn (heap w l)) l g) [] (misses locs rs)).
  cbv zeta.
  unfold mget.
  destruct (mget_keys_spec fns locs w) as (h1 & Hkeys & Hs1 & Hr1).
  unfold eff_bind at 1. rewrite Hkeys.
  set (keys := call_key fns (heap w) <$> locs).
  assert (client_mget keys = on_server [MGET keys] (redis_MGET keys)) as ->.
  { unfold keys. destruct locs; [by apply elem_of_nil in Hl0|done]. }
  unfold eff_bind at 1.
  rewrite on_server_reachable by (by apply online_reachable).
  cbn [fst snd redis_MGET redis set_heap].
  assert ((λ k, match lookup_key k (redis w) with
                | Some (RString v _) => Some v
                | _ => None
                end) <$> keys = rs) as ->.
  { unfold keys, rs. by rewrite <-list_fmap_compose. }
  set (w2 := set_redis (redis w) (exchanged [MGET keys] (set_heap h1 w))).
  destruct (mget_classify_spec self (λ l, d_fn (heap w l)) locs locs 0 rs ∅ false [] w2)
    as (h2 & Hcl & Hs2 & Hidx & _);
    [unfold rs; by rewrite length_fmap|done|done|intros l; apply Hs1|].
  unfold eff_bind at 1. rewrite Hcl.
  cbn [heap set_heap set_redis exchanged set_served set_link w2] in Hs2, Hidx.
  fold gs.
  set (ix := λ l, default 0%nat (d_call_idx (h2 l))).
  assert (∀ j l, locs !! j = Some l → miss l → d_call_idx (h2 l) = Some j) as Hcall.
  { intros j l Hj Hm. apply (Hidx j l Hj). unfold rs.
    rewrite list_lookup_fmap, Hj. cbn. by rewrite Hm. }
  assert (∀ j l, locs !! j = Some l → miss l → ix l = j) as Hix.
  { intros j l Hj Hm. unfold ix. by rewrite (Hcall j l). }
  assert (settled (heap w) h2) as Hs by (by eapply settled_trans).
  assert (misses locs rs ≠ []) as HM.
  { intros E. assert (l0 ∈ misses locs rs) as Hin by (by apply elem_of_misses).
    rewrite E in Hin. by apply elem_of_nil in Hin. }
  rewrite bool_decide_true by done. cbn [orb]. cbv beta iota.
  unfold eff_bind at 1.
  rewrite (mget_recompute_run self fns keys ix gs [] (hits self 0 rs ∅) (set_heap h2 w2)).
  2:{ intros f ls Hin. destruct (groups_miss_group fns locs w f ls Hin) as [-> [l1 Hl1]].
      apply elem_of_miss_group in Hl1 as (Hl1 & Hm1 & Hf1).
      destruct (Hans l1 Hl1 Hm1) as (Ho & Hk & Hrc). rewrite Hf1 in *.
      cbn [heap set_heap]. rewrite (settled_recomputed _ _ _ _ _ Hs).
      split_and!; [done..| |].
      - intros l [Hl _]%elem_of_miss_group. by apply (settled_ready h1 h2 locs).
      - intros l (Hl & Hm & _)%elem_of_miss_group.
        apply list_elem_of_lookup in Hl as [j Hj].
        rewrite (Hix j l Hj Hm). split; [by apply Hcall|].
        unfold keys. rewrite list_lookup_fmap, Hj. cbn.
        by rewrite (settled_call_key _ _ _ _ Hs). }
  cbv beta iota. cbn [heap set_heap calls app].
  rewrite (bind_ext_all (group_script_calls self fns h2) (group_script_calls self fns (heap w)))
    by (intros g; by apply settled_group_script_calls).
  rewrite (bind_ext_all (group_invocations fns h2) (group_invocations fns (heap w)))
    by (intros g; by apply settled_group_invocations).
  remember (gs ≫= group_script_calls self fns (heap w)) as cmds eqn:Hcmds. clear Hcmds.
  set (w3 := set_calls _ _).
  assert (online w3) as Hw3 by exact (online_exchanged [MGET keys] w Hw).
  unfold eff_bind at 1. unfold pipeline_execute.
  destruct cmds as [|c cmds].
  - eexists _, _. split; [reflexivity|]. cbn. split_and!; done.
  - rewrite on_server_reachable by (by apply online_reachable).
    destruct (run_transaction (c :: cmds) (redis w3)) as [[rp|e] s'] eqn:Hrun;
      (eexists _, _; split; [reflexivity|]);
      cbn [fst snd calls served redis log set_redis exchanged set_served set_link w3
           set_calls set_heap w2];
      fold keys; change (redis w3) with (redis w) in Hrun; rewrite Hrun;
      split_and!; try done; try (by rewrite <-app_assoc);
      try (by apply (online_exchanged (c :: cmds) w3));
      by intros e' [= <-].
Qed.

(** A batch of distinct dictionaries with a miss, on a store that can be
    reached. The misses are grouped by function, each group in the order of
    the request, and the functions are invoked for the misses only: a
    batch-capable function once for its group, with the vector of its
    arguments, another function once for each miss of its group. The store
    is left as the script calls of the pipeline leave it, run in the order
    of the groups: one call for each miss that [zip] pairs with a result,
    under the key of that call and with the serialized result and the index
    key, time to live and limit of its function. Nothing is logged. *)
Theorem mget_miss_path self fns locs w :
  NoDup locs → answerable fns locs w → online w →
  (∃ l, l ∈ locs ∧ cached (call_key fns (heap w) l) (redis w) = None) →
  let gs := miss_groups fns w locs in
  let cmds := gs ≫= group_script_calls self fns (heap w) in
  let w' := (mget self fns locs w).2 in
  grouped (λ l, d_fn (heap w l))
          (filter (λ l, cached (call_key fns (heap w) l) (redis w) = None) locs) gs ∧
  calls w' = calls w ++ (gs ≫= group_invocations fns (heap w)) ∧
  redis w' = (run_transaction cmds (redis w)).2 ∧
  log w' = log w.
Proof.
  intros Hnd Hans Hw Hmiss gs cmds w'.
  destruct (mget_miss_run self fns locs w Hnd Hans Hw Hmiss)
    as (r & W & Hrun & Hcalls & _ & Hredis & Hlog & _).
  unfold w'. rewrite Hrun. split_and!; try done.
  pose proof (groups_grouped fns locs w) as Hg. rewrite misses_filter in Hg. exact Hg.
Qed.

(** The batch of two calls of [shout] on an empty store. *)
Lemma mget_miss_path_witness :
  let fns := λ _ : nat, cached_shout in
  let w := two_calls_world in
  let gs := miss_groups fns w [0%nat; 1%nat] in
  let cmds := gs ≫= group_script_calls text_cache fns (heap w) in
  let w' := (mget text_cache fns [0%nat; 1%nat] w).2 in
  grouped (λ l, d_fn (heap w l))
          (filter (λ l, cached (call_key fns (heap w) l) (redis w) = None)
                  [0%nat; 1%nat]) gs ∧
  calls w' = calls w ++ (gs ≫= group_invocations fns (heap w)) ∧
  redis w' = (run_transaction cmds (redis w)).2 ∧
  log w' = log w.
Proof.
  apply (mget_miss_path text_cache (λ _, cached_shout) [0%nat; 1%nat] two_calls_world).
  - refine (bool_decide_unpack _ _). vm_compute. exact I.
  - apply two_calls_answerable.
    + simpl. eauto.
    + simpl. eauto.
    + intros ls. unfold recomputed. simpl. eauto.
  - constructor.
  - exists 0%nat. split; [apply list_elem_of_here|]. vm_compute. reflexivity.
Defined.

(** *** [invalidate]: failures, and a second call *)

(** What the two commands of [invalidate] leave of the store. *)
Lemma invalidate_store (key kk : string) s :
  (run_transaction [DEL [key]; ZREM kk [key]] s).2 =
    let s1 := set_db (delete key (db s)) s in
    match zset_at kk s1 with
    | None => s1
    | Some z => set_db (store_zset kk (delete key z) (db s1)) s1
    end.
Proof.
  cbn [run_transaction run_command]. unfold eff_bind, eff_ret.
  rewrite redis_DEL_cons by done. cbn [foldr].
  rewrite redis_ZREM_cons by done. cbn [foldr].
  by destruct (zset_at kk _).
Qed.

Lemma set_db_id s : set_db (db s) s = s.
Proof. by destruct s. Qed.

Lemma store_zset_same kk z d :
  d !! kk = (if decide (z = ∅) then None else Some (RZset z)) → store_zset kk z d = d.
Proof.
  intros H. unfold store_zset. destruct (decide (z = ∅)).
  - by apply delete_id.
  - by apply insert_id.
Qed.

Lemma lookup_store_zset kk z d :
  store_zset kk z d !! kk = if decide (z = ∅) then None else Some (RZset z).
Proof.
  unfold store_zset. destruct (decide (z = ∅)).
  - apply lookup_delete_eq.
  - apply lookup_insert_eq.
Qed.

Lemma invalidate_store_idempotent (key kk : string) s :
  let s' := (run_transaction [DEL [key]; ZREM kk [key]] s).2 in
  (run_transaction [DEL [key]; ZREM kk [key]] s').2 = s'.
Proof.
  cbv zeta. rewrite (invalidate_store key kk s). cbv zeta.
  set (s1 := set_db (delete key (db s)) s).
  assert (set_db (delete key (db s1)) s1 = s1) as Hs1.
  { unfold s1, set_db; cbn [db clock]. by rewrite delete_delete_eq. }
  destruct (zset_at kk s1) as [z|] eqn:Hz.
  - set (s2 := set_db (store_zset kk (delete key z) (db s1)) s1).
    rewrite (invalidate_store key kk s2). cbv zeta.
    assert (set_db (delete key (db s2)) s2 = s2) as Hs2.
    { unfold s2, set_db; cbn [db clock]. f_equal. apply delete_id.
      destruct (decide (key = kk)) as [->|Hne].
      - assert (z = ∅) as ->.
        { unfold zset_at, lookup_key, s1 in Hz; cbn [db set_db clock] in Hz.
          rewrite lookup_delete_eq in Hz. congruence. }
        rewrite delete_empty, lookup_store_zset. by rewrite decide_True.
      - unfold store_zset. case_decide.
        + rewrite lookup_delete_ne by done. unfold s1; cbn [db set_db]. apply lookup_delete_eq.
        + rewrite lookup_insert_ne by done. unfold s1; cbn [db set_db]. apply lookup_delete_eq. }
    rewrite Hs2. unfold s2 at 1. rewrite zset_at_store_zset.
    rewrite delete_delete_eq. fold s2.
    rewrite store_zset_same; [apply set_db_id|].
    unfold s2; cbn [db set_db]. apply lookup_store_zset.
  - rewrite (invalidate_store key kk s1). cbv zeta. by rewrite Hs1, Hz.
Qed.

(** [invalidate] for a decorated function: when the store cannot be
    reached it raises [ConnectionError] and nothing is deleted; when the
    index key holds a string it raises [WRONGTYPE], and the value is deleted
    all the same, since the commands of the pipeline do not depend on one
    another; and invalidating a second time leaves the store as the first
    time left it. *)
Theorem invalidate_failures_and_repeat d fn args kwargs w :
  let self := __call__ d fn in
  let key := get_key self args kwargs in
  let keys_key := default "" (keys_key self) in
  let r := invalidate self args kwargs w in
  (head (link w) = Some false →
   r.1 = Raise ConnectionError ∧ redis r.2 = redis w) ∧
  (reachable w → key ≠ keys_key →
   (∃ x e, lookup_key keys_key (redis w) = Some (RString x e)) →
   r.1 = Raise WRONGTYPE ∧ cached key (redis r.2) = None) ∧
  (reachable w → reachable r.2 →
   redis (invalidate self args kwargs r.2).2 = redis r.2).
Proof.
  intros self key kk r.
  assert (∀ w, invalidate self args kwargs w =
               (_ ← on_server [DEL [key]; ZREM kk [key]]
                      (run_transaction [DEL [key]; ZREM kk [key]]); ret tt)%eff w) as Hinv.
  { intros w0. done. }
  assert (∀ w, reachable w →
     redis (invalidate self args kwargs w).2 =
       (run_transaction [DEL [key]; ZREM kk [key]] (redis w)).2) as Hredis.
  { intros w0 Hr0. rewrite Hinv. unfold eff_bind. rewrite on_server_reachable by done.
    by destruct (run_transaction _ _) as [[] ?]. }
  split_and!.
  - intros Hl. unfold r. rewrite Hinv. unfold eff_bind.
    by rewrite on_server_unreachable.
  - intros Hr Hne (x & e & Hx).
    pose proof (invalidate_effect d fn args kwargs w Hr) as H. cbv zeta in H.
    fold self key kk r in H. unfold r in *. rewrite Hinv in *. unfold eff_bind in *.
    rewrite on_server_reachable in * by done.
    cbn [run_transaction run_command] in *. unfold eff_bind, eff_ret in *.
    rewrite redis_DEL_cons in * by done. cbn [foldr] in *.
    rewrite redis_ZREM_cons in * by done.
    assert (zset_at kk (set_db (delete key (db (redis w))) (redis w)) = None) as Hz.
    { unfold zset_at, lookup_key in *; cbn [db set_db clock].
      rewrite lookup_delete_ne by done.
      destruct (db (redis w) !! kk) as [v|]; [|done].
      destruct (live (clock (redis w)) v); by simplify_eq. }
    rewrite Hz in *. cbn [fst snd] in *. destruct H as (Hk & _).
    split; [done|]. unfold cached. by rewrite Hk.
  - intros Hr Hr'. rewrite Hredis by done. unfold r. rewrite (Hredis w Hr).
    apply invalidate_store_idempotent.
Qed.

(** *** A batch after a batch *)

Lemma cached_written k v ttl s k' :
  cached k' (written k v ttl s) = if decide (k' = k) then Some v else cached k' s.
Proof.
  unfold cached, lookup_key, written; cbn [db set_db clock].
  destruct (decide (k' = k)) as [->|Hne].
  - rewrite lookup_insert_eq. unfold live. case_bool_decide; [|done].
    by rewrite bool_decide_true by lia.
  - by rewrite lookup_insert_ne.
Qed.

Lemma run_unlimited_step k kk v ttl L cs s :
  ¬ L > 0 →
  (run_transaction (EVALSHA k kk v ttl L :: cs) s).2
  = (run_transaction cs (written k v ttl s)).2.
Proof.
  intros HL. cbn [run_transaction run_command]. unfold eff_bind at 1.
  rewrite cache_lua_fn_unbounded by done. unfold eff_ret.
  by destruct (run_transaction cs _) as [[] ?].
Qed.

Lemma run_unlimited_other cmds s k :
  Forall unlimited_write cmds →
  (∀ c e, c ∈ cmds → written_entry c = Some e → e.1 ≠ k) →
  cached k (run_transaction cmds s).2 = cached k s.
Proof.
  revert s. induction cmds as [|c cmds IH]; intros s Hall Hk; [done|].
  apply list.Forall_cons in Hall as [Hc Hall].
  destruct c as [| | | | |k' kk v ttl L]; try done. cbn in Hc.
  rewrite run_unlimited_step by done. rewrite IH; [|done|].
  - rewrite cached_written, decide_False; [done|]. intros ->.
    by apply (Hk (EVALSHA k' kk v ttl L) (k', v)); [apply list_elem_of_here|..].
  - intros c e Hin. apply Hk. by apply list_elem_of_further.
Qed.

Lemma run_unlimited_written cmds s k v :
  Forall unlimited_write cmds →
  (∀ c e, c ∈ cmds → written_entry c = Some e → e.1 = k → e.2 = v) →
  (∃ c, c ∈ cmds ∧ written_entry c = Some (k, v)) →
  cached k (run_transaction cmds s).2 = Some v.
Proof.
  revert s. induction cmds as [|c cmds IH]; intros s Hall Hv (c0 & Hin & Hc0).
  { by apply elem_of_nil in Hin. }
  apply list.Forall_cons in Hall as [Hc Hall].
  destruct c as [| | | | |k' kk v' ttl L]; try done. cbn in Hc.
  rewrite run_unlimited_step by done.
  destruct (decide (Exists (λ c, written_entry c = Some (k, v)) cmds)) as [Hex|Hno];
    rewrite list.Exists_exists in Hex || rewrite list.Exists_exists in Hno.
  - apply IH; [done| |done]. intros c e Hc'. apply Hv. by apply list_elem_of_further.
  - rewrite run_unlimited_other; [| done |].
    + apply list.elem_of_cons in Hin as [->|Hin]; [|exfalso; apply Hno; eauto].
      cbn in Hc0. injection Hc0 as -> ->. by rewrite cached_written, decide_True.
    + intros c e Hc' He Hk. apply Hno. exists c. split; [done|].
      rewrite He. destruct e as [k1 v1]. cbn in Hk. subst k1. f_equal. f_equal.
      by apply (Hv c (k, v1)); [apply list_elem_of_further|..].
Qed.

Lemma run_unlimited_ok cmds s :
  Forall unlimited_write cmds → ∃ rs, (run_transaction cmds s).1 = Ok rs.
Proof.
  revert s. induction cmds as [|c cmds IH]; intros s Hall; [by exists []|].
  apply list.Forall_cons in Hall as [Hc Hall].
  destruct c as [| | | | |k kk v ttl L]; try done. cbn in Hc.
  cbn [run_transaction run_command]. unfold eff_bind at 1.
  rewrite cache_lua_fn_unbounded by done. unfold eff_ret.
  destruct (IH (written k v ttl s) Hall) as [rs Hrs].
  destruct (run_transaction cmds _) as [[rs'|e] s']; [|done]. eauto.
Qed.

Lemma mget_hits_run self fns locs w :
  locs ≠ [] → reachable w →
  (∀ l, l ∈ locs → is_Some (cached (call_key fns (heap w) l) (redis w))) →
  ∃ h1, settled (heap w) h1 ∧
    mget self fns locs w =
      (Ok ((λ l, rc_deserializer self
                   (default "" (cached (call_key fns (heap w) l) (redis w)))) <$> locs),
       set_redis (redis w)
         (exchanged [MGET (call_key fns (heap w) <$> locs)] (set_heap h1 w))).
Proof.
  intros Hne Hre Hhit. unfold mget.
  destruct (mget_keys_spec fns locs w) as (h1 & Hkeys & Hs1 & Hr1). exists h1.
  split; [done|].
  unfold eff_bind at 1. rewrite Hkeys.
  set (keys := call_key fns (heap w) <$> locs).
  assert (client_mget keys = on_server [MGET keys] (redis_MGET keys)) as ->.
  { unfold keys. by destruct locs. }
  unfold eff_bind at 1. rewrite on_server_reachable by done.
  cbn [fst snd redis_MGET redis set_heap].
  set (vs := (λ l, default "" (cached (call_key fns (heap w) l) (redis w))) <$> locs).
  assert ((λ k, match lookup_key k (redis w) with
                | Some (RString v _) => Some v
                | _ => None
                end) <$> keys = Some <$> vs) as ->.
  { unfold keys, vs. rewrite <-!list_fmap_compose. apply list_fmap_ext.
    intros i l Hl. cbn. fold (cached (call_key fns (heap w) l) (redis w)).
    destruct (Hhit l) as [v ->]; [by eapply list_elem_of_lookup_2|]. done. }
  unfold eff_bind at 1. rewrite mget_classify_hits. cbv beta iota.
  unfold eff_ret. f_equal. f_equal.
  rewrite (sorted_values_spec _ (Some <$> (rc_deserializer self <$> vs))).
  - rewrite omap_id_fmap. unfold vs. rewrite <-list_fmap_compose.
    clear. induction locs as [|l locs IH]; [done|]. cbn. by rewrite IH.
  - intros k. rewrite hits_lookup, decide_True, Nat.sub_0_r by lia.
    rewrite !list_lookup_fmap. by destruct (vs !! k).
Qed.

Lemma miss_groups_spec fns w locs :
  (∀ f ls, (f, ls) ∈ miss_groups fns w locs →
           ls = miss_group fns w locs f ∧ ∃ l, l ∈ ls) ∧
  (∀ l, l ∈ locs → cached (call_key fns (heap w) l) (redis w) = None →
        (d_fn (heap w l), miss_group fns w locs (d_fn (heap w l)))
          ∈ miss_groups fns w locs).
Proof.
  assert (miss_groups fns w locs
          = foldl (λ g l, group_append (d_fn (heap w l)) l g) []
              (misses locs ((λ l, cached (call_key fns (heap w) l) (redis w)) <$> locs)))
    as ->.
  { unfold miss_groups. by rewrite misses_filter. }
  split.
  - apply groups_miss_group.
  - intros l Hl Hm. destruct (groups_grouped fns locs w) as (_ & _ & Hin).
    specialize (Hin l). rewrite elem_of_misses in Hin. specialize (Hin (conj Hl Hm)).
    apply list_elem_of_fmap in Hin as [[f ls] [Hf Hin]]. cbn in Hf. subst f.
    by destruct (groups_miss_group fns locs w _ _ Hin) as [<- _].
Qed.

Lemma elem_of_script_calls self fns w locs c :
  answerable fns locs w →
  c ∈ miss_groups fns w locs ≫= group_script_calls self fns (heap w) ↔
  ∃ l r items,
    l ∈ locs ∧ cached (call_key fns (heap w) l) (redis w) = None ∧
    recomputed fns (heap w) (d_fn (heap w l))
      (miss_group fns w locs (d_fn (heap w l))) = Some items ∧
    (l, r) ∈ zip (miss_group fns w locs (d_fn (heap w l))) items ∧
    c = EVALSHA (call_key fns (heap w) l)
                (default "" (keys_key (fns (d_fn (heap w l)))))
                (wire (rc_serializer self r))
                (ttl (fns (d_fn (heap w l)))) (limit (fns (d_fn (heap w l)))).
Proof.
  intros Hans. destruct (miss_groups_spec fns w locs) as [Hg1 Hg2].
  rewrite list_elem_of_bind. split.
  - intros ([f ls] & Hc & Hin). destruct (Hg1 f ls Hin) as [-> _].
    unfold group_script_calls in Hc. cbn [fst snd] in Hc.
    apply list_elem_of_fmap in Hc as ([l r] & -> & Hp). cbn [fst snd].
    assert (l ∈ miss_group fns w locs f) as Hl by (by apply elem_of_zip_l in Hp).
    apply elem_of_miss_group in Hl as (Hl & Hm & Hf). subst f.
    destruct (Hans l Hl Hm) as (_ & _ & [items Hit]). rewrite Hit in Hp.
    exists l, r, items. done.
  - intros (l & r & items & Hl & Hm & Hit & Hp & ->).
    exists (d_fn (heap w l), miss_group fns w locs (d_fn (heap w l))).
    split; [|by apply Hg2]. unfold group_script_calls. cbn [fst snd]. rewrite Hit.
    apply list_elem_of_fmap. by exists (l, r).
Qed.

(** A batch of calls with distinct keys, for functions without a limit
    whose recomputations return a result for every miss, each of them a
    value that the deserializer recovers from its serialized form: [mget]
    on a store that can be reached returns a result for every call and
    leaves every one of them in the store, so that a second [mget] of the
    same batch returns the same results, invokes no function and leaves
    the store as it is. *)
Theorem mget_twice self fns locs w :
  locs ≠ [] →
  NoDup (call_key fns (heap w) <$> locs) →
  answerable fns locs w →
  online w →
  (∀ l, l ∈ locs → ¬ limit (fns (d_fn (heap w l))) > 0) →
  (∀ l items,
     l ∈ locs → cached (call_key fns (heap w) l) (redis w) = None →
     recomputed fns (heap w) (d_fn (heap w l))
       (miss_group fns w locs (d_fn (heap w l))) = Some items →
     (length (miss_group fns w locs (d_fn (heap w l))) ≤ length items)%nat ∧
     Forall (λ x, rc_deserializer self (wire (rc_serializer self x)) = x) items) →
  let first := mget self fns locs w in
  let second := mget self fns locs first.2 in
  ∃ results,
    first.1 = Ok results ∧
    second.1 = Ok results ∧
    length results = length locs ∧
    calls second.2 = calls first.2 ∧
    redis second.2 = redis first.2.
Proof.
  intros Hne Hkeys Hans Hw Hlim Hgood first second.
  assert (∀ l items,
            l ∈ locs → cached (call_key fns (heap w) l) (redis w) = None →
            recomputed fns (heap w) (d_fn (heap w l))
              (miss_group fns w locs (d_fn (heap w l))) = Some items →
            (length (miss_group fns w locs (d_fn (heap w l))) ≤ length items)%nat)
    as Hlen.
  { intros l items Hl Hm Hit. by destruct (Hgood l items Hl Hm Hit). }
  assert (NoDup locs) as Hnd by (by eapply NoDup_fmap_1).
  assert (∀ l l', l ∈ locs → l' ∈ locs →
            call_key fns (heap w) l = call_key fns (heap w) l' → l = l') as Hinj.
  { intros l l' [i Hi]%list_elem_of_lookup [j Hj]%list_elem_of_lookup Heq.
    assert (i = j) as ->; [|congruence].
    apply (NoDup_lookup _ _ _ (call_key fns (heap w) l) Hkeys).
    - by rewrite list_lookup_fmap, Hi.
    - by rewrite list_lookup_fmap, Hj, Heq. }
  assert (∀ l, l ∈ locs → is_Some (expected self fns w locs l)) as Hexp.
  { intros l Hl.
    destruct (cached (call_key fns (heap w) l) (redis w)) as [v|] eqn:Hc.
    - unfold expected. rewrite Hc. eauto.
    - destruct (Hans l Hl Hc) as (_ & _ & [items Hit]).
      apply not_eq_None_Some. rewrite (expected_None _ _ _ _ _ items) by done.
      intros Hnot. apply Hnot. rewrite take_ge by eauto.
      apply list_elem_of_filter. done. }
  (* the first batch *)
  assert (∃ r W, first = (r, W) ∧ online W ∧ settled (heap w) (heap W) ∧
            (∀ e, r ≠ Raise e) ∧
            ∀ l, l ∈ locs →
              ∃ v, cached (call_key fns (heap w) l) (redis W) = Some v ∧
                   Some (rc_deserializer self v) = expected self fns w locs l)
    as (r & W & Hfirst & HonW & HsW & Hr & Hcached).
  { destruct (decide (Exists (λ l, cached (call_key fns (heap w) l) (redis w) = None) locs))
      as [Hex|Hno].
    - apply list.Exists_exists in Hex.
      destruct (mget_miss_run self fns locs w Hnd Hans Hw Hex)
        as (r & W & Hrun & _ & _ & Hredis & _ & HsW & HonW & Hraise).
      set (cmds := miss_groups fns w locs ≫= group_script_calls self fns (heap w)) in *.
      assert (Forall unlimited_write cmds) as Hun.
      { apply list.Forall_forall. intros c Hc.
        apply (elem_of_script_calls self fns w locs c Hans) in Hc
          as (l & r0 & items & Hl & _ & _ & _ & ->). cbn. by apply Hlim. }
      exists r, W. split_and!; [done..| |].
      + intros e ->. destruct (run_unlimited_ok cmds (redis w) Hun) as [rs Hrs].
        rewrite (Hraise e eq_refl) in Hrs. done.
      + intros l Hl. rewrite Hredis.
        destruct (cached (call_key fns (heap w) l) (redis w)) as [v|] eqn:Hc.
        * exists v. split; [|unfold expected; by rewrite Hc].
          rewrite run_unlimited_other, Hc; [done..|].
          intros c e Hin He Hk.
          apply (elem_of_script_calls self fns w locs c Hans) in Hin
            as (l' & r0 & items & Hl' & Hm' & _ & _ & ->).
          cbn in He. injection He as <-. cbn in Hk. congruence.
        * destruct (Hans l Hl Hc) as (_ & _ & [items Hit]).
          destruct (Hexp l Hl) as [x Hx]. exists (wire (rc_serializer self x)).
          assert ((l, x) ∈ zip (miss_group fns w locs (d_fn (heap w l))) items) as Hzip.
          { unfold expected in Hx. rewrite Hc, Hit in Hx.
            by apply elem_of_list_to_map_2 in Hx. }
          assert (rc_deserializer self (wire (rc_serializer self x)) = x) as ->.
          { destruct (Hgood l items Hl Hc Hit) as [_ Hall].
            rewrite list.Forall_forall in Hall. apply Hall.
            by apply elem_of_zip_r in Hzip. }
          split; [|done].
          apply run_unlimited_written; [done| |].
          -- intros c e Hin He Hk.
             apply (elem_of_script_calls self fns w locs c Hans) in Hin
               as (l' & r0 & items' & Hl' & Hm' & Hit' & Hzip' & ->).
             cbn in He. injection He as <-. cbn in Hk. cbn.
             apply Hinj in Hk; [|done..]. subst l'. rewrite Hit in Hit'.
             injection Hit' as <-.
             assert (r0 = x) as ->; [|done].
             assert (NoDup (zip (miss_group fns w locs (d_fn (heap w l))) items).*1) as Hndz.
             { apply NoDup_fst_zip. by apply list.NoDup_filter. }
             apply (elem_of_list_to_map_1 (M:=gmap nat)) in Hzip, Hzip'; [|done..].
             congruence.
          -- exists (EVALSHA (call_key fns (heap w) l)
                       (default "" (keys_key (fns (d_fn (heap w l)))))
                       (wire (rc_serializer self x))
                       (ttl (fns (d_fn (heap w l)))) (limit (fns (d_fn (heap w l))))).
             split; [|reflexivity].
             apply (elem_of_script_calls self fns w locs _ Hans). by exists l, x, items.
    - assert (∀ l, l ∈ locs → is_Some (cached (call_key fns (heap w) l) (redis w))) as Hhit.
      { intros l Hl. apply not_eq_None_Some. intros Hc. apply Hno.
        apply list.Exists_exists. eauto. }
      destruct (mget_hits_run self fns locs w Hne (online_reachable w Hw) Hhit)
        as (h1 & Hs1 & Hrun).
      eexists _, _. split; [exact Hrun|]. split_and!; [|done|done|].
      + exact (online_exchanged [MGET (call_key fns (heap w) <$> locs)] w Hw).
      + intros l Hl. cbn [redis set_redis]. destruct (Hhit l Hl) as [v Hv].
        exists v. split; [done|]. unfold expected. by rewrite Hv. }
  (* what the first batch returned *)
  pose proof (mget_spec self fns locs w Hnd Hne Hans) as Hspec. fold first in Hspec.
  rewrite Hfirst in Hspec. cbn [fst] in Hspec.
  destruct r as [results|e]; [|by destruct (Hr e)]. exists results.
  assert (Some <$> results = expected self fns w locs <$> locs) as Hres.
  { rewrite Hspec. by apply fmap_Some_omap. }
  (* the second batch *)
  assert (∀ l, call_key fns (heap W) l = call_key fns (heap w) l) as Hck.
  { intros l. by apply settled_call_key. }
  destruct (mget_hits_run self fns locs W Hne (online_reachable W HonW))
    as (h1 & _ & Hsecond).
  { intros l Hl. rewrite Hck. destruct (Hcached l Hl) as (v & -> & _). eauto. }
  unfold second. rewrite Hfirst. cbn [fst snd]. rewrite Hsecond. cbn [fst snd].
  split_and!; try done.
  - f_equal. apply (inj (fmap Some)). rewrite Hres, <-list_fmap_compose.
    apply list_fmap_ext. intros i l Hl. cbn. rewrite Hck.
    destruct (Hcached l) as (v & -> & <-); [by eapply list_elem_of_lookup_2|]. done.
  - by rewrite <-(length_fmap Some results), Hres, length_fmap.
Qed.

Lemma mget_twice_witness :
  let first := mget text_cache (λ _, cached_shout) [0%nat; 1%nat] two_calls_world in
  let second := mget text_cache (λ _, cached_shout) [0%nat; 1%nat] first.2 in
  ∃ results,
    first.1 = Ok results ∧
    second.1 = Ok results ∧
    length results = length [0%nat; 1%nat] ∧
    calls second.2 = calls first.2 ∧
    redis second.2 = redis first.2.
Proof.
  apply (mget_twice text_cache (λ _, cached_shout) [0%nat; 1%nat] two_calls_world).
  - done.
  - refine (bool_decide_unpack _ _). vm_compute. exact I.
  - apply two_calls_answerable.
    + simpl. eauto.
    + simpl. eauto.
    + intros ls. unfold recomputed. simpl. eauto.
  - constructor.
  - intros l _. simpl. lia.
  - intros l items Hl _.
    assert (l = 0%nat ∨ l = 1%nat) as [-> | ->].
    { apply list.elem_of_cons in Hl as [->|Hl]; [by left|].
      apply list_elem_of_singleton in Hl. by right. }
    + vm_compute. intros [= <-]. split; [lia|]. by repeat constructor.
    + vm_compute. intros [= <-]. split; [lia|]. by repeat constructor.
Defined.

(** *** Failures of the write-back *)

(** C6, as the code has it: on a miss in the single-call path (the store
    answered the lookup with nothing, or with an empty value), [inner] calls
    the function and then the script, and nothing is there to catch what the
    script call raises. An error of the write-back is raised to the caller,
    who does not get the computed result although the function was invoked;
    the result is returned when the write-back succeeds. When the store
    cannot be reached for the write-back, the call raises [ConnectionError]
    and the store keeps what it held: nothing is cached. When the script
    fails on the index (the limit is positive and the index key holds a
    string), the call raises [WRONGTYPE], but the script has written the
    value before: the entry is cached, and the next call with the same
    arguments finds it, when it is not empty. *)
Theorem write_back_failure_propagates self fn args kwargs w r :
  support_batch_call self = false → reachable w →
  (redis_GET (get_key self args kwargs) (redis w)).1 = Ok r → falsy r = true →
  let key := get_key self args kwargs in
  let result := fn_body fn args kwargs in
  let value := wire (serializer self result) in
  let write_back :=
    get_cache_lua_fn key (keys_key self) (serializer self result) (ttl self) (limit self)
      (invoked fn args kwargs (exchanged [GET key] w)) in
  let call := inner self fn args kwargs w in
  (∀ e, write_back.1 = Raise e → call = (Raise e, write_back.2)) ∧
  (∀ x, write_back.1 = Ok x → call = (Ok result, write_back.2)) ∧
  calls call.2 = calls w ++ [Invocation (fn_module fn) (fn_name fn) args kwargs] ∧
  (head (tail (link w)) = Some false → is_Some (keys_key self) →
   call.1 = Raise ConnectionError ∧ redis call.2 = redis w) ∧
  (∀ kk, keys_key self = Some kk → head (tail (link w)) ≠ Some false →
     limit self > 0 → accepted_ttl (ttl self) (redis w) →
     (∃ x e, lookup_key kk (written key value (ttl self) (redis w)) = Some (RString x e)) →
     call.1 = Raise WRONGTYPE ∧
     redis call.2 = written key value (ttl self) (redis w) ∧
     cached key (redis call.2) = Some value ∧
     (value ≠ "" → reachable call.2 →
      inner self fn args kwargs call.2 =
        (Ok (deserializer self value), exchanged [GET key] call.2))).
Proof.
  intros Hb Hr Hget Hf key result value write_back call.
  assert (call = match write_back with
                 | (Ok _, w') => (Ok result, w')
                 | (Raise e, w') => (Raise e, w')
                 end) as Hcall.
  { unfold call. by rewrite (inner_miss _ _ _ _ _ r). }
  assert (calls write_back.2 =
          calls w ++ [Invocation (fn_module fn) (fn_name fn) args kwargs]) as Hcalls.
  { unfold write_back. by rewrite get_cache_lua_fn_calls. }
  split_and!.
  - intros e He. rewrite Hcall. destruct write_back as [[] ?]; naive_solver.
  - intros x Hx. rewrite Hcall. destruct write_back as [[] ?]; naive_solver.
  - rewrite Hcall. by destruct write_back as [[] ?].
  - intros Hl [kk Hkk]. rewrite Hcall. unfold write_back, get_cache_lua_fn.
    rewrite Hkk, on_server_unreachable; [done|].
    cbn [link invoked set_calls exchanged set_link set_served]. done.
  - intros kk Hkk Hl HL _ Hx.
    assert (write_back =
            (Raise WRONGTYPE,
             set_redis (written key value (ttl self) (redis w))
               (exchanged [EVALSHA key kk value (ttl self) (limit self)]
                  (invoked fn args kwargs (exchanged [GET key] w))))) as Hwb.
    { unfold write_back, get_cache_lua_fn. rewrite Hkk.
      rewrite on_server_reachable by exact Hl.
      cbn [redis invoked set_calls exchanged set_link set_served].
      rewrite cache_lua_fn_wrongtype; [done..|]. by apply zset_at_None. }
    rewrite Hcall, Hwb. cbn [fst snd redis set_redis].
    assert (cached key (written key value (ttl self) (redis w)) = Some value) as Hc.
    { by rewrite cached_written, decide_True. }
    split_and!; [done..|]. intros Hv Hre. by apply inner_hit.
Qed.

(** [shout] on a store that answers the lookup and then cannot be reached;
    and [population] for the argument ['keys'], cached with a limit under
    the namespace [geo:fr], whose key [rc:geo:fr:keys] is the index key. *)
Lemma write_back_failure_propagates_witness :
  (let call := inner cached_shout shout [PyStr "a"] [] one_exchange_world in
   call.1 = Raise ConnectionError ∧ redis call.2 = redis one_exchange_world) ∧
  (let call := inner cached_geo_fr_2 population [PyStr "keys"] [] empty_world in
   call.1 = Raise WRONGTYPE ∧
   calls call.2 = [Invocation "app" "population" [PyStr "keys"] []] ∧
   cached "rc:geo:fr:keys" (redis call.2) = Some "2100000" ∧
   inner cached_geo_fr_2 population [PyStr "keys"] [] call.2 =
     (Ok (PyStr "2100000"), exchanged [GET "rc:geo:fr:keys"] call.2)).
Proof.
  split.
  - intros call.
    destruct (write_back_failure_propagates cached_shout shout [PyStr "a"] []
                one_exchange_world None) as (_ & _ & _ & H & _).
    + reflexivity.
    + unfold reachable. simpl. discriminate.
    + vm_compute. reflexivity.
    + reflexivity.
    + apply H; [reflexivity|simpl; eauto].
  - intros call.
    destruct (write_back_failure_propagates cached_geo_fr_2 population [PyStr "keys"] []
                empty_world None) as (_ & _ & Hcalls & _ & H).
    + reflexivity.
    + unfold reachable. simpl. discriminate.
    + vm_compute. reflexivity.
    + reflexivity.
    + destruct (H "rc:geo:fr:keys") as (H1 & _ & H3 & H4).
      * reflexivity.
      * simpl. discriminate.
      * simpl. lia.
      * intros Hpos. simpl in Hpos. lia.
      * exists "2100000", None. vm_compute. reflexivity.
      * split_and!; [exact H1|exact Hcalls|exact H3|].
        apply H4; [vm_compute; discriminate|].
        unfold reachable. vm_compute. discriminate.
Defined.

(** C6, where the claim fails: the store answers the lookup and cannot be
    reached for the write-back. The computation was invoked, and the call
    raises instead of returning its result. *)
Lemma write_back_failure_raises :
  let call := inner cached_shout shout [PyStr "a"] [] one_exchange_world in
  call.1 = Raise ConnectionError ∧
  calls call.2 = [Invocation "app" "shout" [PyStr "a"] []] ∧
  fn_body shout [PyStr "a"] [] = PyStr "a!".
Proof. vm_compute. split_and!; reflexivity. Qed.

(** *** Base64 texts decode to the bytes they encode *)

Lemma position_lookup (l : list ascii) i c :
  NoDup l → l !! i = Some c → position c l = Some (N.of_nat i).
Proof.
  revert i. induction l as [|x l IH]; intros i Hnd Hi; [done|].
  apply list.NoDup_cons in Hnd as [Hx Hnd]. cbn [position].
  destruct i as [|i]; cbn in Hi.
  - injection Hi as ->. by rewrite decide_True.
  - rewrite decide_False.
    + rewrite (IH i) by done. cbn. f_equal. lia.
    + intros ->. apply Hx. by eapply list_elem_of_lookup_2.
Qed.

Lemma b64_value_digit n : (n < 64)%N → b64_value (b64_digit n) = Some n.
Proof.
  intros Hn. unfold b64_value.
  rewrite (position_lookup _ (N.to_nat n)).
  - by rewrite N2Nat.id.
  - apply b64_alphabet_NoDup.
  - by apply b64_digit_lookup.
Qed.

Lemma b64_bytes_groups n bs :
  (length bs < n)%nat → b64_bytes (b64_groups bs) = Some bs.
Proof.
  revert bs. induction n as [|n IH]; intros bs Hn; [lia|].
  destruct bs as [|a [|b [|c rest]]]; cbn [b64_groups b64_bytes]; [done|..].
  - rewrite !b64_value_digit by auto with b64.
    rewrite !decide_True by done.
    by rewrite byte1_short_back, ascii_N_embedding by auto with b64.
  - rewrite !b64_value_digit by auto with b64.
    rewrite decide_True by done.
    rewrite decide_False by (apply b64_digit_not_pad; auto with b64).
    rewrite byte1_back, byte2_short_back by auto with b64.
    by rewrite !ascii_N_embedding.
  - rewrite !b64_value_digit by auto with b64.
    rewrite decide_False by (apply b64_digit_not_pad; auto with b64).
    rewrite IH by (simpl in Hn; lia).
    rewrite byte1_back, byte2_back, byte3_back by auto with b64.
    by rewrite !ascii_N_embedding.
Qed.

Lemma b64decode_b64encode b : b64decode (b64encode b) = Some b.
Proof.
  unfold b64decode, b64encode.
  rewrite String.list_ascii_of_string_of_list_ascii.
  rewrite (b64_bytes_groups (S (length (chars b)))) by lia.
  cbn. by rewrite String.string_of_list_ascii_of_string.
Qed.

(** *** Key derivation *)

(** C9, as the code has it. The key is [prefix], a colon, the namespace as
    an f-string renders it, a colon, and the encoded data. The data is what
    the key serializer returns for the arguments when one is configured,
    and otherwise what the serializer returns for the list [[args, kwargs]];
    it is taken as it is when it is a [str], and otherwise encoded in
    base64: a text of the base64 alphabet and [=], of four characters for
    every three bytes or part thereof, which decodes to these bytes. Under
    one prefix and namespace, two derivations give the same key exactly
    when their encoded data are the same; when both serializers return
    bytes, exactly when the bytes are the same. So the key is determined by
    what the serializer makes of the arguments, and by nothing else: the
    derivation reads the settings of the decorator and calls the serializer,
    and touches neither the decorator nor the store. For a decorator applied
    to a function, the namespace is the configured one when it is not empty,
    and the function's qualified name otherwise. *)
Theorem get_key_deterministic_well_formed (self : CacheDecorator)
    (args : args_t) (kwargs : kwargs_t) :
  let data := key_data self args kwargs in
  get_key self args kwargs =
    prefix self +:+ ":" +:+ py_format (namespace self) +:+ ":" +:+ encoded data ∧
  (∀ ks, key_serializer self = Some ks → data = ks args kwargs) ∧
  (key_serializer self = None →
   data = serializer self (PyList [PyList args; PyDict kwargs])) ∧
  (∀ s, data = Str s → encoded data = s) ∧
  (∀ b, data = Bytes b →
        b64decode (encoded data) = Some b ∧
        Forall b64_char (chars (encoded data)) ∧
        ∃ q, String.length (encoded data) = (4 * q)%nat ∧
             (String.length b ≤ 3 * q < String.length b + 3)%nat) ∧
  (∀ self' args' kwargs',
     prefix self' = prefix self → namespace self' = namespace self →
     (get_key self' args' kwargs' = get_key self args kwargs ↔
      encoded (key_data self' args' kwargs') = encoded data) ∧
     (∀ b b', key_data self' args' kwargs' = Bytes b' → data = Bytes b →
        get_key self' args' kwargs' = get_key self args kwargs ↔ b' = b)) ∧
  (∀ d fn, self = __call__ d fn →
     py_format (namespace self) =
       match namespace d with
       | Some ns => if decide (ns = "") then fn_module fn +:+ "." +:+ fn_name fn else ns
       | None => fn_module fn +:+ "." +:+ fn_name fn
       end).
Proof.
  intros data.
  assert (∀ self' args' kwargs',
            prefix self' = prefix self → namespace self' = namespace self →
            (get_key self' args' kwargs' = get_key self args kwargs ↔
             encoded (key_data self' args' kwargs') = encoded data)) as Hiff.
  { intros self' args' kwargs' Hp Hn. rewrite !get_key_encoded. unfold namespace_tag.
    rewrite Hp, Hn. fold data. split; [|by intros ->].
    intros H. apply (f_equal chars) in H. rewrite !chars_app in H.
    apply chars_inj. by repeat apply app_inv_head in H. }
  split_and!.
  - rewrite get_key_encoded. unfold namespace_tag. fold data.
    apply chars_inj. rewrite !chars_app. by rewrite <-!app_assoc.
  - intros ks Hks. unfold data, key_data. by rewrite Hks.
  - intros Hks. unfold data, key_data. by rewrite Hks.
  - by intros s ->.
  - intros b ->. cbn [encoded]. split; [apply b64decode_b64encode|]. apply b64encode_spec.
  - intros self' args' kwargs' Hp Hn. split; [by apply Hiff|].
    intros b b' Hb' Hb. rewrite (Hiff _ _ _ Hp Hn), Hb', Hb. cbn [encoded].
    split; [apply b64encode_inj|by intros ->].
  - intros d fn ->. done.
Qed.

(** C9, where the claim fails: two calls with the same keyword arguments,
    written in another order. The two dictionaries are equal, [json.dumps]
    writes each in its own order, and the keys differ. *)
Lemma kwargs_order_changes_key :
  let kwargs := [("a", PyInt 1); ("b", PyInt 2)] in
  let kwargs' := [("b", PyInt 2); ("a", PyInt 1)] in
  kwargs ≡ₚ kwargs' ∧
  NoDup kwargs.*1 ∧
  key_data cached_shout [] kwargs = Str (dumps (PyList [PyList []; PyDict kwargs])) ∧
  key_data cached_shout [] kwargs' = Str (dumps (PyList [PyList []; PyDict kwargs'])) ∧
  get_key cached_shout [] kwargs =
    "rc:app.shout:[[], {" +:+ dquote +:+ "a" +:+ dquote +:+ ": 1, "
      +:+ dquote +:+ "b" +:+ dquote +:+ ": 2}]" ∧
  get_key cached_shout [] kwargs' =
    "rc:app.shout:[[], {" +:+ dquote +:+ "b" +:+ dquote +:+ ": 2, "
      +:+ dquote +:+ "a" +:+ dquote +:+ ": 1}]" ∧
  get_key cached_shout [] kwargs ≠ get_key cached_shout [] kwargs'.
Proof.
  split_and!.
  - apply perm_swap.
  - refine (bool_decide_unpack _ _). vm_compute. exact I.
  - reflexivity.
  - reflexivity.
  - vm_compute. reflexivity.
  - vm_compute. reflexivity.
  - vm_compute. discriminate.
Qed.
